(** * Contacts Matcher 5000: normalisation, company and person matching

    A shallow embedding of the matching engine of [leadmatcher5000.py] and
    of [app.py]: the field normalisers, the company matcher, the person
    matcher and the roster aggregator, together with the properties the
    specification states about them.

    Conventions of the embedding.
    - A Python [str] is a [text], a list of characters; a character is a
      code point below 256 and is classified the way Python classifies it
      ([\w], [\s], [str.lower]) on that range.
    - A cell of a data frame read with [dtype=str] is a string or NaN.
    - The scorers of [fuzzywuzzy] are not part of the repository; they are
      the fields of a [SimilarityProvider], and every result is stated for
      an arbitrary provider, with what it needs of the provider as a
      hypothesis.
    - Code that can raise returns a [result]. *)

From Stdlib Require Import ZArith Ascii String Lia Sorted.
From stdpp Require Import gmap strings list.

Open Scope Z_scope.

(* ================================================================== *)
(** ** Characters and text *)
(* ================================================================== *)

Abbreviation text := (list ascii).

Coercion list_ascii_of_string : string >-> list.

Definition code (c : ascii) : N := N_of_ascii c.

Definition in_range (lo hi : N) (c : ascii) : bool :=
  ((lo <=? code c) && (code c <=? hi))%N.

Definition is_char (n : N) (c : ascii) : bool := (code c =? n)%N.

(** [\s] on a [str] pattern, and the characters [str.strip()] and
    [str.split()] treat as blank: TAB..CR, FS..US, space, NEL, NBSP. *)
Definition is_space (c : ascii) : bool :=
  in_range 9 13 c || in_range 28 32 c || is_char 133 c || is_char 160 c.

(** [\d]: the decimal digits. *)
Definition is_digit (c : ascii) : bool := in_range 48 57 c.

(** The characters below 256 that [str.lower] changes. *)
Definition is_upper (c : ascii) : bool :=
  in_range 65 90 c || (in_range 192 222 c && negb (is_char 215 c)).

(** [[A-Za-z]]. *)
Definition is_ascii_letter (c : ascii) : bool :=
  in_range 65 90 c || in_range 97 122 c.

(** [\w]: alphanumeric characters and the underscore. *)
Definition is_word (c : ascii) : bool :=
  is_ascii_letter c || is_digit c || is_char 95 c
  || is_char 170 c || is_char 178 c || is_char 179 c || is_char 181 c
  || is_char 185 c || is_char 186 c || in_range 188 190 c
  || in_range 192 214 c || in_range 216 246 c || in_range 248 255 c.

Definition lower_char (c : ascii) : ascii :=
  if is_upper c then ascii_of_N (code c + 32) else c.

(** [s.lower()] *)
Definition lower (s : text) : text := map lower_char s.

Definition text_eqb (s t : text) : bool := bool_decide (s = t).

(** [s.strip(chars)]: drop the leading and the trailing characters that
    satisfy [p]. *)
Fixpoint lstrip (p : ascii -> bool) (s : text) : text :=
  match s with
  | c :: s' => if p c then lstrip p s' else s
  | [] => []
  end.

Definition rstrip (p : ascii -> bool) (s : text) : text :=
  rev (lstrip p (rev s)).

Definition strip_chars (p : ascii -> bool) (s : text) : text :=
  rstrip p (lstrip p s).

(** [s.strip()] *)
Definition strip (s : text) : text := strip_chars is_space s.

(** [s.split()]: the maximal runs of non-blank characters. *)
Fixpoint split_acc (cur : text) (s : text) : list text :=
  match s with
  | [] => match cur with [] => [] | _ => [rev cur] end
  | c :: s' =>
      if is_space c
      then match cur with
           | [] => split_acc [] s'
           | _ => rev cur :: split_acc [] s'
           end
      else split_acc (c :: cur) s'
  end.

Definition split (s : text) : list text := split_acc [] s.

(** [sep.join(l)] *)
Fixpoint join (sep : text) (l : list text) : text :=
  match l with
  | [] => []
  | [w] => w
  | w :: l' => w ++ sep ++ join sep l'
  end.

Fixpoint starts_with (p s : text) : bool :=
  match p, s with
  | [], _ => true
  | c :: p', d :: s' => bool_decide (c = d) && starts_with p' s'
  | _ :: _, [] => false
  end.

(** [sub in s] *)
Fixpoint contains (sub s : text) : bool :=
  starts_with sub s ||
  match s with
  | [] => false
  | _ :: s' => contains sub s'
  end.

(** [s.endswith(suf)] *)
Definition ends_with (suf s : text) : bool := starts_with (rev suf) (rev s).

(** A Python truth test on a string: [if s:]. *)
Definition truthy (s : text) : bool :=
  match s with [] => false | _ => true end.

(* ================================================================== *)
(** ** Regular expressions

    The patterns of the program use literals, character classes, greedy
    repetition of a character class, greedy optional groups, ordered
    alternation, and the zero-width assertions [^], [$] and [\b].  The
    matcher is a backtracking matcher: [rmatch r prev s] lists, in the
    order in which [re] tries them, the ways [r] can match a prefix of [s]
    when [prev] is the character before [s]; each way is the last
    character consumed and the rest of the input. *)
(* ================================================================== *)

Inductive regex :=
| Lit (s : text)
| Cls (p : ascii -> bool)
| Star (p : ascii -> bool)
| Plus (p : ascii -> bool)
| Opt (r : regex)
| Alt (r1 r2 : regex)
| Seq (r1 r2 : regex)
| Bol
| Eol
| WordB.

Infix ">>" := Seq (at level 60, right associativity).

Abbreviation pos := (option ascii * text)%type.

Fixpoint lit_match (l : text) (prev : option ascii) (s : text) : list pos :=
  match l with
  | [] => [(prev, s)]
  | c :: l' =>
      match s with
      | d :: s' => if bool_decide (c = d) then lit_match l' (Some d) s' else []
      | [] => []
      end
  end.

(** Greedy repetition: the longest run first, then shorter ones. *)
Fixpoint star_match (p : ascii -> bool) (prev : option ascii) (s : text) : list pos :=
  match s with
  | c :: s' => if p c then star_match p (Some c) s' ++ [(prev, s)] else [(prev, s)]
  | [] => [(prev, s)]
  end.

Definition word_before (prev : option ascii) : bool :=
  match prev with Some c => is_word c | None => false end.

Definition word_after (s : text) : bool :=
  match s with c :: _ => is_word c | [] => false end.

Definition newline : ascii := ascii_of_N 10.

Fixpoint rmatch (r : regex) (prev : option ascii) (s : text) : list pos :=
  match r with
  | Lit l => lit_match l prev s
  | Cls p => match s with
             | c :: s' => if p c then [(Some c, s')] else []
             | [] => []
             end
  | Star p => star_match p prev s
  | Plus p => match s with
              | c :: s' => if p c then star_match p (Some c) s' else []
              | [] => []
              end
  | Opt r1 => rmatch r1 prev s ++ [(prev, s)]
  | Alt r1 r2 => rmatch r1 prev s ++ rmatch r2 prev s
  | Seq r1 r2 => flat_map (fun q : pos => rmatch r2 (fst q) (snd q)) (rmatch r1 prev s)
  | Bol => match prev with None => [(prev, s)] | Some _ => [] end
  | Eol => match s with
           | [] => [(prev, s)]
           | [c] => if bool_decide (c = newline) then [(prev, s)] else []
           | _ => []
           end
  | WordB => if xorb (word_before prev) (word_after s) then [(prev, s)] else []
  end.

(** The match [re] reports at a position: the first way, as the number of
    characters it consumes. *)
Definition match_at (r : regex) (prev : option ascii) (s : text) : option nat :=
  match rmatch r prev s with
  | q :: _ => Some (length s - length (snd q))%nat
  | [] => None
  end.

(** [re.sub(r, repl, s)], left to right over non-overlapping matches;
    [repl] maps the matched text to its replacement.  [skip] counts the
    characters of the current match that are still to be dropped.  No
    pattern of the program matches the empty string (see [nullable]); the
    branch for an empty match replaces it and copies the next character. *)
Fixpoint sub_from (r : regex) (repl : text -> text)
    (prev : option ascii) (s : text) (skip : nat) : text :=
  match skip with
  | S k => match s with
           | c :: s' => sub_from r repl (Some c) s' k
           | [] => []
           end
  | O =>
      match match_at r prev s with
      | Some (S k) =>
          repl (take (S k) s) ++
          match s with
          | c :: s' => sub_from r repl (Some c) s' k
          | [] => []
          end
      | Some O =>
          repl [] ++
          match s with
          | c :: s' => c :: sub_from r repl (Some c) s' O
          | [] => []
          end
      | None =>
          match s with
          | c :: s' => c :: sub_from r repl (Some c) s' O
          | [] => []
          end
      end
  end.

Definition re_sub_fn (r : regex) (repl : text -> text) (s : text) : text :=
  sub_from r repl None s O.

(** [re.sub(r, repl, s)] for a replacement without group references. *)
Definition re_sub (r : regex) (repl : text) (s : text) : text :=
  re_sub_fn r (fun _ => repl) s.

(** Whether a pattern can match the empty string. *)
Fixpoint nullable (r : regex) : bool :=
  match r with
  | Lit l => negb (truthy l)
  | Cls _ | Plus _ => false
  | Star _ | Opt _ | Bol | Eol | WordB => true
  | Alt r1 r2 => nullable r1 || nullable r2
  | Seq r1 r2 => nullable r1 && nullable r2
  end.

(* ================================================================== *)
(** ** Python values *)
(* ================================================================== *)

(** A cell of a data frame read with [dtype=str]: a string, or NaN for a
    missing value. *)
Inductive cell :=
| Str (s : text)
| NaN.

(** [pd.isna(v)] *)
Definition isna (v : cell) : bool :=
  match v with NaN => true | Str _ => false end.

(** [str(v)] *)
Definition py_str (v : cell) : text :=
  match v with Str s => s | NaN => "nan" end.

(** [sorted(l, key=len, reverse=True)]: a stable sort, longest first. *)
Fixpoint insert_by_len_desc (w : text) (l : list text) : list text :=
  match l with
  | [] => [w]
  | x :: l' =>
      if (length x <=? length w)%nat then w :: l
      else x :: insert_by_len_desc w l'
  end.

Definition sorted_by_len_desc (l : list text) : list text :=
  foldr insert_by_len_desc [] l.

(** [d.get(k, k)] on a literal table. *)
Fixpoint table_get (k : text) (tbl : list (text * text)) : option text :=
  match tbl with
  | [] => None
  | (k', v) :: tbl' => if text_eqb k k' then Some v else table_get k tbl'
  end.

Definition texts (l : list string) : list text := map list_ascii_of_string l.

(** [s.split(sep)] on a one-character separator: empty parts are kept. *)
Fixpoint split_on_acc (sep : ascii) (cur : text) (s : text) : list text :=
  match s with
  | [] => [rev cur]
  | c :: s' =>
      if bool_decide (c = sep) then rev cur :: split_on_acc sep [] s'
      else split_on_acc sep (c :: cur) s'
  end.

Definition split_on (sep : ascii) (s : text) : list text := split_on_acc sep [] s.

(** Comparison of strings, by code point. *)
Fixpoint text_ltb (s t : text) : bool :=
  match s, t with
  | _, [] => false
  | [], _ :: _ => true
  | c :: s', d :: t' =>
      (code c <? code d)%N || ((code c =? code d)%N && text_ltb s' t')
  end.

(** Code that can raise. *)
Inductive exception := TypeError | IndexError.

Inductive result (A : Type) :=
| Ok (a : A)
| Raise (e : exception).
Arguments Ok {A} a.
Arguments Raise {A} e.

(** *** Data frames

    A frame has column labels and rows of cells; [iterrows] hands out
    each row as a series, the cells under their labels.  Labels are taken
    to be distinct; a row shorter than the header is filled with NaN. *)

Record DataFrame := {
  columns : list string;
  rows : list (list cell)
}.

Abbreviation Series := (list (string * cell)).

Fixpoint label_row (cols : list string) (r : list cell) : Series :=
  match cols with
  | [] => []
  | col :: cols' =>
      match r with
      | v :: r' => (col, v) :: label_row cols' r'
      | [] => (col, NaN) :: label_row cols' []
      end
  end.

Definition iterrows (df : DataFrame) : list Series :=
  map (label_row (columns df)) (rows df).

(** [row[label]], when [label in row]. *)
Fixpoint item (row : Series) (label : string) : option cell :=
  match row with
  | [] => None
  | (l, v) :: row' => if bool_decide (l = label) then Some v else item row' label
  end.

(** [label in row] *)
Definition has_label (row : Series) (label : string) : bool :=
  bool_decide (is_Some (item row label)).

(** [row.get(label, '')] *)
Definition series_get (row : Series) (label : string) : cell :=
  default (Str "") (item row label).

(** [df[col]]: the cells of one column. *)
Definition column (df : DataFrame) (col : string) : list cell :=
  map (fun row => default NaN (item row col)) (iterrows df).

(** *** Dictionaries in insertion order

    [d[k] = v] replaces the value of a key that is present, in place, and
    appends a new key. *)

Fixpoint dict_set {V : Type} (k : text) (v : V) (d : list (text * V)) : list (text * V) :=
  match d with
  | [] => [(k, v)]
  | (k', v') :: d' =>
      if text_eqb k k' then (k, v) :: d' else (k', v') :: dict_set k v d'
  end.

Fixpoint dict_get {V : Type} (k : text) (d : list (text * V)) : option V :=
  match d with
  | [] => None
  | (k', v') :: d' => if text_eqb k k' then Some v' else dict_get k d'
  end.

(** [d.update(e)] *)
Definition dict_update {V : Type} (d e : list (text * V)) : list (text * V) :=
  foldl (fun d kv => dict_set (fst kv) (snd kv) d) d e.

(** [list(d.values())] *)
Definition dict_values {V : Type} (d : list (text * V)) : list V := map snd d.

(** *** Thresholds *)

Record Thresholds := {
  company_name : Z;
  person_name : Z;
  email : Z;
  title : Z;
  department : Z
}.

(** *** The similarity provider

    [fuzz.ratio], [fuzz.token_sort_ratio], [fuzz.token_set_ratio] and
    [fuzz.partial_ratio].  They accept any object: the person matcher
    hands them the key dictionaries of [get_person_key] as well as
    strings. *)

Record PersonKey := {
  last_name : text;
  first_name : text;
  job_title : text;
  linkedin : text;
  email_name : text
}.

Inductive fuzz_arg :=
| FStr (s : text)
| FKey (k : PersonKey).

Class SimilarityProvider := {
  ratio : fuzz_arg -> fuzz_arg -> Z;
  token_sort_ratio : fuzz_arg -> fuzz_arg -> Z;
  token_set_ratio : fuzz_arg -> fuzz_arg -> Z;
  partial_ratio : fuzz_arg -> fuzz_arg -> Z
}.

(** [max(a, b, c)] *)
Definition max3 (a b c : Z) : Z := Z.max (Z.max a b) c.

(** [process.extractOne(query, choices, scorer=fuzz.token_sort_ratio)] on
    a list of choices: the first choice with the highest score, with its
    score, or [None] when there is no choice (the cut-off is 0).  The
    processing [extractOne] applies to the query and the choices is the
    one the scorer applies itself, so it is part of the provider. *)
Definition extract_better (best : option (text * Z)) (cand : text * Z) : option (text * Z) :=
  match best with
  | None => Some cand
  | Some b => if snd b <? snd cand then Some cand else best
  end.

Definition extractOne `{SimilarityProvider} (query : text) (choices : list text)
  : option (text * Z) :=
  foldl extract_better None
    (filter (fun cs => 0 <= snd cs)
       (map (fun choice => (choice, token_sort_ratio (FStr query) (FStr choice))) choices)).

(** [s[:n]] and [s[n:]] for an integer [n]: a negative [n] counts from
    the end of [s]. *)
Definition slice_index (n : Z) (s : text) : nat :=
  if 0 <=? n then Z.to_nat n else (length s - Z.to_nat (- n))%nat.

Definition slice_to (n : Z) (s : text) : text := take (slice_index n s) s.
Definition slice_from (n : Z) (s : text) : text := drop (slice_index n s) s.

(** [s.rfind(c)]: the highest index of [c] in [s], or -1. *)
Fixpoint rfind (c : ascii) (s : text) : Z :=
  match s with
  | [] => -1
  | d :: s' =>
      let r := rfind c s' in
      if 0 <=? r then r + 1 else if bool_decide (d = c) then 0 else -1
  end.

(* ================================================================== *)
(** ** leadmatcher5000.py: the normalisers *)
(* ================================================================== *)

Module Leadmatcher.

Definition amp : ascii := ascii_of_N 38.
Definition dot : ascii := ascii_of_N 46.
Definition blank : ascii := ascii_of_N 32.

(** [[^\w\s\&\.]] *)
Definition company_junk (c : ascii) : bool :=
  negb (is_word c || is_space c || bool_decide (c = amp) || bool_decide (c = dot)).

(** [\s*\&\s*] *)
Definition amp_re : regex := Star is_space >> Lit "&" >> Star is_space.

(** [^the\s+] *)
Definition leading_the_re : regex := Bol >> Lit "the" >> Plus is_space.

(** [qcr\s*holdings?\s*(?:inc|incorporated)?] *)
Definition qcr_re : regex :=
  Lit "qcr" >> Star is_space >> Lit "holding" >> Opt (Lit "s") >>
  Star is_space >> Opt (Alt (Lit "inc") (Lit "incorporated")).

Definition edu_keywords : list text :=
  texts ["university"; "college"; "institute"; "school"]%string.

Definition suffixes : list text :=
  texts ["inc"; "corp"; "corporation"; "llc"; "ltd"; "limited"; "co";
         "company"; "group"; "holdings"; "international"; "intl";
         "worldwide"; "global"; "solutions"; "services"; "technologies";
         "technology"; "tech"; "plc"; "lp"; "llp"; "gmbh"; "sa"; "ag";
         "nv"; "bv"; "pty"; "proprietary"]%string.

Definition divisions : list text :=
  texts ["division of"; "subsidiary of"; "part of"; "a division of";
         "a subsidiary of"]%string.

(** [\s*{div}\s+] *)
Definition division_re (div : text) : regex :=
  Star is_space >> Lit div >> Plus is_space.

Definition abbrev_map : list (text * text) :=
  map (fun kv : string * string =>
         (list_ascii_of_string (fst kv), list_ascii_of_string (snd kv)))
    [("corp", "corporation"); ("inc", "incorporated");
     ("intl", "international"); ("tech", "technology");
     ("mfg", "manufacturing"); ("svcs", "services"); ("sys", "systems");
     ("grp", "group"); ("hldg", "holding"); ("univ", "university");
     ("hosp", "hospital"); ("med", "medical"); ("ctr", "center")]%string.

(** [\s+{suffix}(?:\s+|$)] *)
Definition suffix_re (suffix : text) : regex :=
  Plus is_space >> Lit suffix >> Alt (Plus is_space) Eol.

(** The statements of [normalize_company_name], in order. *)

(** Lower-case, trim, drop punctuation, space the ampersand, drop a
    leading "the". *)
Definition clean_company (name : text) : text :=
  let name := strip (lower name) in
  let name := re_sub (Cls company_junk) "" name in
  let name := re_sub amp_re " & " name in
  re_sub leading_the_re "" name.

Definition is_edu (name : text) : bool :=
  existsb (fun keyword => contains keyword name) edu_keywords.

Definition strip_divisions (name : text) : text :=
  foldl (fun name div => re_sub (division_re div) " " name) name divisions.

Definition expand_abbreviations (name : text) : text :=
  join " " (map (fun word => default word (table_get word abbrev_map)) (split name)).

Definition strip_suffixes (name : text) : text :=
  foldl (fun name suffix => re_sub (suffix_re suffix) " " name) name
    (sorted_by_len_desc suffixes).

Definition is_blank_or_dot (c : ascii) : bool :=
  bool_decide (c = blank) || bool_decide (c = dot).

Definition tidy (name : text) : text :=
  let name := re_sub (Plus is_space) " " name in
  let name := re_sub (Plus (fun c => bool_decide (c = dot))) "." name in
  strip_chars is_blank_or_dot name.

Definition normalize_company_text (name : text) : text :=
  let name := clean_company name in
  if contains "qcr" (lower name) then
    strip (re_sub qcr_re "qcr holdings" name)
  else
    let edu := is_edu name in
    let name := strip_divisions name in
    let name := expand_abbreviations name in
    let name := if negb edu then strip_suffixes name else name in
    tidy name.

Definition normalize_company_name (name : cell) : text :=
  if isna name then "" else normalize_company_text (py_str name).

(** [[^\w\s\.]] *)
Definition person_junk (c : ascii) : bool :=
  negb (is_word c || is_space c || bool_decide (c = dot)).

Definition titles : list text :=
  texts ["dr"; "mr"; "mrs"; "ms"; "miss"; "prof"; "professor"; "phd"; "md";
         "mba"; "esq"; "cpa"; "jr"; "sr"; "ii"; "iii"; "iv"]%string.

(** [([A-Za-z])\.([A-Za-z])] with the replacement [\1. \2]. *)
Definition initials_re : regex :=
  Cls is_ascii_letter >> Lit "." >> Cls is_ascii_letter.

Definition space_initials (matched : text) : text :=
  match matched with
  | [a; _; b] => [a; dot; blank; b]
  | _ => matched
  end.

Definition normalize_person_text (name : text) : text :=
  let name := strip (re_sub (Cls person_junk) "" (lower name)) in
  let name :=
    foldl (fun name title =>
             let name := re_sub (Bol >> Lit title >> Plus is_space) "" name in
             re_sub (Plus is_space >> Lit title >> Eol) "" name)
      name titles in
  let name := re_sub_fn initials_re space_initials name in
  let name := re_sub (Plus is_space) " " name in
  strip name.

Definition normalize_person_name (name : cell) : text :=
  if isna name then "" else normalize_person_text (py_str name).

(** The role table of [normalize_job_title], in the order of the
    dictionary; each key [k] stands for the pattern [\bk\b]. *)
Definition level_map : list (text * text) :=
  map (fun kv : string * string =>
         (list_ascii_of_string (fst kv), list_ascii_of_string (snd kv)))
    [("sr", "senior"); ("jr", "junior"); ("svp", "senior vice president");
     ("vp", "vice president"); ("ceo", "chief executive officer");
     ("cfo", "chief financial officer"); ("cto", "chief technology officer");
     ("coo", "chief operating officer"); ("cio", "chief information officer");
     ("cmo", "chief marketing officer"); ("pres", "president");
     ("exec", "executive"); ("mgr", "manager"); ("dir", "director");
     ("eng", "engineer"); ("dev", "developer")]%string.

Definition fillers : list text :=
  texts ["of"; "the"; "and"; "&"; "for"; "to"; "in"; "at"]%string.

(** [\b{w}\b] *)
Definition whole_word_re (w : text) : regex := WordB >> Lit w >> WordB.

Definition normalize_job_text (title : text) : text :=
  let title := strip (lower title) in
  let title :=
    foldl (fun title kv => re_sub (whole_word_re (fst kv)) (snd kv) title)
      title level_map in
  let title :=
    foldl (fun title filler => re_sub (whole_word_re filler) " " title)
      title fillers in
  let title := re_sub (Plus is_space) " " title in
  strip title.

Definition normalize_job_title (title : cell) : text :=
  if isna title then "" else normalize_job_text (py_str title).

(** *** The person matcher *)

(** A contact handed to [find_person_matches]: a dictionary of strings. *)
Abbreviation contact := (gmap string text).

(** [d.get(k, '')] *)
Definition contact_get (d : contact) (k : string) : text := default [] (d !! k).

(** [safe_get_column(row, column_name)] without a column mapping. *)
Definition safe_get_column (row : contact) (column_name : string) : text :=
  lower (contact_get row column_name).

Definition comma : ascii := ascii_of_N 44.
Definition at_sign : ascii := ascii_of_N 64.

(** [^(info|contact|admin|support|sales)] *)
Definition email_prefix_re : regex :=
  Bol >> Alt (Lit "info") (Alt (Lit "contact") (Alt (Lit "admin")
               (Alt (Lit "support") (Lit "sales")))).

Definition get_person_key (row : contact) : PersonKey :=
  let last := safe_get_column row "Last Name" in
  let first := safe_get_column row "First Name" in
  let mail := safe_get_column row "Email Address" in
  let '(first, last) :=
    if truthy first && contains [comma] first then
      match split_on comma first with
      | [p0; p1] => (strip p1, strip p0)
      | _ => (first, last)
      end
    else if truthy first && contains [blank] first then
      match split first with
      | p0 :: p1 :: rest =>
          if contains (lower p1) (lower last) then (p0, last)
          else (p0, join " " (p1 :: rest) ++ " " ++ last)
      | _ => (first, last)
      end
    else (first, last) in
  let mail_name :=
    if truthy mail && contains [at_sign] mail then
      let n := lower (default [] (head (split_on at_sign mail))) in
      let n := re_sub email_prefix_re "" n in
      let n := re_sub (Plus is_digit) "" n in
      re_sub (Cls (fun c => negb (is_word c || is_space c))) "" n
    else [] in
  {| last_name := normalize_person_text last;
     first_name := normalize_person_text first;
     job_title := normalize_job_text (safe_get_column row "Position");
     linkedin := strip (lower (safe_get_column row "URL"));
     email_name := mail_name |}.

Record PersonMatch := {
  input_contact : contact;
  target_contact : contact;
  score : Z
}.

Section PersonMatcher.
Context `{SimilarityProvider}.

(** The best of the three scorers. *)
Definition best_of_three (a b : fuzz_arg) : Z :=
  max3 (token_sort_ratio a b) (token_set_ratio a b) (partial_ratio a b).

Definition input_nicknames (input_first : text) : list text :=
  if text_eqb input_first "william" then texts ["will"; "bill"; "billy"]%string
  else [input_first].

Definition target_nicknames (target_first : text) : list text :=
  if text_eqb target_first "robert" then texts ["rob"; "bob"; "bobby"]%string
  else [target_first].

(** The nickname loops: every combination of "nickname + last name". *)
Definition nickname_score (input_c target_c : contact) (name_score : Z) : Z :=
  let input_first := lower (contact_get input_c "first_name") in
  let target_first := lower (contact_get target_c "first_name") in
  foldl (fun name_score i_nick =>
           foldl (fun name_score t_nick =>
                    let nick_key := i_nick ++ " " ++ contact_get input_c "last_name" in
                    let target_nick_key := t_nick ++ " " ++ contact_get target_c "last_name" in
                    Z.max name_score
                      (best_of_three (FStr nick_key) (FStr target_nick_key)))
             name_score (target_nicknames target_first))
    name_score (input_nicknames input_first).

(** The name score of a pair whose companies match: the direct score of
    the two keys, the nickname scores when that is below the threshold,
    and the boost of an exact e-mail match. *)
Definition pair_name_score (thresholds : Thresholds) (input_c target_c : contact) : Z :=
  let name_score :=
    best_of_three (FKey (get_person_key input_c)) (FKey (get_person_key target_c)) in
  let name_score :=
    if name_score <? person_name thresholds
    then nickname_score input_c target_c name_score
    else name_score in
  let input_email := contact_get input_c "email" in
  let target_email := contact_get target_c "email" in
  if truthy input_email && truthy target_email then
    let email_score := ratio (FStr (lower input_email)) (FStr (lower target_email)) in
    if email_score =? 100 then Z.max name_score (person_name thresholds + 10)
    else name_score
  else name_score.

(** Whether the inner loop goes past the company test for a pair. *)
Definition companies_match (thresholds : Thresholds) (input_c target_c : contact) : bool :=
  let input_company := normalize_company_name (Str (contact_get input_c "company")) in
  let target_company := normalize_company_name (Str (contact_get target_c "company")) in
  truthy input_company && truthy target_company &&
  (company_name thresholds <=?
     best_of_three (FStr input_company) (FStr target_company)).

(** One turn of the loop over the target contacts; the state is
    [(best_match, best_score)]. *)
Definition person_step (thresholds : Thresholds) (input_c : contact)
    (st : option PersonMatch * Z) (target_c : contact) : option PersonMatch * Z :=
  if companies_match thresholds input_c target_c then
    let name_score := pair_name_score thresholds input_c target_c in
    if (person_name thresholds <=? name_score) && (snd st <? name_score) then
      (Some {| input_contact := input_c; target_contact := target_c;
               score := name_score |}, name_score)
    else st
  else st.

Definition best_person_match (thresholds : Thresholds) (input_c : contact)
    (target_contacts : list contact) : option PersonMatch :=
  fst (foldl (person_step thresholds input_c) (None, 0) target_contacts).

Definition find_person_matches (input_contacts target_contacts : list contact)
    (thresholds : Thresholds) : list PersonMatch :=
  omap (fun input_c => best_person_match thresholds input_c target_contacts)
    input_contacts.

End PersonMatcher.

(** *** The aggregator: [find_matches] (the definition in force, the
    second of the module) *)

(** The payload of a roster contact: the mapped fields and the flag
    [has_person_match]. *)
Record ContactData := {
  fields : gmap string text;
  has_person_match : bool
}.

(** A roster entry: [(target_norm, company_name, contacts)]. *)
Record RosterEntry := {
  norm_name : text;
  display_name : text;
  contacts : list ContactData
}.

Definition company_cols : list string :=
  ["Company"; "Company Name"; "Company Division Name"]%string.

(** The loop over [company_cols] with its [break]: the first column the
    frame has whose cell is not NaN, as a string. *)
Fixpoint first_company (cols : list string) (df : DataFrame) (row : Series)
  : option text :=
  match cols with
  | [] => None
  | col :: cols' =>
      match item row col with
      | Some v =>
          if bool_decide (col ∈ columns df) && negb (isna v) then Some (py_str v)
          else first_company cols' df row
      | None => first_company cols' df row
      end
  end.

(** The normalised company of a row, when the row has a usable company
    and it does not normalise to the empty string. *)
Definition usable_company (df : DataFrame) (row : Series) : option (text * text) :=
  match first_company company_cols df row with
  | Some company =>
      if truthy company then
        let norm := normalize_company_name (Str company) in
        if truthy norm then Some (company, norm) else None
      else None
  | None => None
  end.

Definition field_mapping : list (string * string) :=
  [("First Name", "First Name"); ("Last Name", "Last Name");
   ("Email Address", "Email Address"); ("Position", "Job Title");
   ("Company", "Company"); ("URL", "LinkedIn");
   ("Connected On", "Connected On")]%string.

(** The copy of the source fields into the standard schema. *)
Definition map_fields (source_row : Series) : gmap string text :=
  foldl (fun data st =>
           match item source_row (fst st) with
           | Some value =>
               <[snd st := if isna value then [] else strip (py_str value)]> data
           | None => data
           end)
    ∅ field_mapping.

(** [f"{row.get('First Name', '')} {row.get('Last Name', '')}"] *)
Definition full_name (row : Series) : text :=
  py_str (series_get row "First Name") ++ " " ++ py_str (series_get row "Last Name").

(** [str(row[label]).lower().strip() if not pd.isna(row[label]) else ''] *)
Definition email_of (row : Series) : text :=
  match item row "Email Address" with
  | Some (Str s) => strip (lower s)
  | _ => []
  end.

(** [normalize_job_title(str(row[label])) if not pd.isna(row[label]) else ''] *)
Definition title_of (row : Series) (label : string) : text :=
  match item row label with
  | Some (Str s) => normalize_job_title (Str s)
  | _ => []
  end.

(** [f"{c.get('First Name', '')}-{c.get('Last Name', '')}-{c.get('Email Address', '')}"] *)
Definition contact_key (data : gmap string text) : text :=
  default [] (data !! "First Name"%string) ++ "-" ++
  default [] (data !! "Last Name"%string) ++ "-" ++
  default [] (data !! "Email Address"%string).

Section Aggregator.
Context `{SimilarityProvider}.

Definition name_signal (thresholds : Thresholds) (source_row target_row : Series) : bool :=
  let source_name := normalize_person_name (Str (full_name source_row)) in
  let target_name := normalize_person_name (Str (full_name target_row)) in
  truthy source_name && truthy target_name &&
  (person_name thresholds <=? token_sort_ratio (FStr source_name) (FStr target_name)).

Definition email_signal (source_row target_row : Series) : bool :=
  has_label source_row "Email Address" && has_label target_row "Email Address" &&
  let source_email := email_of source_row in
  let target_email := email_of target_row in
  truthy source_email && truthy target_email && text_eqb source_email target_email.

Definition title_signal (thresholds : Thresholds) (source_row target_row : Series) : bool :=
  has_label source_row "Position" && has_label target_row "Job Title" &&
  let source_title := title_of source_row "Position" in
  let target_title := title_of target_row "Job Title" in
  truthy source_title && truthy target_title &&
  (title thresholds <=? token_sort_ratio (FStr source_title) (FStr target_title)).

(** The three checks, each tried only while [person_match] is false. *)
Definition person_match (thresholds : Thresholds) (source_row target_row : Series) : bool :=
  name_signal thresholds source_row target_row
  || email_signal source_row target_row
  || title_signal thresholds source_row target_row.

(** One turn of the loop over the source rows for a target row. *)
Definition source_step (thresholds : Thresholds) (input_contacts : DataFrame)
    (target_row : Series) (target_norm : text)
    (contact_dict : list (text * ContactData)) (source_row : Series)
  : list (text * ContactData) :=
  match usable_company input_contacts source_row with
  | Some (_, source_norm) =>
      if company_name thresholds <=?
           token_sort_ratio (FStr target_norm) (FStr source_norm)
      then
        let data := map_fields source_row in
        dict_set (contact_key data)
          {| fields := data;
             has_person_match := person_match thresholds source_row target_row |}
          contact_dict
      else contact_dict
  | None => contact_dict
  end.

Definition entry_key (c : ContactData) : text := contact_key (fields c).

Definition longer_name (target_company best_company_name : text) : text :=
  if (length best_company_name <? length target_company)%nat then target_company
  else best_company_name.

(** One turn of the loop over the target rows. *)
Definition target_step (thresholds : Thresholds) (input_contacts target_contacts : DataFrame)
    (company_matches : list (text * RosterEntry)) (target_row : Series)
  : list (text * RosterEntry) :=
  match usable_company target_contacts target_row with
  | Some (target_company, target_norm) =>
      let contact_dict :=
        foldl (source_step thresholds input_contacts target_row target_norm)
          [] (iterrows input_contacts) in
      match contact_dict with
      | [] => company_matches
      | _ =>
          match dict_get target_norm company_matches with
          | Some existing =>
              let existing_dict :=
                foldl (fun d c => dict_set (entry_key c) c d) [] (contacts existing) in
              let existing_dict := dict_update existing_dict contact_dict in
              dict_set target_norm
                {| norm_name := target_norm;
                   display_name := longer_name target_company (display_name existing);
                   contacts := dict_values existing_dict |}
                company_matches
          | None =>
              dict_set target_norm
                {| norm_name := target_norm;
                   display_name := target_company;
                   contacts := dict_values contact_dict |}
                company_matches
          end
      end
  | None => company_matches
  end.

(** [sorted(entries, key=lambda x: x[1].lower())]: a stable sort. *)
Fixpoint insert_by_name (e : RosterEntry) (l : list RosterEntry) : list RosterEntry :=
  match l with
  | [] => [e]
  | x :: l' =>
      if text_ltb (lower (display_name x)) (lower (display_name e))
      then x :: insert_by_name e l'
      else e :: l
  end.

Definition sorted_by_name (l : list RosterEntry) : list RosterEntry :=
  foldr insert_by_name [] l.

(** [find_matches(input_file, target_file, thresholds)]; a file that
    cannot be read is [None]. *)
Definition find_matches (input_file target_file : option DataFrame)
    (thresholds : Thresholds) : list RosterEntry :=
  match target_file, input_file with
  | Some target_contacts, Some input_contacts =>
      sorted_by_name
        (dict_values
           (foldl (target_step thresholds input_contacts target_contacts)
              [] (iterrows target_contacts)))
  | _, _ => []
  end.

End Aggregator.

(** *** Helpers of the module outside the engine *)

Definition company_keywords : list text :=
  texts ["company"; "organization"; "employer"; "business"; "firm"]%string.

(** [detect_company_column(columns)], the definition in force (the second
    of the module): the two loops return the first lower-cased column that
    contains the first keyword some column contains. *)
Fixpoint detect_in (columns : list text) (keywords : list text) : option text :=
  match keywords with
  | [] => None
  | keyword :: keywords' =>
      match find (contains keyword) columns with
      | Some col => Some col
      | None => detect_in columns keywords'
      end
  end.

Definition detect_company_column (columns : list text) : option text :=
  detect_in (map lower columns) company_keywords.

(** The loop over [company_cols] of [find_company_matches], with its
    [break]: the first cell of the row under one of the labels that is
    not NaN. *)
Fixpoint contact_company (cols : list string) (contact : Series) : option cell :=
  match cols with
  | [] => None
  | col :: cols' =>
      match item contact col with
      | Some v => if negb (isna v) then Some v else contact_company cols' contact
      | None => contact_company cols' contact
      end
  end.

Section CompanyContacts.
Context `{SimilarityProvider}.

(** [find_company_matches(normalized_name, input_contacts, thresholds)] *)
Definition find_company_matches (normalized_name : text) (input_contacts : DataFrame)
    (thresholds : Thresholds) : list Series :=
  foldl (fun matches contact =>
           match contact_company company_cols contact with
           | Some (Str company) =>
               if truthy company then
                 let contact_norm := normalize_company_name (Str company) in
                 if truthy contact_norm then
                   if company_name thresholds <=?
                        token_sort_ratio (FStr normalized_name) (FStr contact_norm)
                   then matches ++ [contact]
                   else matches
                 else matches
               else matches
           | _ => matches
           end)
    [] (iterrows input_contacts).

End CompanyContacts.

(** [print_box]: the [while] loop that cuts a line into the lines of the
    box.  The loop has no bound of its own; [fuel] bounds the number of
    turns, and [None] is a loop that has not ended within them. *)
Fixpoint wrap_line (fuel : nat) (width : Z) (line : text) : option (list text) :=
  match fuel with
  | O => None
  | S fuel' =>
      if width - 4 <? Z.of_nat (length line) then
        let split_point := rfind blank (slice_to (width - 4) line) in
        let split_point := if split_point =? -1 then width - 4 else split_point in
        match wrap_line fuel' width (strip (slice_from split_point line)) with
        | Some lines => Some (slice_to split_point line :: lines)
        | None => None
        end
      else Some [line]
  end.

(** The lines [clean_content] of the box for the lines [content]. *)
Fixpoint clean_content (fuel : nat) (width : Z) (content : list text)
  : option (list text) :=
  match content with
  | [] => Some []
  | line :: content' =>
      match wrap_line fuel width line, clean_content fuel width content' with
      | Some lines, Some rest => Some (lines ++ rest)
      | _, _ => None
      end
  end.

End Leadmatcher.

(* ================================================================== *)
(** ** app.py *)
(* ================================================================== *)

Module App.

Definition suffixes : list text :=
  texts [" inc"; " inc."; " incorporated"; " llc"; " ltd"; " limited";
         " corp"; " corp."; " corporation"]%string.

(** [name[:-len(suffix)]] for a suffix that is not empty. *)
Definition drop_end (n : nat) (s : text) : text := take (length s - n) s.

Definition normalize_company_text (name : text) : text :=
  let name := lower name in
  let name :=
    foldl (fun name suffix =>
             if ends_with suffix name then drop_end (length suffix) name else name)
      name suffixes in
  let name := re_sub (Cls (fun c => negb (is_word c || is_space c))) "" name in
  strip (re_sub (Plus is_space) " " name).

(** [isinstance(name, str)] fails for NaN. *)
Definition normalize_company_name (name : cell) : text :=
  match name with
  | Str s => normalize_company_text s
  | NaN => []
  end.

Record CompanyMatch := {
  ideal_idx : nat;
  source_idx : nat;
  ideal_company : cell;
  source_company : cell;
  score : Z
}.

(** [next((col for col in df.columns if col in ["Company", "Company Name"]), None)] *)
Definition company_col (df : DataFrame) : option string :=
  head (filter (fun col => col ∈ ["Company"; "Company Name"]%string) (columns df)).

(** [enumerate(l)] *)
Fixpoint enumerate_from {A : Type} (n : nat) (l : list A) : list (nat * A) :=
  match l with
  | [] => []
  | x :: l' => (n, x) :: enumerate_from (S n) l'
  end.

Definition enumerate {A : Type} (l : list A) : list (nat * A) := enumerate_from 0 l.

Section CompanyMatcher.
Context `{SimilarityProvider}.

(** One turn of the loop over the source companies.  Unpacking the
    result of [extractOne] raises [TypeError] when it is [None]. *)
Definition source_step (company_threshold : Z) (ideal_cells source_cells : list cell)
    (ideal_companies : list (nat * text))
    (matches : list CompanyMatch) (src : nat * text) : result (list CompanyMatch) :=
  let '(source_idx, source_company) := src in
  if negb (truthy source_company) then Ok matches
  else
    match extractOne source_company (map snd ideal_companies) with
    | None => Raise TypeError
    | Some (best_match, score) =>
        if company_threshold <=? score then
          match head (filter (fun kv => snd kv = best_match) ideal_companies) with
          | Some (ideal_idx, _) =>
              Ok (matches ++
                  [{| ideal_idx := ideal_idx;
                      source_idx := source_idx;
                      ideal_company := default NaN (ideal_cells !! ideal_idx);
                      source_company := default NaN (source_cells !! source_idx);
                      score := score |}])
          | None => Raise IndexError
          end
        else Ok matches
    end.

Fixpoint source_loop (company_threshold : Z) (ideal_cells source_cells : list cell)
    (ideal_companies : list (nat * text))
    (matches : list CompanyMatch) (srcs : list (nat * text)) : result (list CompanyMatch) :=
  match srcs with
  | [] => Ok matches
  | src :: srcs' =>
      match source_step company_threshold ideal_cells source_cells ideal_companies matches src with
      | Ok matches' =>
          source_loop company_threshold ideal_cells source_cells ideal_companies matches' srcs'
      | Raise e => Raise e
      end
  end.

(** [match_companies(ideal_df, source_df, company_threshold, column_mapping)];
    the column mapping is only displayed. *)
Definition match_companies (ideal_df source_df : DataFrame) (company_threshold : Z)
  : result (list CompanyMatch) :=
  match company_col source_df with
  | None => Ok []
  | Some source_company_col =>
      match company_col ideal_df with
      | None => Ok []
      | Some ideal_company_col =>
          let ideal_cells := column ideal_df ideal_company_col in
          let source_cells := column source_df source_company_col in
          let ideal_companies := enumerate (map normalize_company_name ideal_cells) in
          let source_companies := enumerate (map normalize_company_name source_cells) in
          source_loop company_threshold ideal_cells source_cells ideal_companies
            [] source_companies
      end
  end.

End CompanyMatcher.

End App.

(* ================================================================== *)
(** ** A concrete provider and sample data

    [exact_provider] scores 100 for identical objects and 0 otherwise; it
    is used to run the engine on concrete data.  The sample data are
    chosen so that [fuzzywuzzy] gives the same scores on them: identical
    strings, and strings without a character in common. *)
(* ================================================================== *)

Global Instance PersonKey_eq_dec : EqDecision PersonKey.
Proof. solve_decision. Defined.

Global Instance fuzz_arg_eq_dec : EqDecision fuzz_arg.
Proof. solve_decision. Defined.

Definition exact_score (a b : fuzz_arg) : Z :=
  if bool_decide (a = b) then 100 else 0.

Definition exact_provider : SimilarityProvider :=
  {| ratio := exact_score;
     token_sort_ratio := exact_score;
     token_set_ratio := exact_score;
     partial_ratio := exact_score |}.

Definition default_thresholds : Thresholds :=
  {| company_name := 85; person_name := 85; email := 100;
     title := 70; department := 70 |}.

Definition frame (cols : list string) (rs : list (list cell)) : DataFrame :=
  {| columns := cols; rows := rs |}.

(* ================================================================== *)
(** ** Vocabulary of the properties

    Predicates and sample data used to state and to prove the results
    below. *)
(* ================================================================== *)

(** A plain character: a lower-case ASCII letter or a digit. *)
Definition is_plain (c : ascii) : bool := in_range 97 122 c || is_digit c.

Definition space_or_amp (c : ascii) : bool :=
  is_space c || bool_decide (c = Leadmatcher.amp).

(** Every character, for checks that range over the alphabet. *)
Definition alphabet : list ascii := map ascii_of_nat (seq 0 256).

(** [p] holds only of characters of [X]. *)
Definition within (p X : ascii -> bool) : bool :=
  forallb (fun c => implb (p c) (X c)) alphabet.

(** A text free of the characters of [X]. *)
Definition free_of (X : ascii -> bool) (s : text) : Prop :=
  Forall (fun c => X c = false) s.

(** [kw] occurs in [s]. *)
Definition occurs (kw s : text) : Prop := exists a b, s = a ++ kw ++ b.

(** [needs X r]: every match of [r] has a character of [X]. *)
Fixpoint needs (X : ascii -> bool) (r : regex) : bool :=
  match r with
  | Lit l => existsb X l
  | Cls p | Plus p => within p X
  | Star _ | Opt _ | Bol | Eol | WordB => false
  | Alt r1 r2 => needs X r1 && needs X r2
  | Seq r1 r2 => needs X r1 || needs X r2
  end.

(** [only X r]: every match of [r] is made of characters of [X]. *)
Fixpoint only (X : ascii -> bool) (r : regex) : bool :=
  match r with
  | Lit l => forallb X l
  | Cls p | Plus p | Star p => within p X
  | Opt r1 => only X r1
  | Alt r1 r2 | Seq r1 r2 => only X r1 && only X r2
  | Bol | Eol | WordB => true
  end.

(** The part a cell contributes to the key of a roster contact: the cell
    as [map_fields] stores it, or the empty string without the column. *)
Definition key_part (row : Series) (label : string) : text :=
  match item row label with
  | Some v => if isna v then [] else strip (py_str v)
  | None => []
  end.

Section PropertyVocabulary.
Context `{F : SimilarityProvider}.
Import Leadmatcher.

(** The state of the loop over the targets: the best score is the score
    of the best match, and 0 while there is none. *)
Definition best_state_ok (st : option PersonMatch * Z) : Prop :=
  match fst st with
  | Some m => score m = snd st
  | None => snd st = 0
  end.

(** A roster contact of the company [target_norm] comes from a source
    row whose company reaches the company threshold against it. *)
Definition from_source (thresholds : Thresholds) (input_contacts : DataFrame)
    (target_norm : text) (c : ContactData) : Prop :=
  exists source_row company norm,
    source_row ∈ iterrows input_contacts /\
    usable_company input_contacts source_row = Some (company, norm) /\
    company_name thresholds <= token_sort_ratio (FStr target_norm) (FStr norm) /\
    fields c = map_fields source_row.

Definition keyed_from (thresholds : Thresholds) (input_contacts : DataFrame)
    (target_norm : text) (kv : text * ContactData) : Prop :=
  fst kv = entry_key (snd kv) /\
  from_source thresholds input_contacts target_norm (snd kv).

(** What holds of every entry of [company_matches]. *)
Definition entry_ok (thresholds : Thresholds) (input_contacts : DataFrame)
    (kv : text * RosterEntry) : Prop :=
  fst kv = norm_name (snd kv) /\
  contacts (snd kv) <> [] /\
  NoDup (map entry_key (contacts (snd kv))) /\
  Forall (from_source thresholds input_contacts (norm_name (snd kv)))
    (contacts (snd kv)).

(** The three outputs of the engine for one set of thresholds. *)
Definition engine_outputs
    (input_file target_file : option DataFrame)
    (input_contacts target_contacts : list contact)
    (ideal_df source_df : DataFrame) (thresholds : Thresholds) :=
  (find_matches input_file target_file thresholds,
   find_person_matches input_contacts target_contacts thresholds,
   App.match_companies ideal_df source_df (company_name thresholds)).

(** Two sets of thresholds that agree on the company, the person and the
    title threshold. *)
Definition same_read_thresholds (t1 t2 : Thresholds) : Prop :=
  company_name t1 = company_name t2 /\ person_name t1 = person_name t2 /\
  title t1 = title t2.

End PropertyVocabulary.

Section CompanyVocabulary.
Context `{F : SimilarityProvider}.
Import App.

(** What [source_step] records for a source row: the row index, a name
    that does not normalise to the empty string, and the outcome of
    [extractOne] on the normalised name. *)
Definition recorded (company_threshold : Z) (ideal_cells source_cells : list cell)
    (ideal_companies : list (nat * text)) (src : nat * text) (m : CompanyMatch) : Prop :=
  source_idx m = fst src /\ snd src <> [] /\
  source_company m = default NaN (source_cells !! fst src) /\
  ideal_company m = default NaN (ideal_cells !! ideal_idx m) /\
  company_threshold <= score m /\
  exists best x,
    extractOne (snd src) (map snd ideal_companies) = Some (best, score m) /\
    head (filter (fun kv => snd kv = best) ideal_companies) = Some (ideal_idx m, x).

End CompanyVocabulary.

(** *** Sample data *)

Definition thresholds_with (c p t : Z) : Thresholds :=
  {| company_name := c; person_name := p; email := 100; title := t;
     department := 70 |}.

Definition make_contact (kvs : list (string * string)) : Leadmatcher.contact :=
  list_to_map (map (fun kv => (fst kv, list_ascii_of_string (snd kv))) kvs).

Definition bill_smith : Leadmatcher.contact :=
  make_contact [("first_name", "Bill"); ("last_name", "Smith");
                ("First Name", "Bill"); ("Last Name", "Smith");
                ("company", "Acme")]%string.

Definition william_smith : Leadmatcher.contact :=
  make_contact [("first_name", "William"); ("last_name", "Smith");
                ("First Name", "William"); ("Last Name", "Smith");
                ("company", "Acme")]%string.

Definition jane_input : Leadmatcher.contact :=
  make_contact [("first_name", "Jane"); ("last_name", "Doe");
                ("First Name", "Jane"); ("Last Name", "Doe");
                ("email", "Jane.Doe@Acme.com"); ("company", "Acme")]%string.

Definition jd_target : Leadmatcher.contact :=
  make_contact [("first_name", "Janet"); ("last_name", "Dorset");
                ("First Name", "Janet"); ("Last Name", "Dorset");
                ("email", "jane.doe@acme.com"); ("company", "Acme")]%string.

Definition one_column (rs : list cell) : DataFrame :=
  {| columns := ["Company"]%string; rows := map (fun v => [v]) rs |}.

Definition acme_target : DataFrame := one_column [Str "Acme"].
Definition zzz_source : DataFrame := one_column [Str "Zzz"].
Definition acme_sources : DataFrame := one_column [Str "Acme Inc"; Str "ACME"].

Definition jane_rows : DataFrame :=
  frame ["Company"; "First Name"; "Last Name"; "Email Address"]%string
    [[Str "Acme"; Str "Jane"; Str "Doe"; Str "jane@acme.com"];
     [Str "Acme"; Str "JANE"; Str "DOE"; Str "JANE@ACME.COM"]].

Definition jane_row (first : string) : Series :=
  label_row ["Company"; "First Name"; "Last Name"; "Email Address"]%string
    [Str "Acme"; Str first; Str "Doe"; Str "jane@acme.com"].

Definition named (first : string) : DataFrame :=
  frame ["Company"; "First Name"]%string [[Str "Acme"; Str first]].

Definition source_titled : DataFrame :=
  frame ["Company"; "Position"]%string [[Str "Acme"; Str "cook"]].

Definition target_titled : DataFrame :=
  frame ["Company"; "Job Title"]%string [[Str "Acme"; Str "dean"]].

(** *** Vocabulary of the further properties *)

(** The length of the run of characters of [p] at the start of [s]. *)
Fixpoint run (p : ascii -> bool) (s : text) : nat :=
  match s with
  | c :: s' => if p c then S (run p s') else O
  | [] => O
  end.

(** [s] with every run of blanks replaced by one space; [in_run] tells
    that the character before [s] was a blank. *)
Fixpoint squeeze (in_run : bool) (s : text) : text :=
  match s with
  | c :: s' =>
      if is_space c then
        if in_run then squeeze true s' else Leadmatcher.blank :: squeeze true s'
      else c :: squeeze false s'
  | [] => []
  end.

(** The characters [normalize_company_name] lets through: what
    [[^\w\s\&\.]] does not remove, in lower case. *)
Definition company_char (c : ascii) : bool :=
  negb (Leadmatcher.company_junk c) && negb (is_upper c).

(** The same for [normalize_person_name]. *)
Definition person_char (c : ascii) : bool :=
  negb (Leadmatcher.person_junk c) && negb (is_upper c).

(** A blank is the space or nothing else: the blanks left by
    [re.sub(r'\s+', ' ', s)]. *)
Definition blanks_are_spaces (s : text) : Prop :=
  Forall (fun c => is_space c = true -> c = Leadmatcher.blank) s.

Section PersonVocabulary.
Context `{F : SimilarityProvider}.
Import Leadmatcher.

(** A pair the loop of [find_person_matches] can record: the companies
    match, and the name score reaches the person threshold and is above
    the initial best score, 0. *)
Definition acceptable (thresholds : Thresholds) (input_c target_c : contact) : Prop :=
  companies_match thresholds input_c target_c = true /\
  person_name thresholds <= pair_name_score thresholds input_c target_c /\
  0 < pair_name_score thresholds input_c target_c.

(** The state of the loop over the targets after the targets [seen]. *)
Definition person_loop_inv (thresholds : Thresholds) (input_c : contact)
    (seen : list contact) (st : option PersonMatch * Z) : Prop :=
  match fst st with
  | None => snd st = 0 /\ forall t, In t seen -> ~ acceptable thresholds input_c t
  | Some m =>
      snd st = score m /\ input_contact m = input_c /\
      acceptable thresholds input_c (target_contact m) /\
      score m = pair_name_score thresholds input_c (target_contact m) /\
      exists before after,
        seen = before ++ target_contact m :: after /\
        (forall t, In t before -> companies_match thresholds input_c t = true ->
           pair_name_score thresholds input_c t < score m) /\
        (forall t, In t after -> companies_match thresholds input_c t = true ->
           pair_name_score thresholds input_c t <= score m)
  end.

End PersonVocabulary.

(** The cells of the company column of a frame, as [match_companies]
    chooses it; nothing without such a column. *)
Definition company_cells (df : DataFrame) : list cell :=
  match App.company_col df with
  | Some col => column df col
  | None => []
  end.

Section ExtractVocabulary.
Context `{F : SimilarityProvider}.

(** The state of the scan of [extractOne] after the choices [seen]: the
    best choice is the first of those with the highest score. *)
Definition extract_inv (query : text) (seen : list text) (st : option (text * Z)) : Prop :=
  match st with
  | None => forall c, In c seen -> token_sort_ratio (FStr query) (FStr c) < 0
  | Some bs =>
      snd bs = token_sort_ratio (FStr query) (FStr (fst bs)) /\ 0 <= snd bs /\
      exists before after,
        seen = before ++ fst bs :: after /\
        (forall c, In c before -> token_sort_ratio (FStr query) (FStr c) < snd bs) /\
        (forall c, In c after -> token_sort_ratio (FStr query) (FStr c) <= snd bs)
  end.

End ExtractVocabulary.

(** The order of the roster: by display name, without regard to case. *)
Definition by_display_name (a b : Leadmatcher.RosterEntry) : Prop :=
  text_ltb (lower (Leadmatcher.display_name b)) (lower (Leadmatcher.display_name a))
    = false.

Section RosterVocabulary.
Context `{F : SimilarityProvider}.
Import Leadmatcher.

(** A source row with a usable company reaches the company threshold
    against [target_norm]. *)
Definition reached (thresholds : Thresholds) (input_contacts : DataFrame)
    (target_norm : text) : Prop :=
  exists source_row company norm,
    source_row ∈ iterrows input_contacts /\
    usable_company input_contacts source_row = Some (company, norm) /\
    company_name thresholds <= token_sort_ratio (FStr target_norm) (FStr norm).

(** The display names in [company_matches] after the target rows [seen]:
    the name of an entry is the longest company of the rows seen with
    its normalised name, and a normalised name seen without an entry is
    not reached. *)
Definition display_inv (thresholds : Thresholds) (input_contacts target_contacts : DataFrame)
    (seen : list Series) (company_matches : list (text * RosterEntry)) : Prop :=
  forall target_norm,
    match dict_get target_norm company_matches with
    | Some e =>
        (exists row, In row seen /\
           usable_company target_contacts row = Some (display_name e, target_norm)) /\
        (forall row company, In row seen ->
           usable_company target_contacts row = Some (company, target_norm) ->
           (length company <= length (display_name e))%nat)
    | None =>
        forall row company, In row seen ->
          usable_company target_contacts row = Some (company, target_norm) ->
          ~ reached thresholds input_contacts target_norm
    end.

End RosterVocabulary.

Section ContactVocabulary.
Context `{F : SimilarityProvider}.
Import Leadmatcher.

(** Whether a source row has a usable company that reaches the company
    threshold against [target_norm]. *)
Definition reaches (thresholds : Thresholds) (input_contacts : DataFrame)
    (target_norm : text) (source_row : Series) : bool :=
  match usable_company input_contacts source_row with
  | Some (_, norm) =>
      company_name thresholds <=? token_sort_ratio (FStr target_norm) (FStr norm)
  | None => false
  end.

End ContactVocabulary.

Section LastRowVocabulary.
Context `{F : SimilarityProvider}.
Import Leadmatcher.

(** The dictionary [contact_dict] that the loop over the source rows
    builds for a target row. *)
Definition contact_dict_of (thresholds : Thresholds) (input_contacts : DataFrame)
    (target_row : Series) (target_norm : text) : list (text * ContactData) :=
  foldl (source_step thresholds input_contacts target_row target_norm)
    [] (iterrows input_contacts).

(** The contacts in [company_matches] after the target rows [seen]: the
    contacts of an entry are those of the last row seen with its
    normalised name. *)
Definition last_row_inv (thresholds : Thresholds) (input_contacts target_contacts : DataFrame)
    (seen : list Series) (company_matches : list (text * RosterEntry)) : Prop :=
  forall target_norm e,
    dict_get target_norm company_matches = Some e ->
    exists before target_row after company,
      seen = before ++ target_row :: after /\
      usable_company target_contacts target_row = Some (company, target_norm) /\
      (forall row c, In row after ->
         usable_company target_contacts row <> Some (c, target_norm)) /\
      contacts e =
        dict_values (contact_dict_of thresholds input_contacts target_row target_norm).

End LastRowVocabulary.

(** Two target contacts of one company, and a source contact who is the
    first of them. *)
Definition two_targets : DataFrame :=
  frame ["Company"; "First Name"; "Last Name"]%string
    [[Str "Acme"; Str "Jane"; Str "Doe"];
     [Str "Acme"; Str "Kurt"; Str "Link"]].

Definition jane_source : DataFrame :=
  frame ["Company"; "First Name"; "Last Name"]%string
    [[Str "Acme"; Str "Jane"; Str "Doe"]].

(** *** Stable names

    The names that a second normalisation leaves as they are. *)

Definition is_amp (c : ascii) : bool := bool_decide (c = Leadmatcher.amp).

Definition is_dot (c : ascii) : bool := bool_decide (c = Leadmatcher.dot).

(** [name == ' '.join(name.split())]: words separated by single spaces,
    no blank at the ends. *)
Definition single_spaced (name : text) : bool := text_eqb (join " " (split name)) name.

(** Neither end of [s] is a character of [p]. *)
Definition ends_kept (p : ascii -> bool) (s : text) : bool :=
  match s with
  | [] => true
  | c :: _ => negb (p c) && negb (p (List.last s c))
  end.

(** The ampersands of a name are words of their own, and no two of them
    are neighbours. *)
Fixpoint amp_apart (ws : list text) : bool :=
  match ws with
  | [] => true
  | w :: ws' =>
      (if text_eqb w "&"
       then match ws' with a :: _ => negb (text_eqb a "&") | [] => true end
       else negb (existsb is_amp w))
      && amp_apart ws'
  end.

(** The blank that [re.sub(r'\s*\&\s*', ' & ', name)] puts before a
    leading "&" and after a trailing one. *)
Definition pad_before (ws : list text) : text :=
  match ws with
  | w :: _ => if text_eqb w "&" then " " else []
  | [] => []
  end.

Definition pad_after (ws : list text) : text :=
  match last ws with
  | Some w => if text_eqb w "&" then " " else []
  | None => []
  end.

(** A name after the ampersand pass. *)
Definition amp_padded (name : text) : text :=
  pad_before (split name) ++ name ++ pad_after (split name).

(** A name that the first statements of [normalize_company_name] leave
    as it is, up to a blank at an "&" at its ends: in lower case, without
    punctuation but "&" and ".", words separated by single blanks, the
    ampersands apart, no leading "the ". *)
Definition clean_stable (name : text) : bool :=
  text_eqb (lower name) name
  && forallb (fun c => negb (Leadmatcher.company_junk c)) name
  && single_spaced name
  && amp_apart (split name)
  && negb (starts_with "the " name).

(** A name without "qcr" that the later statements leave as it is: no
    division phrase before a blank, no word that is a key of the
    abbreviation table, no suffix word between a blank and a blank or
    the end (unless the name is educational), no run of dots and no dot
    at the ends. *)
Definition general_stable (name : text) : bool :=
  negb (contains "qcr" name)
  && forallb (fun div => negb (contains (div ++ " ") name)) Leadmatcher.divisions
  && forallb (fun w => negb (existsb (text_eqb w) (map fst Leadmatcher.abbrev_map)))
       (split name)
  && (Leadmatcher.is_edu name
      || forallb (fun suffix => negb (contains (" " ++ suffix ++ " ") name)
                                && negb (ends_with (" " ++ suffix) name))
           Leadmatcher.suffixes)
  && negb (contains ".." name)
  && ends_kept is_dot name.

(** A name with "qcr" that the QCR rewrite leaves as it is: without
    "holding", or "qcr holdings" followed at once by text that has no
    "qcr" and starts neither with a blank nor with "inc". *)
Definition qcr_stable (name : text) : bool :=
  contains "qcr" name
  && (negb (contains "holding" name)
      || (starts_with "qcr holdings" name
          && let rest := drop 12 name in
             negb (starts_with "inc" rest) && negb (contains "qcr" rest)
             && match rest with [] => true | c :: _ => negb (is_space c) end)).

(** The stable names of [leadmatcher5000.py]. *)
Definition lm_stable (name : text) : bool :=
  clean_stable name && (general_stable name || qcr_stable name).

(** One turn of the loop of [app.py] over its suffixes. *)
Definition drop_suffix (name suffix : text) : text :=
  if ends_with suffix name then App.drop_end (length suffix) name else name.

(** Whether a name ends in one of the suffixes of [app.py]. *)
Definition has_app_suffix (name : text) : bool :=
  existsb (fun suffix => ends_with suffix name) App.suffixes.

(** Company names as they are written. *)
Definition sample_names : list text :=
  texts ["Globex Inc"; "Johnson & Johnson"; "Bank of America"; "St. Jude Medical";
         "QCR Holdings"; "QCR Holdings Incorporated"; "The Home Depot";
         "Acme University Inc"; "Initech"; "Soylent Corp"; "Umbrella Corporation";
         "Stark Industries"; "AT&T"; "Dunder Mifflin"; "Wells Fargo & Company";
         "Procter & Gamble"; "U.S. Steel"; "Berkshire Hathaway"]%string.

(** Names that one pass leaves with a word the next pass rewrites. *)
Definition unsettled_names : list text :=
  texts ["Apple Inc."; "Intel Corp."; "Tiffany & Co."; "Wayne Enterprises, Inc.";
         "Acme Co. "; "Amazon.com, Inc."]%string.

(* ================================================================== *)
(** ** Facts about characters and text *)
(* ================================================================== *)

Ltac by_cases_on_char c :=
  destruct c as [[] [] [] [] [] [] [] []]; vm_compute; intros; congruence.

Lemma plain_not_space c : is_plain c = true -> is_space c = false.
Proof. by_cases_on_char c. Qed.

Lemma plain_not_junk c : is_plain c = true -> Leadmatcher.company_junk c = false.
Proof. by_cases_on_char c. Qed.

Lemma plain_not_amp c : is_plain c = true -> bool_decide (c = Leadmatcher.amp) = false.
Proof. by_cases_on_char c. Qed.

Lemma in_alphabet c : In c alphabet.
Proof.
  unfold alphabet. rewrite <- (ascii_nat_embedding c).
  apply in_map, in_seq. pose proof (nat_ascii_bounded c). lia.
Qed.

Lemma within_sound p X c : within p X = true -> p c = true -> X c = true.
Proof.
  unfold within. rewrite forallb_forall. intros Hall Hp.
  specialize (Hall c (in_alphabet c)). rewrite Hp in Hall. exact Hall.
Qed.

Lemma free_of_app_r X (w s : text) : free_of X (w ++ s) -> free_of X s.
Proof. unfold free_of. rewrite Forall_app. tauto. Qed.

Lemma starts_with_spec p s : starts_with p s = true <-> exists b, s = p ++ b.
Proof.
  revert s. induction p as [|c p IH]; intros s; simpl.
  - split; [eauto|done].
  - destruct s as [|d s].
    + split; [done|]. intros [b Hb]. discriminate.
    + rewrite andb_true_iff, bool_decide_eq_true, IH. split.
      * intros [-> [b ->]]. eauto.
      * intros [b Hb]. injection Hb as -> ->. eauto.
Qed.

Lemma contains_spec kw s : contains kw s = true <-> occurs kw s.
Proof.
  induction s as [|c s IH]; simpl.
  - rewrite orb_false_r, starts_with_spec. split.
    + intros [b Hb]. exists [], b. done.
    + intros [a [b Hab]]. destruct a; [|discriminate]. eauto.
  - rewrite orb_true_iff, starts_with_spec, IH. split.
    + intros [[b Hb]|[a [b Hab]]].
      * exists [], b. done.
      * exists (c :: a), b. by rewrite Hab.
    + intros [a [b Hab]]. destruct a as [|d a].
      * left. eauto.
      * right. injection Hab as -> ->. exists a, b. done.
Qed.

Lemma text_eqb_eq (k k' : text) : text_eqb k k' = true <-> k = k'.
Proof. unfold text_eqb. apply bool_decide_eq_true. Qed.

(* ================================================================== *)
(** ** Facts about the matcher *)
(* ================================================================== *)

Lemma lit_match_spec l : forall prev s q, In q (lit_match l prev s) -> s = l ++ snd q.
Proof.
  induction l as [|c l IH]; intros prev s q; simpl.
  - intros [<-|[]]. done.
  - destruct s as [|d s]; [done|]. case_bool_decide; [|done].
    intros Hq. subst d. f_equal. eauto.
Qed.

Lemma star_match_spec p : forall s prev q,
  In q (star_match p prev s) ->
  exists w, s = w ++ snd q /\ Forall (fun c => p c = true) w.
Proof.
  induction s as [|c s IH]; intros prev q; simpl.
  - intros [<-|[]]. exists []. done.
  - destruct (p c) eqn:Hc.
    + rewrite in_app_iff. intros [Hq|[<-|[]]].
      * destruct (IH _ _ Hq) as [w [-> Hw]]. exists (c :: w). split; [done|].
        by constructor.
      * exists []. done.
    + intros [<-|[]]. exists []. done.
Qed.

(** What the matcher leaves is the end of what it was given. *)
Lemma rmatch_suffix r : forall prev s q,
  In q (rmatch r prev s) -> exists w, s = w ++ snd q.
Proof.
  induction r as [l|p|p|p|r IH|r1 IH1 r2 IH2|r1 IH1 r2 IH2| | |];
    intros prev s q; simpl.
  - intros Hq. exists l. by eapply lit_match_spec.
  - destruct s as [|c s]; [done|]. destruct (p c); [|done].
    intros [<-|[]]. by exists [c].
  - intros Hq. destruct (star_match_spec _ _ _ _ Hq) as [w [? _]]. eauto.
  - destruct s as [|c s]; [done|]. destruct (p c); [|done].
    intros Hq. destruct (star_match_spec _ _ _ _ Hq) as [w [-> _]].
    by exists (c :: w).
  - rewrite in_app_iff. intros [Hq|[<-|[]]]; [eauto|by exists []].
  - rewrite in_app_iff. intros [Hq|Hq]; eauto.
  - rewrite in_flat_map. intros [q1 [Hq1 Hq]].
    destruct (IH1 _ _ _ Hq1) as [w1 ->]. destruct (IH2 _ _ _ Hq) as [w2 ->].
    exists (w1 ++ w2). by rewrite <- app_assoc.
  - destruct prev; [done|]. intros [<-|[]]. by exists [].
  - destruct s as [|c [|d s]]; [|case_bool_decide|]; try done;
      intros [<-|[]]; by exists [].
  - destruct (xorb _ _); [|done]. intros [<-|[]]. by exists [].
Qed.

Lemma flat_map_nil {A B} (f : A -> list B) l :
  (forall x, In x l -> f x = []) -> flat_map f l = [].
Proof.
  induction l as [|x l IH]; simpl; [done|]. intros Hf.
  rewrite Hf by auto. apply IH. auto.
Qed.

Lemma lit_match_free X l : existsb X l = true ->
  forall prev s, free_of X s -> lit_match l prev s = [].
Proof.
  induction l as [|c l IH]; simpl; [done|]. intros Hl prev s Hs.
  destruct s as [|d s]; [done|]. case_bool_decide as Hcd; [|done]. subst d.
  inversion Hs as [|? ? Hc Hs']; subst. rewrite Hc in Hl. simpl in Hl. eauto.
Qed.

Lemma needs_sound X r : needs X r = true ->
  forall prev s, free_of X s -> rmatch r prev s = [].
Proof.
  induction r as [l|p|p|p|r IH|r1 IH1 r2 IH2|r1 IH1 r2 IH2| | |];
    simpl; intros Hn prev s Hs; try done.
  - by eapply lit_match_free.
  - destruct s as [|c s]; [done|]. destruct (p c) eqn:Hc; [|done].
    inversion Hs as [|? ? HX _]; subst.
    by rewrite (within_sound _ _ _ Hn Hc) in HX.
  - destruct s as [|c s]; [done|]. destruct (p c) eqn:Hc; [|done].
    inversion Hs as [|? ? HX _]; subst.
    by rewrite (within_sound _ _ _ Hn Hc) in HX.
  - apply andb_true_iff in Hn as [H1 H2]. by rewrite IH1, IH2.
  - apply orb_true_iff in Hn as [H1|H2].
    + by rewrite IH1.
    + apply flat_map_nil. intros q Hq.
      destruct (rmatch_suffix _ _ _ _ Hq) as [w Hw]. apply IH2; [done|].
      rewrite Hw in Hs. by eapply free_of_app_r.
Qed.

(** A pattern that needs a character of [X] rewrites nothing in a text
    free of [X]. *)
Lemma sub_from_free X r repl : needs X r = true ->
  forall s prev, free_of X s -> sub_from r repl prev s 0 = s.
Proof.
  intros Hn. induction s as [|c s IH]; intros prev Hs; simpl;
    unfold match_at; rewrite (needs_sound X r Hn prev _ Hs); [done|].
  f_equal. apply IH. by inversion Hs.
Qed.

Lemma re_sub_free X r repl s : needs X r = true -> free_of X s -> re_sub r repl s = s.
Proof. intros. by eapply sub_from_free. Qed.

Lemma only_sound X r : only X r = true ->
  forall prev s q, In q (rmatch r prev s) ->
  exists w, s = w ++ snd q /\ Forall (fun c => X c = true) w.
Proof.
  induction r as [l|p|p|p|r IH|r1 IH1 r2 IH2|r1 IH1 r2 IH2| | |];
    simpl; intros Ho prev s q.
  - intros Hq. exists l. split; [by eapply lit_match_spec|].
    rewrite List.Forall_forall. by apply forallb_forall.
  - destruct s as [|c s]; [done|]. destruct (p c) eqn:Hc; [|done].
    intros [<-|[]]. exists [c]. split; [done|].
    repeat constructor. by eapply within_sound.
  - intros Hq. destruct (star_match_spec _ _ _ _ Hq) as [w [-> Hw]].
    exists w. split; [done|]. eapply Forall_impl; [exact Hw|].
    intros c Hc. by eapply within_sound.
  - destruct s as [|c s]; [done|]. destruct (p c) eqn:Hc; [|done].
    intros Hq. destruct (star_match_spec _ _ _ _ Hq) as [w [-> Hw]].
    exists (c :: w). split; [done|]. constructor; [by eapply within_sound|].
    eapply Forall_impl; [exact Hw|]. intros d Hd. by eapply within_sound.
  - rewrite in_app_iff. intros [Hq|[<-|[]]]; [eauto|]. by exists [].
  - apply andb_true_iff in Ho as [H1 H2].
    rewrite in_app_iff. intros [Hq|Hq]; eauto.
  - apply andb_true_iff in Ho as [H1 H2].
    rewrite in_flat_map. intros [q1 [Hq1 Hq]].
    destruct (IH1 H1 _ _ _ Hq1) as [w1 [-> Hw1]].
    destruct (IH2 H2 _ _ _ Hq) as [w2 [-> Hw2]].
    exists (w1 ++ w2). split; [by rewrite <- app_assoc|]. by apply Forall_app.
  - destruct prev; [done|]. intros [<-|[]]. by exists [].
  - destruct s as [|c [|d s]]; [|case_bool_decide|]; try done;
      intros [<-|[]]; by exists [].
  - destruct (xorb _ _); [|done]. intros [<-|[]]. by exists [].
Qed.

(** A pattern that is not [nullable] consumes at least one character. *)
Lemma nullable_sound r : nullable r = false ->
  forall prev s q, In q (rmatch r prev s) -> (length (snd q) < length s)%nat.
Proof.
  induction r as [l|p|p|p|r IH|r1 IH1 r2 IH2|r1 IH1 r2 IH2| | |];
    simpl; intros Hn prev s q; try done.
  - intros Hq. rewrite (lit_match_spec _ _ _ _ Hq).
    rewrite length_app. destruct l; [done|]. simpl. lia.
  - destruct s as [|c s]; [done|]. destruct (p c); [|done].
    intros [<-|[]]. simpl. lia.
  - destruct s as [|c s]; [done|]. destruct (p c); [|done].
    intros Hq. destruct (star_match_spec _ _ _ _ Hq) as [w [-> _]].
    simpl. rewrite length_app. lia.
  - apply orb_false_iff in Hn as [H1 H2].
    rewrite in_app_iff. intros [Hq|Hq]; eauto.
  - rewrite in_flat_map. intros [q1 [Hq1 Hq]].
    destruct (rmatch_suffix _ _ _ _ Hq1) as [w1 Hw1].
    destruct (rmatch_suffix _ _ _ _ Hq) as [w2 Hw2].
    apply andb_false_iff in Hn as [H1|H2].
    + specialize (IH1 H1 _ _ _ Hq1). rewrite Hw2 in IH1.
      rewrite length_app in IH1. lia.
    + specialize (IH2 H2 _ _ _ Hq). rewrite Hw1.
      rewrite length_app. lia.
Qed.

(** No pattern of the program matches the empty string. *)
Lemma patterns_consume :
  forallb (fun r => negb (nullable r))
    ([Cls Leadmatcher.company_junk; Leadmatcher.amp_re; Leadmatcher.leading_the_re;
      Leadmatcher.qcr_re; Plus is_space;
      Plus (fun c => bool_decide (c = Leadmatcher.dot));
      Cls Leadmatcher.person_junk; Leadmatcher.initials_re;
      Leadmatcher.email_prefix_re; Plus is_digit;
      Cls (fun c => negb (is_word c || is_space c))]
     ++ map Leadmatcher.division_re Leadmatcher.divisions
     ++ map Leadmatcher.suffix_re Leadmatcher.suffixes
     ++ map (fun t => Bol >> Lit t >> Plus is_space) Leadmatcher.titles
     ++ map (fun t => Plus is_space >> Lit t >> Eol) Leadmatcher.titles
     ++ map Leadmatcher.whole_word_re
          (map fst Leadmatcher.level_map ++ Leadmatcher.fillers))
  = true.
Proof. reflexivity. Qed.

Lemma match_at_only X r prev s n :
  only X r = true -> nullable r = false -> match_at r prev s = Some n ->
  (0 < n)%nat /\ Forall (fun c => X c = true) (take n s).
Proof.
  intros Ho Hn. unfold match_at.
  destruct (rmatch r prev s) as [|q qs] eqn:Hm; [done|]. intros [= <-].
  assert (Hq : In q (rmatch r prev s)) by (rewrite Hm; by left).
  pose proof (nullable_sound r Hn _ _ _ Hq) as Hlt.
  destruct (only_sound X r Ho _ _ _ Hq) as [w [Hs Hw]].
  split; [lia|]. rewrite Hs at 2. rewrite Hs at 1.
  rewrite length_app.
  replace (length w + length (snd q) - length (snd q))%nat with (length w) by lia.
  by rewrite take_app_length.
Qed.

Lemma match_at_first_free X r prev c s :
  only X r = true -> nullable r = false -> X c = false ->
  match_at r prev (c :: s) = None.
Proof.
  intros Ho Hn Hc. destruct (match_at r prev (c :: s)) as [n|] eqn:Hm; [|done].
  destruct (match_at_only X r _ _ _ Ho Hn Hm) as [Hpos Hall].
  destruct n as [|n]; [lia|]. simpl in Hall.
  inversion Hall as [|? ? HX _]; subst. congruence.
Qed.

(** A text free of [X] is copied as it stands by a pattern whose matches
    are made of [X]. *)
Lemma sub_from_inert X r repl : only X r = true -> nullable r = false ->
  forall kw b prev, free_of X kw ->
  exists prev', sub_from r repl prev (kw ++ b) 0 = kw ++ sub_from r repl prev' b 0.
Proof.
  intros Ho Hn. induction kw as [|c kw IH]; intros b prev Hkw.
  - by exists prev.
  - inversion Hkw as [|? ? Hc Hkw']; subst. simpl.
    rewrite (match_at_first_free X r prev c _ Ho Hn Hc).
    destruct (IH b (Some c) Hkw') as [prev' ->]. by exists prev'.
Qed.

(** ... and an occurrence of such a text survives the rewriting. *)
Lemma sub_from_keeps X r repl kw : only X r = true -> nullable r = false ->
  free_of X kw -> kw <> [] ->
  forall a b prev k, (k <= length a)%nat ->
  occurs kw (sub_from r repl prev (a ++ kw ++ b) k).
Proof.
  intros Ho Hn Hkw Hne. induction a as [|c a IH]; intros b prev k Hk.
  - simpl in Hk. replace k with 0%nat by lia. simpl.
    destruct (sub_from_inert X r repl Ho Hn kw b prev Hkw) as [prev' ->].
    by exists [], (sub_from r repl prev' b 0).
  - destruct k as [|k].
    + cbn [sub_from app].
      destruct (match_at r prev (c :: a ++ kw ++ b)) as [[|j]|] eqn:Hm.
      * destruct (match_at_only X r _ _ _ Ho Hn Hm). lia.
      * destruct (match_at_only X r _ _ _ Ho Hn Hm) as [_ Hall].
        assert (j <= length a)%nat as Hj.
        { destruct (decide (j <= length a)%nat) as [|Hgt]; [done|]. exfalso.
          destruct kw as [|d kw]; [done|].
          inversion Hkw as [|? ? Hd _]; subst.
          rewrite Forall_lookup in Hall.
          assert (take (S j) (c :: a ++ (d :: kw) ++ b) !! S (length a) = Some d) as Hl.
          { rewrite lookup_take_lt by lia. simpl.
            rewrite lookup_app_r by lia. by rewrite Nat.sub_diag. }
          specialize (Hall _ _ Hl). simpl in Hall. congruence. }
        destruct (IH b (Some c) j Hj) as [a' [b' ->]].
        exists (repl (take (S j) (c :: a ++ kw ++ b)) ++ a'), b'.
        by rewrite <- app_assoc.
      * destruct (IH b (Some c) 0%nat ltac:(lia)) as [a' [b' ->]].
        by exists (c :: a'), b'.
    + cbn [sub_from app]. apply IH. simpl in Hk. lia.
Qed.

Lemma re_sub_keeps X r repl kw s : only X r = true -> nullable r = false ->
  free_of X kw -> kw <> [] -> occurs kw s -> occurs kw (re_sub r repl s).
Proof.
  intros Ho Hn Hkw Hne [a [b ->]]. unfold re_sub, re_sub_fn.
  eapply sub_from_keeps; eauto. lia.
Qed.

(** *** Occurrences under trimming and under an anchored pattern *)

Lemma occurs_rev kw s : occurs kw s -> occurs (rev kw) (rev s).
Proof.
  intros [a [b ->]]. exists (rev b), (rev a).
  by rewrite !rev_app_distr, <- app_assoc.
Qed.

Lemma lstrip_keeps p kw s :
  free_of p kw -> kw <> [] -> occurs kw s -> occurs kw (lstrip p s).
Proof.
  intros Hkw Hne [a [b ->]]. induction a as [|c a IH]; simpl.
  - destruct kw as [|d kw]; [done|]. inversion Hkw as [|? ? Hd _]; subst.
    simpl. rewrite Hd. by exists [], b.
  - destruct (p c); [exact IH|]. by exists (c :: a), b.
Qed.

Lemma strip_chars_keeps p kw s :
  free_of p kw -> kw <> [] -> occurs kw s -> occurs kw (strip_chars p s).
Proof.
  intros Hkw Hne Hs. unfold strip_chars, rstrip.
  rewrite <- (rev_involutive kw). apply occurs_rev.
  apply lstrip_keeps.
  - by apply List.Forall_rev.
  - intros Hr. apply Hne. by rewrite <- (rev_involutive kw), Hr.
  - apply occurs_rev. by apply lstrip_keeps.
Qed.

(** An occurrence of [kw] cannot straddle a character that [kw] lacks. *)
Lemma occurs_after X kw u c v :
  free_of X kw -> X c = true -> (length u < length kw)%nat ->
  occurs kw (u ++ c :: v) -> occurs kw v.
Proof.
  intros Hkw Hc Hlen [a [b Hab]]. symmetry in Hab.
  assert (Hin : forall d, In d kw -> d <> c).
  { intros d Hd ->. unfold free_of in Hkw. rewrite List.Forall_forall in Hkw.
    specialize (Hkw _ Hd). congruence. }
  apply List.app_eq_app in Hab as [l [[-> Hv]|[-> Hv]]].
  - destruct l as [|d l].
    + simpl in Hv. destruct kw as [|d kw]; [simpl in Hlen; lia|].
      injection Hv as Hd _. exfalso. apply (Hin d); [by left|done].
    + injection Hv as _ ->. by exists l, b.
  - exfalso. apply List.app_eq_app in Hv as [l2 [[-> Hv]|[-> Hv]]].
    + rewrite length_app in Hlen. destruct l2 as [|d l2].
      * rewrite length_app in Hlen. simpl in Hlen. lia.
      * injection Hv as Hd _. apply (Hin d); [|done].
        apply in_or_app. right. by left.
    + rewrite !length_app in Hlen. lia.
Qed.

Lemma occurs_after_run X kw w v :
  free_of X kw -> kw <> [] -> Forall (fun c => X c = true) w ->
  occurs kw (w ++ v) -> occurs kw v.
Proof.
  intros Hkw Hne. induction 1 as [|c w Hc _ IH]; [done|]. intros Ho.
  apply IH. eapply (occurs_after X kw [] c); eauto.
  destruct kw; [done|]. simpl. lia.
Qed.

(** After the first character a pattern anchored with [^] never matches. *)
Lemma sub_from_bol r repl : forall s c k,
  sub_from (Bol >> r) repl (Some c) s k = drop k s.
Proof.
  induction s as [|d s IH]; intros c k; destruct k as [|k]; simpl; try done.
  all: by rewrite IH.
Qed.

Lemma re_sub_bol r repl s :
  re_sub (Bol >> r) repl s =
    match match_at (Bol >> r) None s with
    | Some n => repl ++ drop n s
    | None => s
    end.
Proof.
  unfold re_sub, re_sub_fn. destruct s as [|c s]; simpl.
  - destruct (match_at _ _ _) as [[|k]|]; simpl; by rewrite ?app_nil_r.
  - destruct (match_at _ _ _) as [[|k]|]; by rewrite sub_from_bol.
Qed.

Lemma rmatch_seq r1 r2 prev s q :
  In q (rmatch (r1 >> r2) prev s) <->
  exists q1, In q1 (rmatch r1 prev s) /\ In q (rmatch r2 (fst q1) (snd q1)).
Proof. apply in_flat_map. Qed.

Lemma rmatch_plus p prev s q :
  In q (rmatch (Plus p) prev s) ->
  exists c w, s = c :: w ++ snd q /\ p c = true /\ Forall (fun d => p d = true) w.
Proof.
  simpl. destruct s as [|c t]; [done|]. destruct (p c) eqn:Hc; [|done].
  intros Hq. apply star_match_spec in Hq as [w [-> Hall]]. by exists c, w.
Qed.

Lemma leading_the_keeps kw s :
  free_of is_space kw -> (3 < length kw)%nat -> occurs kw s ->
  occurs kw (re_sub Leadmatcher.leading_the_re "" s).
Proof.
  intros Hkw Hlen Hs. unfold Leadmatcher.leading_the_re. rewrite re_sub_bol.
  unfold match_at.
  destruct (rmatch _ None s) as [|q qs] eqn:Hm; [done|].
  assert (Hq : In q (rmatch (Bol >> Lit "the" >> Plus is_space) None s))
    by (rewrite Hm; by left).
  apply rmatch_seq in Hq as [q0 [Hq0 Hq]].
  destruct Hq0 as [<-|[]]. cbn [fst snd] in Hq.
  apply rmatch_seq in Hq as [q1 [Hq1 Hq]].
  apply lit_match_spec in Hq1.
  apply rmatch_plus in Hq as [c [w [Hw [Hc Hall]]]].
  assert (Hs' : s = list_ascii_of_string "the" ++ c :: w ++ snd q)
    by (by rewrite Hq1, Hw).
  assert (Hd : drop (length s - length (snd q)) s = snd q).
  { rewrite Hs' at 1 2. rewrite !length_app. cbn [length].
    rewrite length_app.
    replace (length (list_ascii_of_string "the") + S (length w + length (snd q))
             - length (snd q))%nat
      with (length (list_ascii_of_string "the" ++ c :: w)).
    - change (list_ascii_of_string "the" ++ c :: w ++ snd q)
        with (list_ascii_of_string "the" ++ (c :: w) ++ snd q).
      rewrite app_assoc. apply drop_app_length.
    - rewrite length_app. simpl. lia. }
  simpl app. rewrite Hd. rewrite Hs' in Hs.
  assert (Hne : kw <> []) by (destruct kw; [simpl in Hlen; lia|done]).
  apply (occurs_after_run is_space kw w (snd q) Hkw Hne Hall).
  apply (occurs_after is_space kw (list_ascii_of_string "the") c _ Hkw Hc);
    [simpl; lia|done].
Qed.

(* ================================================================== *)
(** ** The QCR special case *)
(* ================================================================== *)

(** C1.  On "QCR Holdings Inc" and on "QCR Holdings" the special case
    yields "qcr holdings".  On "QCR Holdings Incorporated" the optional
    group [(?:inc|incorporated)] takes its first alternative, "inc", the
    match stops there, and the rest of the word stays behind: the result
    is "qcr holdingsorporated", not "qcr holdings". *)
Theorem qcr_special_case_results :
  Leadmatcher.normalize_company_name (Str "QCR Holdings Inc") = "qcr holdings" /\
  Leadmatcher.normalize_company_name (Str "QCR Holdings") = "qcr holdings" /\
  Leadmatcher.normalize_company_name (Str "QCR Holdings Incorporated")
    = "qcr holdingsorporated".
Proof. repeat split; vm_compute; reflexivity. Qed.

(** The alternation is ordered: with the longer alternative first the
    same input is rewritten in full. *)
Example qcr_alternation_order :
  re_sub Leadmatcher.qcr_re "qcr holdings" "qcr holdings incorporated"
    = "qcr holdingsorporated" /\
  re_sub (Lit "qcr" >> Star is_space >> Lit "holding" >> Opt (Lit "s") >>
          Star is_space >> Opt (Alt (Lit "incorporated") (Lit "inc")))
    "qcr holdings" "qcr holdings incorporated" = "qcr holdings".
Proof. split; vm_compute; reflexivity. Qed.

(* ================================================================== *)
(** ** Educational names keep their corporate suffixes *)
(* ================================================================== *)

Lemma plain_free X kw :
  (forall c, is_plain c = true -> X c = false) ->
  Forall (fun c => is_plain c = true) kw -> free_of X kw.
Proof. intros HX Hkw. eapply Forall_impl; [exact Hkw|exact HX]. Qed.

Lemma plain_not_space_or_amp c : is_plain c = true -> space_or_amp c = false.
Proof.
  intros Hc. unfold space_or_amp.
  by rewrite (plain_not_space c Hc), (plain_not_amp c Hc).
Qed.

(** A keyword made of plain characters that occurs in the lower-cased
    name still occurs in the cleaned name. *)
Lemma clean_company_keeps kw name :
  Forall (fun c => is_plain c = true) kw -> (3 < length kw)%nat ->
  occurs kw (lower name) -> occurs kw (Leadmatcher.clean_company name).
Proof.
  intros Hkw Hlen Ho. unfold Leadmatcher.clean_company.
  assert (Hne : kw <> []) by (destruct kw; [simpl in Hlen; lia|done]).
  pose proof (plain_free is_space kw plain_not_space Hkw) as Hsp.
  apply leading_the_keeps; [done|done|].
  apply (re_sub_keeps space_or_amp); [by vm_compute|done| |done|].
  { exact (plain_free _ kw plain_not_space_or_amp Hkw). }
  apply (re_sub_keeps Leadmatcher.company_junk); [by vm_compute|done| |done|].
  { exact (plain_free _ kw plain_not_junk Hkw). }
  by apply strip_chars_keeps.
Qed.

Lemma edu_keywords_plain kw :
  In kw Leadmatcher.edu_keywords ->
  Forall (fun c => is_plain c = true) kw /\ (3 < length kw)%nat.
Proof.
  intros [<-|[<-|[<-|[<-|[]]]]]; split; try (simpl; lia);
    repeat constructor.
Qed.

Lemma is_edu_of_keyword kw name :
  In kw Leadmatcher.edu_keywords -> contains kw (lower name) = true ->
  Leadmatcher.is_edu (Leadmatcher.clean_company name) = true.
Proof.
  intros Hin Hc. unfold Leadmatcher.is_edu. apply existsb_exists.
  exists kw. split; [done|]. apply contains_spec.
  destruct (edu_keywords_plain kw Hin) as [Hplain Hlen].
  apply clean_company_keeps; [done|done|]. by apply contains_spec.
Qed.

(** C7.  When the name, in any letter case, contains one of the
    education keywords, [normalize_company_name] does not run the
    suffix-stripping pass: its result is that of the other statements
    alone (the special case for "qcr", which returns before the pass, or
    the division phrases, the abbreviations and the final tidying). *)
Theorem edu_name_keeps_suffixes (name keyword : text) :
  In keyword Leadmatcher.edu_keywords ->
  contains keyword (lower name) = true ->
  Leadmatcher.normalize_company_name (Str name) =
    (let cleaned := Leadmatcher.clean_company name in
     if contains "qcr" (lower cleaned)
     then strip (re_sub Leadmatcher.qcr_re "qcr holdings" cleaned)
     else Leadmatcher.tidy
            (Leadmatcher.expand_abbreviations
               (Leadmatcher.strip_divisions cleaned))).
Proof.
  intros Hin Hc. unfold Leadmatcher.normalize_company_name. cbn [isna py_str].
  unfold Leadmatcher.normalize_company_text. cbv zeta.
  by rewrite (is_edu_of_keyword keyword name Hin Hc).
Qed.

Lemma edu_name_keeps_suffixes_witness :
  In (list_ascii_of_string "university") Leadmatcher.edu_keywords /\
  contains "university" (lower "Acme University Inc") = true /\
  Leadmatcher.normalize_company_name (Str "Acme University Inc") =
    (let cleaned := Leadmatcher.clean_company "Acme University Inc" in
     if contains "qcr" (lower cleaned)
     then strip (re_sub Leadmatcher.qcr_re "qcr holdings" cleaned)
     else Leadmatcher.tidy
            (Leadmatcher.expand_abbreviations
               (Leadmatcher.strip_divisions cleaned))).
Proof.
  split; [left; reflexivity|]. split; [vm_compute; reflexivity|].
  apply (edu_name_keeps_suffixes "Acme University Inc" "university");
    [left; reflexivity|vm_compute; reflexivity].
Defined.

(** The suffix pass is what sets the two kinds of name apart. *)
Example edu_and_plain_names :
  Leadmatcher.normalize_company_name (Str "Acme University Inc")
    = "acme university incorporated" /\
  Leadmatcher.normalize_company_name (Str "Acme College Corp")
    = "acme college corporation" /\
  Leadmatcher.normalize_company_name (Str "Acme Holdings Corp") = "acme".
Proof. repeat split; vm_compute; reflexivity. Qed.

(** C7, the counterexample.  A name with an education keyword and
    "qcr": the special case returns before the keyword is looked at, and
    its rewrite takes the suffix word "inc" with it. *)
Lemma qcr_edu_name_loses_inc :
  contains "school" (lower "QCR Holdings Inc School") = true /\
  In (list_ascii_of_string "inc") Leadmatcher.suffixes /\
  In (list_ascii_of_string "inc") (split (lower "QCR Holdings Inc School")) /\
  Leadmatcher.normalize_company_name (Str "QCR Holdings Inc School")
    = "qcr holdings school".
Proof.
  split; [vm_compute; reflexivity|]. split; [by left|].
  split; [vm_compute; tauto|]. vm_compute. reflexivity.
Qed.

(* ================================================================== *)
(** ** Words, joins and patterns that find nothing *)
(* ================================================================== *)

Lemma join_cons (w w2 : text) (ws : list text) :
  join " " (w :: w2 :: ws) = w ++ Leadmatcher.blank :: join " " (w2 :: ws).
Proof. reflexivity. Qed.

Lemma strip_chars_ends p (s : text) :
  (s = [] \/ (exists c s', s = c :: s' /\ p c = false) /\
             (exists s' d, s = s' ++ [d] /\ p d = false)) ->
  strip_chars p s = s.
Proof.
  intros [->|[[c [s1 [H1 Hc]]] [s2 [d [H2 Hd]]]]]; [done|].
  unfold strip_chars, rstrip.
  assert (lstrip p s = s) as -> by (rewrite H1; simpl; by rewrite Hc).
  rewrite H2, rev_app_distr. simpl. rewrite Hd. simpl.
  by rewrite rev_involutive.
Qed.

(** *** Splitting *)

Lemma split_acc_word (w : text) : forall cur rest,
  free_of is_space w -> split_acc cur (w ++ rest) = split_acc (rev w ++ cur) rest.
Proof.
  induction w as [|c w IH]; intros cur rest Hw; [done|].
  inversion Hw as [|? ? Hc Hw']; subst. simpl. rewrite Hc.
  rewrite IH by done. by rewrite <- app_assoc.
Qed.

Lemma split_word_then_space (w : text) (c : ascii) (rest : text) :
  w <> [] -> free_of is_space w -> is_space c = true ->
  split (w ++ c :: rest) = w :: split rest.
Proof.
  intros Hne Hw Hc. unfold split. rewrite split_acc_word by done.
  rewrite app_nil_r. simpl. rewrite Hc.
  destruct (rev w) as [|d r] eqn:Hr.
  - exfalso. apply Hne. by rewrite <- (rev_involutive w), Hr.
  - by rewrite <- Hr, rev_involutive.
Qed.

Lemma split_word (w : text) :
  w <> [] -> free_of is_space w -> split w = [w].
Proof.
  intros Hne Hw. unfold split. rewrite <- (app_nil_r w) at 1.
  rewrite split_acc_word by done. rewrite app_nil_r. simpl.
  destruct (rev w) as [|d r] eqn:Hr.
  - exfalso. apply Hne. by rewrite <- (rev_involutive w), Hr.
  - by rewrite <- Hr, rev_involutive.
Qed.

(** *** Patterns that find nothing *)

Lemma sub_from_no_match r repl : forall s prev,
  (forall a b prev', s = a ++ b -> match_at r prev' b = None) ->
  sub_from r repl prev s 0 = s.
Proof.
  induction s as [|c s IH]; intros prev Hno; simpl.
  - by rewrite (Hno [] [] prev).
  - rewrite (Hno [] (c :: s) prev) by done. f_equal. apply IH.
    intros a b prev' ->. by apply (Hno (c :: a) b prev').
Qed.

Lemma match_at_none r prev s : rmatch r prev s = [] -> match_at r prev s = None.
Proof. unfold match_at. by intros ->. Qed.

Lemma no_result {A} (l : list A) : (forall q, In q l -> False) -> l = [].
Proof. destruct l as [|q l]; [done|]. intros H. destruct (H q). by left. Qed.

Lemma foldl_fixed {A B} (f : A -> B -> A) (a : A) (l : list B) :
  (forall b, In b l -> f a b = a) -> foldl f a l = a.
Proof.
  induction l as [|b l IH]; intros Hf; [done|]. cbn [foldl].
  rewrite Hf by (by left). apply IH. intros b' Hb'. apply Hf. by right.
Qed.

Lemma spaces_snoc (a : text) (c : ascii) (w : text) :
  is_space c = true -> Forall (fun d => is_space d = true) w ->
  exists before c1, a ++ c :: w = before ++ [c1] /\ is_space c1 = true.
Proof.
  intros Hc Hw. destruct w as [|d w]; [by exists a, c|].
  destruct (exists_last (l := d :: w) ltac:(done)) as [w' [e He]].
  rewrite He in Hw |- *. apply Forall_app in Hw as [_ Hw]. inversion Hw; subst.
  exists (a ++ c :: w'), e. split; [|done]. by rewrite <- app_assoc.
Qed.

Lemma table_get_none (w : text) (tbl : list (text * text)) :
  ~ In w (map fst tbl) -> table_get w tbl = None.
Proof.
  induction tbl as [|[k v] tbl IH]; [done|]. cbn [map fst In table_get].
  intros Hnot. destruct (text_eqb w k) eqn:Hk.
  - apply text_eqb_eq in Hk. destruct Hnot. by left.
  - apply IH. intros Hin. apply Hnot. by right.
Qed.

Lemma existsb_text_eqb (w : text) (l : list text) :
  existsb (text_eqb w) l = true <-> In w l.
Proof.
  rewrite existsb_exists. split.
  - intros [x [Hin Hx]]. apply text_eqb_eq in Hx. by subst.
  - intros Hin. exists w. split; [done|]. by apply text_eqb_eq.
Qed.

Lemma ends_with_spec (suf s : text) :
  ends_with suf s = true -> exists a, s = a ++ suf.
Proof.
  unfold ends_with. rewrite starts_with_spec. intros [b Hb]. exists (rev b).
  by rewrite <- (rev_involutive s), Hb, rev_app_distr, rev_involutive.
Qed.

(* ================================================================== *)
(** ** Substitution, trimming and the words of a text *)
(* ================================================================== *)

Lemma run_le p s : (run p s <= length s)%nat.
Proof. induction s as [|c s IH]; simpl; [lia|]. destruct (p c); simpl; lia. Qed.

Lemma star_match_head p : forall s prev,
  exists prev' rest, star_match p prev s = (prev', drop (run p s) s) :: rest.
Proof.
  induction s as [|c s IH]; intros prev; simpl.
  - by exists prev, [].
  - destruct (p c) eqn:Hc.
    + destruct (IH (Some c)) as (prev' & rest & ->). simpl. eauto.
    + simpl. eauto.
Qed.

Lemma match_at_plus p prev c s :
  match_at (Plus p) prev (c :: s) = if p c then Some (S (run p s)) else None.
Proof.
  unfold match_at. simpl. destruct (p c); [|done].
  destruct (star_match_head p s (Some c)) as (prev' & rest & ->).
  simpl. rewrite length_drop. pose proof (run_le p s). f_equal. lia.
Qed.

Lemma match_at_cls p prev c s :
  match_at (Cls p) prev (c :: s) = if p c then Some 1%nat else None.
Proof. unfold match_at. simpl. destruct (p c); [|done]. simpl. f_equal. lia. Qed.

(** Substitution only moves characters of the text and of the
    replacements. *)
Lemma sub_from_Forall (P : ascii -> Prop) r repl :
  (forall m, Forall P m -> Forall P (repl m)) ->
  forall s prev k, Forall P s -> Forall P (sub_from r repl prev s k).
Proof.
  intros Hrepl. induction s as [|c s IH]; intros prev k Hs.
  - destruct k; simpl; [|done].
    destruct (match_at r prev []) as [[|n]|]; rewrite ?app_nil_r; auto.
  - inversion Hs as [|? ? Hc Hs']; subst.
    destruct k; simpl; [|by apply IH].
    destruct (match_at r prev (c :: s)) as [[|n]|].
    + apply Forall_app; split; [by apply Hrepl|]. constructor; auto.
    + apply Forall_app; split; [|by auto].
      apply Hrepl. constructor; [done|]. by apply Forall_take.
    + constructor; auto.
Qed.

Lemma re_sub_Forall (P : ascii -> Prop) r repl s :
  Forall P repl -> Forall P s -> Forall P (re_sub r repl s).
Proof. intros Hrepl Hs. by apply sub_from_Forall. Qed.

(** After the substitution of every character of a class, or of every
    run of them, a character of the result is outside the class or comes
    from the replacement. *)
Lemma sub_from_class (Q : ascii -> Prop) p r repl :
  r = Cls p \/ r = Plus p -> Forall Q repl -> (forall c, p c = false -> Q c) ->
  forall s prev k, Forall Q (sub_from r (fun _ => repl) prev s k).
Proof.
  intros Hr Hrepl HQ. induction s as [|c s IH]; intros prev k.
  - destruct k; simpl; [|constructor].
    destruct (match_at r prev []) as [[|n]|]; rewrite ?app_nil_r; auto; constructor.
  - destruct k; simpl; [|apply IH].
    assert (Hm : match_at r prev (c :: s) = None /\ p c = false \/
                 exists n, match_at r prev (c :: s) = Some (S n)).
    { destruct Hr as [->| ->]; [rewrite match_at_cls|rewrite match_at_plus];
        destruct (p c); eauto. }
    destruct Hm as [[-> Hc]|[n ->]].
    + constructor; [by apply HQ|apply IH].
    + apply Forall_app; split; [done|apply IH].
Qed.

Lemma re_sub_class_free p repl s :
  free_of p repl -> free_of p (re_sub (Cls p) repl s).
Proof. intros. apply sub_from_class with (p := p); auto. Qed.

Lemma re_sub_plus_free p repl s :
  free_of p repl -> free_of p (re_sub (Plus p) repl s).
Proof. intros. apply sub_from_class with (p := p); auto. Qed.

Lemma blank_is_space : is_space Leadmatcher.blank = true.
Proof. reflexivity. Qed.

(** [re.sub(r'\s+', ' ', s)] squeezes the runs of blanks. *)
Lemma sub_from_squeeze : forall s prev,
  sub_from (Plus is_space) (fun _ => " ") prev s 0 = squeeze false s /\
  sub_from (Plus is_space) (fun _ => " ") prev s (run is_space s) = squeeze true s.
Proof.
  induction s as [|c s IH]; intros prev.
  - by split.
  - destruct (IH (Some c)) as [IH0 IHrun].
    assert (H0 : sub_from (Plus is_space) (fun _ => " ") prev (c :: s) 0
                 = squeeze false (c :: s)).
    { cbn [sub_from squeeze]. rewrite match_at_plus.
      destruct (is_space c); [|by rewrite IH0].
      by rewrite IHrun. }
    split; [exact H0|].
    cbn [run]. destruct (is_space c) eqn:Hc.
    + cbn [sub_from squeeze]. by rewrite Hc, IHrun.
    + rewrite H0. cbn [squeeze]. by rewrite Hc.
Qed.

Lemma re_sub_squeeze s : re_sub (Plus is_space) " " s = squeeze false s.
Proof. apply (sub_from_squeeze s None). Qed.

(** *** Trimming *)

Lemma lstrip_app p (x y : text) :
  lstrip p (x ++ y) = match lstrip p x with [] => lstrip p y | _ => lstrip p x ++ y end.
Proof.
  induction x as [|c x IH]; simpl; [done|].
  destruct (p c); [exact IH|done].
Qed.

Lemma rstrip_app p (x y : text) :
  rstrip p (x ++ y) = match rstrip p y with [] => rstrip p x | _ => x ++ rstrip p y end.
Proof.
  unfold rstrip. rewrite rev_app_distr, lstrip_app.
  destruct (lstrip p (rev y)) as [|d l] eqn:Hl; [done|].
  rewrite rev_app_distr, rev_involutive.
  destruct (rev (d :: l)) eqn:Hr; [|done].
  apply (f_equal (@rev ascii)) in Hr. rewrite rev_involutive in Hr. discriminate.
Qed.

Lemma lstrip_Forall (P : ascii -> Prop) p (s : text) :
  Forall P s -> Forall P (lstrip p s).
Proof.
  induction 1 as [|c s Hc Hs IH]; simpl; [constructor|].
  destruct (p c); [exact IH|by constructor].
Qed.

Lemma strip_chars_Forall (P : ascii -> Prop) p (s : text) :
  Forall P s -> Forall P (strip_chars p s).
Proof.
  intros Hs. unfold strip_chars, rstrip.
  apply List.Forall_rev, lstrip_Forall, List.Forall_rev, lstrip_Forall, Hs.
Qed.

Lemma length_lstrip p (s : text) : (length (lstrip p s) <= length s)%nat.
Proof. induction s as [|c s IH]; simpl; [lia|]. destruct (p c); simpl; lia. Qed.

Lemma length_strip_chars p (s : text) : (length (strip_chars p s) <= length s)%nat.
Proof.
  unfold strip_chars, rstrip. rewrite length_rev.
  etransitivity; [apply length_lstrip|]. rewrite length_rev. apply length_lstrip.
Qed.

Lemma lstrip_idem p (s : text) : lstrip p (lstrip p s) = lstrip p s.
Proof.
  induction s as [|c s IH]; simpl; [done|].
  destruct (p c) eqn:Hc; [exact IH|]. simpl. by rewrite Hc.
Qed.

Lemma rstrip_snoc p (s : text) (c : ascii) : p c = false -> rstrip p (s ++ [c]) = s ++ [c].
Proof.
  intros Hc. unfold rstrip. rewrite rev_app_distr. simpl. rewrite Hc.
  change (rev (rev [c] ++ rev s) = s ++ [c]).
  by rewrite <- rev_app_distr, rev_involutive.
Qed.

(** *** Squeezed blanks and the words of a text *)

Lemma squeeze_true_lstrip : forall s, lstrip is_space (squeeze true s) = squeeze true s.
Proof.
  induction s as [|c s IH]; simpl; [done|].
  destruct (is_space c) eqn:Hc; [exact IH|]. simpl. by rewrite Hc.
Qed.

Lemma squeeze_lstrip s : lstrip is_space (squeeze false s) = squeeze true s.
Proof.
  destruct s as [|c s]; simpl; [done|].
  destruct (is_space c) eqn:Hc; simpl.
  - apply squeeze_true_lstrip.
  - by rewrite Hc.
Qed.

Lemma split_acc_tokens (P : ascii -> Prop) : forall s cur,
  Forall P s -> Forall P cur -> free_of is_space cur ->
  Forall (fun w => w <> [] /\ free_of is_space w /\ Forall P w) (split_acc cur s).
Proof.
  assert (Hcur : forall cur : text, cur <> [] -> Forall P cur -> free_of is_space cur ->
            rev cur <> [] /\ free_of is_space (rev cur) /\ Forall P (rev cur)).
  { intros cur Hne HP Hf. split; [|split; by apply List.Forall_rev].
    intros Hr. apply Hne. apply (f_equal (@rev ascii)) in Hr.
    by rewrite rev_involutive in Hr. }
  induction s as [|c s IH]; intros cur Hs HP Hf; simpl.
  - destruct cur as [|d cur]; constructor; [|constructor]. by apply Hcur.
  - inversion Hs; subst. destruct (is_space c) eqn:Hc.
    + destruct cur as [|d cur].
      * apply IH; auto; constructor.
      * constructor; [by apply Hcur|]. apply IH; auto; constructor.
    + apply IH; auto; constructor; auto.
Qed.

Lemma join_nil (ws : list text) :
  Forall (fun w => w <> []) ws -> join " " ws = [] -> ws = [].
Proof.
  destruct ws as [|w [|w2 ws]]; intros Hws Hj; [done| |].
  - inversion Hws; subst. simpl in Hj. by subst.
  - inversion Hws; subst. rewrite join_cons in Hj. by destruct w.
Qed.

(** [re.sub(r'\s+', ' ', s).strip()] is [' '.join(s.split())]. *)
Lemma squeeze_split : forall s,
  (forall cur, cur <> [] -> free_of is_space cur ->
     rstrip is_space (rev cur ++ squeeze false s) = join " " (split_acc cur s)) /\
  rstrip is_space (squeeze true s) = join " " (split s).
Proof.
  assert (Hrev : forall cur : text, cur <> [] -> free_of is_space cur ->
            rstrip is_space (rev cur) = rev cur).
  { intros [|d cur] Hne Hf; [done|]. inversion Hf; subst.
    simpl. by apply rstrip_snoc. }
  induction s as [|c s [IHA IHB]].
  - split; [|done]. intros cur Hne Hf. simpl. rewrite app_nil_r.
    destruct cur; [done|]. by apply Hrev.
  - split.
    + intros cur Hne Hf. pose proof (Hrev cur Hne Hf) as Hw.
      cbn [squeeze split_acc].
      destruct (is_space c) eqn:Hc.
      * assert (Htok : Forall (fun w : text => w <> []) (split s)).
        { eapply Forall_impl;
            [apply (split_acc_tokens (fun _ => True) s []);
             [by apply Forall_true|constructor|constructor]|].
          by intros w [? _]. }
        replace (match cur with
                 | [] => split_acc [] s
                 | _ :: _ => rev cur :: split_acc [] s
                 end) with (rev cur :: split s) by (by destruct cur).
        rewrite rstrip_app.
        replace (Leadmatcher.blank :: squeeze true s)
          with ([Leadmatcher.blank] ++ squeeze true s) by done.
        rewrite rstrip_app, IHB.
        destruct (join " " (split s)) as [|u U] eqn:Hj.
        -- apply join_nil in Hj; [|done]. rewrite Hj.
           change (rstrip is_space [Leadmatcher.blank]) with (@nil ascii).
           exact Hw.
        -- destruct (split s) as [|w ws]; [done|].
           by rewrite join_cons, Hj.
      * rewrite <- (IHA (c :: cur)); [|done|by constructor].
        simpl. by rewrite <- app_assoc.
    + cbn [squeeze]. unfold split. cbn [split_acc].
      destruct (is_space c) eqn:Hc; [exact IHB|].
      rewrite <- (IHA [c]); [done|done|]. by repeat constructor.
Qed.

Lemma collapse_strip (s : text) :
  strip (re_sub (Plus is_space) " " s) = join " " (split s).
Proof.
  rewrite re_sub_squeeze. unfold strip, strip_chars.
  rewrite squeeze_lstrip. apply squeeze_split.
Qed.

Lemma split_join_tokens (ws : list text) :
  Forall (fun w => w <> [] /\ free_of is_space w) ws -> split (join " " ws) = ws.
Proof.
  induction ws as [|w [|w2 ws] IH]; intros Hws; [done| |].
  - inversion Hws as [|? ? [Hne Hf] _]; subst. simpl. by apply split_word.
  - inversion Hws as [|? ? [Hne Hf] Hws']; subst.
    rewrite join_cons, split_word_then_space; [|done|done|done].
    by rewrite IH.
Qed.

(** A text of the form [' '.join(s.split())] is made of tokens. *)
Lemma join_split_tokens (P : ascii -> Prop) (s : text) :
  Forall P s ->
  split (join " " (split s)) = split s /\
  Forall (fun w => w <> [] /\ free_of is_space w /\ Forall P w) (split s).
Proof.
  intros Hs.
  assert (Htok := split_acc_tokens P s [] Hs (List.Forall_nil _) (List.Forall_nil _)).
  split; [|exact Htok].
  apply split_join_tokens. eapply Forall_impl; [exact Htok|]. by intros w (? & ? & _).
Qed.

Lemma rstrip_cons_keep p (c : ascii) (t : text) :
  p c = false -> rstrip p (c :: t) = c :: rstrip p t.
Proof.
  intros Hc. change (c :: t) with ([c] ++ t). rewrite rstrip_app.
  destruct (rstrip p t) eqn:Ht; [|done].
  by apply (rstrip_snoc p []).
Qed.

Lemma lstrip_head p (s : text) :
  lstrip p s = [] \/ exists c t, lstrip p s = c :: t /\ p c = false.
Proof.
  induction s as [|c s IH]; simpl; [by left|].
  destruct (p c) eqn:Hc; [exact IH|]. right. eauto.
Qed.

Lemma rstrip_last p (s : text) :
  rstrip p s = [] \/ exists t d, rstrip p s = t ++ [d] /\ p d = false.
Proof.
  unfold rstrip. destruct (lstrip_head p (rev s)) as [->|(c & t & -> & Hc)]; [by left|].
  right. exists (rev t), c. by split.
Qed.

(** What [s.strip(chars)] returns is empty, or starts and ends with a
    character that is kept. *)
Lemma strip_chars_shape p (s : text) :
  strip_chars p s = [] \/
  (exists c s', strip_chars p s = c :: s' /\ p c = false) /\
  (exists s' d, strip_chars p s = s' ++ [d] /\ p d = false).
Proof.
  unfold strip_chars.
  destruct (lstrip_head p s) as [->|(c & t & -> & Hc)]; [by left|].
  right. split.
  - exists c, (rstrip p t). split; [by apply rstrip_cons_keep|done].
  - destruct (rstrip_last p (c :: t)) as [Hnil|Hlast]; [|done].
    by rewrite rstrip_cons_keep in Hnil.
Qed.

Lemma strip_chars_fixed p q (s : text) :
  (forall c, In c (strip_chars p s) -> q c = true -> p c = true) ->
  strip_chars q (strip_chars p s) = strip_chars p s.
Proof.
  intros Hq. apply strip_chars_ends.
  destruct (strip_chars_shape p s) as [->|[(c & s1 & E1 & Hc) (s2 & d & E2 & Hd)]];
    [by left|right].
  split.
  - exists c, s1. split; [done|].
    destruct (q c) eqn:Hqc; [|done].
    rewrite Hq in Hc; [done| |done]. rewrite E1. by left.
  - exists s2, d. split; [done|].
    destruct (q d) eqn:Hqd; [|done].
    rewrite Hq in Hd; [done| |done]. rewrite E2. apply in_or_app. right. by left.
Qed.

Lemma foldl_preserves {A B} (Q : A -> Prop) (f : A -> B -> A) (l : list B) : forall a,
  Q a -> (forall a b, In b l -> Q a -> Q (f a b)) -> Q (foldl f a l).
Proof.
  induction l as [|b l IH]; intros a Ha Hf; simpl; [done|].
  apply IH; [apply Hf; [by left|done]|]. intros a' b' Hb'. apply Hf. by right.
Qed.

Lemma forallb_Forall {A} (p : A -> bool) (l : list A) :
  forallb p l = true -> Forall (fun x => p x = true) l.
Proof. intros Hl. apply List.Forall_forall. by apply forallb_forall. Qed.

Lemma lower_not_upper (s : text) : Forall (fun c => is_upper c = false) (lower s).
Proof.
  unfold lower. apply List.Forall_map, List.Forall_forall. intros c _.
  destruct c as [[] [] [] [] [] [] [] []]; reflexivity.
Qed.

(** A text without a character that [lower()] changes is its own
    [lower()]. *)
Lemma lower_fixed (s : text) : Forall (fun c => is_upper c = false) s -> lower s = s.
Proof.
  induction 1 as [|c s Hc _ IH]; [done|]. unfold lower in *. cbn [map].
  unfold lower_char at 1. rewrite Hc. by rewrite IH.
Qed.

Lemma join_Forall (P : ascii -> Prop) (ws : list text) :
  P Leadmatcher.blank -> Forall (Forall P) ws -> Forall P (join " " ws).
Proof.
  intros Hb. induction 1 as [|w ws Hw Hws IH]; [constructor|].
  destruct ws as [|w2 ws]; [done|].
  rewrite join_cons. apply Forall_app. split; [done|]. by constructor.
Qed.

(* ================================================================== *)
(** ** The shape of the normalised fields *)
(* ================================================================== *)

Section NormaliserShape.
Import Leadmatcher.

Lemma company_char_spec c :
  company_char c = true <-> company_junk c = false /\ is_upper c = false.
Proof.
  unfold company_char.
  destruct (company_junk c), (is_upper c); simpl; intuition congruence.
Qed.

Lemma clean_company_chars name :
  Forall (fun c => company_char c = true) (clean_company name).
Proof.
  unfold clean_company.
  apply re_sub_Forall; [constructor|].
  apply re_sub_Forall; [by apply forallb_Forall|].
  eapply Forall_impl; [|intros c Hc; apply company_char_spec; exact Hc].
  apply Forall_and. split.
  - apply re_sub_class_free. constructor.
  - apply re_sub_Forall; [constructor|].
    apply strip_chars_Forall, lower_not_upper.
Qed.

Lemma split_Forall (P : ascii -> Prop) (s : text) :
  Forall P s -> Forall (Forall P) (split s).
Proof.
  intros Hs. eapply Forall_impl;
    [apply (split_acc_tokens P s []); [done|constructor|constructor]|].
  by intros w (_ & _ & Hw).
Qed.

Lemma expand_abbreviations_chars name :
  Forall (fun c => company_char c = true) name ->
  Forall (fun c => company_char c = true) (expand_abbreviations name).
Proof.
  intros Hname. unfold expand_abbreviations.
  apply join_Forall; [reflexivity|].
  apply List.Forall_map. eapply Forall_impl; [apply split_Forall, Hname|].
  intros w Hw. cbn beta.
  destruct (table_get w abbrev_map) as [v|] eqn:Hv; [|exact Hw]. cbn [default].
  assert (Hall : Forall (fun kv : text * text =>
                           Forall (fun c => company_char c = true) (snd kv)) abbrev_map).
  { apply List.Forall_forall. intros kv Hkv. apply forallb_Forall.
    revert kv Hkv. apply forallb_forall. vm_compute. reflexivity. }
  clear Hw. revert Hv. induction Hall as [|[k v'] tbl Hk _ IH]; simpl; [done|].
  destruct (text_eqb w k); [|exact IH]. by intros [= <-].
Qed.

Lemma normalize_company_text_chars name :
  Forall (fun c => company_char c = true) (normalize_company_text name).
Proof.
  unfold normalize_company_text.
  pose proof (clean_company_chars name) as Hclean.
  destruct (contains "qcr" (lower (clean_company name))).
  - apply strip_chars_Forall, re_sub_Forall; [by apply forallb_Forall|done].
  - assert (Hdiv : Forall (fun c => company_char c = true)
                     (strip_divisions (clean_company name))).
    { unfold strip_divisions. apply foldl_preserves; [done|].
      intros a b _ Ha. apply re_sub_Forall; [by apply forallb_Forall|done]. }
    apply expand_abbreviations_chars in Hdiv.
    unfold tidy. apply strip_chars_Forall.
    apply re_sub_Forall; [by apply forallb_Forall|].
    apply re_sub_Forall; [by apply forallb_Forall|].
    destruct (negb (is_edu (clean_company name))); [|done].
    unfold strip_suffixes. apply foldl_preserves; [done|].
    intros a b _ Ha. apply re_sub_Forall; [by apply forallb_Forall|done].
Qed.

(** X1.  [normalize_company_name] returns text without punctuation
    that [lower()] leaves unchanged: whatever the input, no character of
    the result [out] is one that the filter [[^\w\s\&\.]] of the
    function removes, and [out.lower() == out].  (This is not "no
    upper-case letter": a character that [lower()] does not change
    stays.) *)
Theorem company_name_characters (name : cell) :
  let out := normalize_company_name name in
  Forall (fun c => company_junk c = false) out /\ lower out = out.
Proof.
  unfold normalize_company_name. destruct (isna name); [by split|].
  pose proof (normalize_company_text_chars (py_str name)) as Hchars.
  cbv zeta. split; [|apply lower_fixed].
  - eapply Forall_impl; [exact Hchars|].
    intros c Hc. exact (proj1 (proj1 (company_char_spec c) Hc)).
  - eapply Forall_impl; [exact Hchars|].
    intros c Hc. exact (proj2 (proj1 (company_char_spec c) Hc)).
Qed.

Lemma tidy_blanks name : blanks_are_spaces (tidy name).
Proof.
  unfold tidy, blanks_are_spaces. apply strip_chars_Forall.
  apply re_sub_Forall; [by repeat constructor|].
  apply sub_from_class with (p := is_space); [by right| |].
  - by repeat constructor.
  - intros c Hc Hc'. congruence.
Qed.

(** X2.  Neither normaliser of company names returns a name with a
    blank at either end: [strip()] leaves the result of
    [normalize_company_name], of [leadmatcher5000.py] and of [app.py],
    unchanged. *)
Theorem company_name_trimmed (name : cell) :
  strip (normalize_company_name name) = normalize_company_name name /\
  strip (App.normalize_company_name name) = App.normalize_company_name name.
Proof.
  split.
  - unfold normalize_company_name. destruct (isna name); [done|].
    unfold normalize_company_text.
    destruct (contains "qcr" (lower (clean_company (py_str name)))).
    + apply strip_chars_fixed. by intros c _ Hc.
    + pose proof (tidy_blanks
        (let name0 := expand_abbreviations (strip_divisions (clean_company (py_str name))) in
         if negb (is_edu (clean_company (py_str name))) then strip_suffixes name0
         else name0)) as Hb.
      cbv zeta in *. revert Hb. unfold tidy at 1 2. unfold blanks_are_spaces, strip.
      intros Hb. apply strip_chars_fixed. intros c Hin Hc.
      rewrite List.Forall_forall in Hb. rewrite (Hb c Hin Hc). reflexivity.
  - destruct name as [s|]; [|done]. simpl. unfold App.normalize_company_text.
    apply strip_chars_fixed. by intros c _ Hc.
Qed.

Lemma join_split_fixed (s : text) :
  join " " (split (join " " (split s))) = join " " (split s).
Proof.
  by rewrite (proj1 (join_split_tokens (fun _ => True) s (Forall_true _ _ (fun _ => I)))).
Qed.

Lemma person_char_spec c :
  person_char c = true <-> person_junk c = false /\ is_upper c = false.
Proof.
  unfold person_char.
  destruct (person_junk c), (is_upper c); simpl; intuition congruence.
Qed.

Lemma space_initials_chars (m : text) :
  Forall (fun c => person_char c = true) m ->
  Forall (fun c => person_char c = true) (space_initials m).
Proof.
  intros Hm. destruct m as [|a [|x [|b [|y m]]]]; try exact Hm.
  inversion Hm as [|? ? Ha Hm1]; subst. inversion Hm1 as [|? ? _ Hm2]; subst.
  simpl. by repeat (constructor; [done|]).
Qed.

Lemma normalize_person_text_shape (name : text) :
  join " " (split (normalize_person_text name)) = normalize_person_text name /\
  Forall (fun c => person_junk c = false /\ is_upper c = false)
    (normalize_person_text name).
Proof.
  unfold normalize_person_text. cbv zeta. split.
  - rewrite collapse_strip. apply join_split_fixed.
  - eapply Forall_impl; [|intros c Hc; apply person_char_spec; exact Hc].
    apply strip_chars_Forall. apply re_sub_Forall; [by apply forallb_Forall|].
    apply sub_from_Forall; [exact space_initials_chars|].
    apply foldl_preserves.
    + apply strip_chars_Forall.
      eapply Forall_impl; [|intros c Hc; apply person_char_spec; exact Hc].
      apply Forall_and. split.
      * apply re_sub_class_free. constructor.
      * apply re_sub_Forall; [constructor|apply lower_not_upper].
    + intros a b _ Ha. by repeat (apply re_sub_Forall; [constructor|]).
Qed.

(** X3.  A normalised person name [out] is [' '.join(out.split())]:
    its words are separated by single spaces and there is no blank at
    its ends.  It has no character that [[^\w\s\.]] removes, and
    [out.lower() == out]. *)
Theorem person_name_shape (name : cell) :
  let out := normalize_person_name name in
  join " " (split out) = out /\
  Forall (fun c => person_junk c = false) out /\
  lower out = out.
Proof.
  unfold normalize_person_name. destruct (isna name); [split_and!; reflexivity || constructor|].
  destruct (normalize_person_text_shape (py_str name)) as [Hjoin Hchars].
  cbv zeta. split_and!; [exact Hjoin| |apply lower_fixed].
  - eapply Forall_impl; [exact Hchars|]. intros c Hc. exact (proj1 Hc).
  - eapply Forall_impl; [exact Hchars|]. intros c Hc. exact (proj2 Hc).
Qed.

Lemma normalize_job_text_shape (title : text) :
  join " " (split (normalize_job_text title)) = normalize_job_text title /\
  Forall (fun c => is_upper c = false) (normalize_job_text title).
Proof.
  unfold normalize_job_text. cbv zeta. split.
  - rewrite collapse_strip. apply join_split_fixed.
  - apply strip_chars_Forall. apply re_sub_Forall; [by repeat constructor|].
    apply foldl_preserves.
    + apply foldl_preserves.
      * apply strip_chars_Forall, lower_not_upper.
      * intros a kv Hkv Ha. apply re_sub_Forall; [|done].
        assert (Hall : forallb (fun kv : text * text =>
                                  forallb (fun c => negb (is_upper c)) (snd kv))
                         level_map = true) by (vm_compute; reflexivity).
        rewrite forallb_forall in Hall. specialize (Hall kv Hkv).
        apply forallb_Forall in Hall. eapply Forall_impl; [exact Hall|].
        intros c Hc. by apply negb_true_iff.
    + intros a b _ Ha. by apply re_sub_Forall; [repeat constructor|].
Qed.

(** X4.  A normalised job title [out] is [' '.join(out.split())], and
    [out.lower() == out]. *)
Theorem job_title_shape (title : cell) :
  let out := normalize_job_title title in
  join " " (split out) = out /\ lower out = out.
Proof.
  unfold normalize_job_title. destruct (isna title); [by split|].
  destruct (normalize_job_text_shape (py_str title)) as [Hjoin Hchars].
  cbv zeta. split; [done|]. by apply lower_fixed.
Qed.

Lemma app_company_text_shape (s : text) :
  join " " (split (App.normalize_company_text s)) = App.normalize_company_text s /\
  Forall (fun c => (is_word c = true \/ c = blank) /\ is_upper c = false)
    (App.normalize_company_text s).
Proof.
  unfold App.normalize_company_text. cbv zeta. split.
  - rewrite collapse_strip. apply join_split_fixed.
  - apply strip_chars_Forall.
    set (t := re_sub (Cls (fun c => negb (is_word c || is_space c))) "" _).
    assert (Ht : Forall (fun c => negb (is_word c || is_space c) = false
                                  /\ is_upper c = false) t).
    { apply Forall_and. split; [apply re_sub_class_free; constructor|].
      apply re_sub_Forall; [constructor|].
      apply foldl_preserves; [apply lower_not_upper|].
      intros a b _ Ha. destruct (ends_with b a); [|done].
      by apply Forall_take. }
    apply Forall_and. split.
    + assert (Hblank : blanks_are_spaces (re_sub (Plus is_space) " " t)).
      { apply sub_from_class with (p := is_space); [by right|by repeat constructor|].
        intros c Hc Hc'. congruence. }
      assert (Hword : Forall (fun c => negb (is_word c || is_space c) = false)
                        (re_sub (Plus is_space) " " t)).
      { apply re_sub_Forall; [by repeat constructor|].
        eapply Forall_impl; [exact Ht|]. by intros c [? _]. }
      eapply Forall_impl; [apply Forall_and; split; [exact Hblank|exact Hword]|].
      intros c [Hb Hw]. cbn beta in *.
      destruct (is_word c); [by left|]. right. apply Hb.
      by destruct (is_space c).
    + apply re_sub_Forall; [by repeat constructor|].
      eapply Forall_impl; [exact Ht|]. by intros c [_ ?].
Qed.

(** X5.  A company name [out] normalised by [app.py] is
    [' '.join(out.split())]; its characters are word characters and
    single spaces, and [out.lower() == out]. *)
Theorem app_company_name_shape (name : cell) :
  let out := App.normalize_company_name name in
  join " " (split out) = out /\
  Forall (fun c => is_word c = true \/ c = blank) out /\
  lower out = out.
Proof.
  destruct name as [s|]; [|split_and!; reflexivity || constructor]. cbn [App.normalize_company_name].
  destruct (app_company_text_shape s) as [Hjoin Hchars].
  cbv zeta. split_and!; [exact Hjoin| |apply lower_fixed].
  - eapply Forall_impl; [exact Hchars|]. intros c Hc. exact (proj1 Hc).
  - eapply Forall_impl; [exact Hchars|]. intros c Hc. exact (proj2 Hc).
Qed.

(** X6.  The fields of the key [get_person_key] builds for a row are
    normalised: the two names and the job title are
    [' '.join(s.split())] of themselves, the LinkedIn address is
    trimmed, the e-mail name has no digit and only word characters and
    blanks, and [lower()] leaves each of the five fields unchanged. *)
Theorem person_key_is_normalised (row : contact) :
  let key := get_person_key row in
  join " " (split (first_name key)) = first_name key /\
  join " " (split (last_name key)) = last_name key /\
  join " " (split (job_title key)) = job_title key /\
  strip (linkedin key) = linkedin key /\
  Forall (fun c => is_digit c = false /\ (is_word c || is_space c) = true)
    (email_name key) /\
  Forall (fun field => lower field = field)
    [first_name key; last_name key; job_title key; linkedin key; email_name key].
Proof.
  unfold get_person_key. cbv zeta.
  set (names := if truthy (safe_get_column row "First Name") && _ then _ else _).
  destruct names as [first last].
  cbn [first_name last_name job_title linkedin email_name].
  destruct (normalize_person_text_shape first) as [Hf1 Hf2].
  destruct (normalize_person_text_shape last) as [Hl1 Hl2].
  destruct (normalize_job_text_shape (safe_get_column row "Position")) as [Hj1 Hj2].
  assert (Hmail : Forall (fun c => (is_digit c = false /\
                                    negb (is_word c || is_space c) = false) /\
                                   is_upper c = false)
            (if truthy (safe_get_column row "Email Address")
                && contains [at_sign] (safe_get_column row "Email Address")
             then re_sub (Cls (fun c => negb (is_word c || is_space c))) ""
                    (re_sub (Plus is_digit) ""
                       (re_sub email_prefix_re ""
                          (lower (default [] (head (split_on at_sign
                             (safe_get_column row "Email Address")))))))
             else [])).
  { destruct (_ && _); [|constructor].
    apply Forall_and. split; [apply Forall_and; split|].
    - apply re_sub_Forall; [constructor|]. apply re_sub_plus_free. constructor.
    - apply re_sub_class_free. constructor.
    - repeat (apply re_sub_Forall; [constructor|]). apply lower_not_upper. }
  split_and!; try done.
  - apply strip_chars_fixed. by intros c _ Hc.
  - eapply Forall_impl; [exact Hmail|]. intros c [[Hd Hw] _]. split; [done|].
    by apply negb_false_iff.
  - repeat constructor; apply lower_fixed.
    + eapply Forall_impl; [exact Hf2|]. by intros c [_ ?].
    + eapply Forall_impl; [exact Hl2|]. by intros c [_ ?].
    + done.
    + apply strip_chars_Forall, lower_not_upper.
    + eapply Forall_impl; [exact Hmail|]. by intros c [_ ?].
Qed.

End NormaliserShape.

(* ================================================================== *)
(** ** Names that a second normalisation leaves unchanged

    A stable name goes through the second pass statement by statement.
    The ampersand pass may put a blank before a leading "&" and after a
    trailing one; the statements that follow find nothing more in the
    padded name than in the name, and [split] and [join], or [strip],
    take the blanks away. *)
(* ================================================================== *)

Section SingleSpaced.
Variable name : text.
Hypothesis Hname : single_spaced name = true.

Lemma single_spaced_join : join " " (split name) = name.
Proof. by apply text_eqb_eq. Qed.

Lemma single_spaced_tokens :
  Forall (fun w => w <> [] /\ free_of is_space w) (split name).
Proof.
  eapply Forall_impl;
    [apply (split_acc_tokens (fun _ => True) name []);
     [by apply Forall_true|constructor|constructor]|].
  by intros w (? & ? & _).
Qed.

Lemma single_spaced_blanks :
  Forall (fun c => is_space c = true -> c = Leadmatcher.blank) name.
Proof.
  rewrite <- single_spaced_join. apply join_Forall; [done|].
  eapply Forall_impl; [apply single_spaced_tokens|]. intros w [_ Hw].
  eapply Forall_impl; [exact Hw|]. intros c Hc Hc'. congruence.
Qed.

Lemma single_spaced_strip : strip name = name.
Proof.
  rewrite <- single_spaced_join at 2. rewrite <- collapse_strip.
  rewrite <- single_spaced_join at 1. rewrite <- collapse_strip.
  unfold strip. apply strip_chars_fixed. by intros c _ Hc.
Qed.

End SingleSpaced.

Lemma squeeze_word (w : text) (b : bool) (rest : text) :
  w <> [] -> free_of is_space w -> squeeze b (w ++ rest) = w ++ squeeze false rest.
Proof.
  intros Hne Hw. revert b. induction Hw as [|c w Hc Hw IH]; intros b; [done|].
  cbn [app squeeze]. rewrite Hc. f_equal.
  destruct w as [|d w]; [done|]. by apply IH.
Qed.

Lemma squeeze_join (ws : list text) :
  Forall (fun w => w <> [] /\ free_of is_space w) ws ->
  squeeze false (join " " ws) = join " " ws.
Proof.
  induction 1 as [|w ws [Hne Hw] Hws IH]; [done|].
  destruct ws as [|w2 ws].
  - cbn [join]. rewrite <- (app_nil_r w). by rewrite squeeze_word.
  - rewrite join_cons, squeeze_word by done. f_equal.
    cbn [squeeze]. rewrite blank_is_space. f_equal.
    inversion Hws as [|? ? [Hne2 Hw2] _]; subst.
    destruct ws as [|w3 ws].
    + cbn [join] in *. rewrite <- (app_nil_r w2) in IH |- *.
      rewrite squeeze_word in IH |- * by done. done.
    + rewrite join_cons in IH |- *. rewrite squeeze_word in IH |- * by done. done.
Qed.

Lemma collapse_fixed (name : text) :
  single_spaced name = true -> re_sub (Plus is_space) " " name = name.
Proof.
  intros Hname. rewrite re_sub_squeeze.
  rewrite <- (single_spaced_join name Hname).
  apply squeeze_join, single_spaced_tokens.
Qed.

(** A run of one character is replaced by itself. *)
Lemma sub_from_plus_single p (c : ascii) : p c = true ->
  forall s prev,
    Forall (fun d => p d = true -> d = c) s ->
    (forall a b, s <> a ++ c :: c :: b) ->
    sub_from (Plus p) (fun _ => [c]) prev s 0 = s.
Proof.
  intros Hc. induction s as [|d s IH]; intros prev Hall Hadj.
  - done.
  - inversion Hall as [|? ? Hd Hs]; subst.
    assert (Hadj' : forall a b, s <> a ++ c :: c :: b).
    { intros a b ->. by apply (Hadj (d :: a) b). }
    cbn [sub_from]. rewrite match_at_plus.
    destruct (p d) eqn:Hpd; [|by rewrite IH].
    rewrite (Hd eq_refl) in *.
    assert (run p s = 0%nat) as ->.
    { destruct s as [|e s]; [done|]. cbn [run].
      destruct (p e) eqn:Hpe; [|done].
      inversion Hs as [|? ? He _]; subst. rewrite (He Hpe) in Hadj.
      by destruct (Hadj [] s). }
    cbn [app]. f_equal. destruct s as [|e s]; [done|]. by apply IH.
Qed.

Lemma contains_app (kw a b : text) : contains kw (a ++ kw ++ b) = true.
Proof. apply contains_spec. by exists a, b. Qed.

Lemma dots_fixed (name : text) :
  contains ".." name = false ->
  re_sub (Plus (fun c => bool_decide (c = Leadmatcher.dot))) "." name = name.
Proof.
  intros Hdots. apply (sub_from_plus_single _ Leadmatcher.dot).
  - by apply bool_decide_eq_true_2.
  - apply List.Forall_forall. intros d _ Hd. by apply bool_decide_eq_true in Hd.
  - intros a b ->. pose proof (contains_app ".." a b) as H.
    change (contains ".." (a ++ Leadmatcher.dot :: Leadmatcher.dot :: b) = true) in H.
    congruence.
Qed.

Lemma last_snoc (s : text) (d c : ascii) : List.last (s ++ [d]) c = d.
Proof. apply last_last. Qed.

Lemma ends_kept_spec p (s : text) :
  ends_kept p s = true ->
  s = [] \/ (exists c s', s = c :: s' /\ p c = false) /\
            (exists s' d, s = s' ++ [d] /\ p d = false).
Proof.
  destruct s as [|c s]; [by left|]. cbn [ends_kept].
  rewrite andb_true_iff, !negb_true_iff. intros [Hc Hd]. right. split; [by eauto|].
  destruct (exists_last (l := c :: s)) as (s' & d & Hs); [done|].
  rewrite Hs in Hd |- *. rewrite last_snoc in Hd. by eauto.
Qed.

Lemma tidy_fixed (name : text) :
  single_spaced name = true -> contains ".." name = false ->
  ends_kept is_dot name = true -> Leadmatcher.tidy name = name.
Proof.
  intros Hname Hdots Hends. unfold Leadmatcher.tidy.
  rewrite collapse_fixed, dots_fixed by done.
  apply strip_chars_ends.
  pose proof (single_spaced_strip name Hname) as Hstrip.
  destruct (strip_chars_shape is_space name) as [Hnil|[(c & s1 & E1 & Hc) (s2 & d & E2 & Hd)]];
    fold (strip name) in *; rewrite Hstrip in *; [by left|right].
  apply ends_kept_spec in Hends as [->|[(c' & s1' & E1' & Hc') (s2' & d' & E2' & Hd')]];
    [done|].
  assert (c' = c) by congruence. subst c'.
  assert (d' = d) as ->.
  { rewrite E2 in E2'. by apply app_inj_tail in E2' as [_ ->]. }
  unfold is_dot in *. unfold Leadmatcher.is_blank_or_dot. split.
  - exists c, s1. split; [done|]. rewrite Hc'.
    destruct (bool_decide (c = Leadmatcher.blank)) eqn:Hb; [|done].
    apply bool_decide_eq_true in Hb. by subst c.
  - exists s2, d. split; [done|]. rewrite Hd'.
    destruct (bool_decide (d = Leadmatcher.blank)) eqn:Hb; [|done].
    apply bool_decide_eq_true in Hb. by subst d.
Qed.

Lemma ends_with_app (suf a : text) : ends_with suf (a ++ suf) = true.
Proof. unfold ends_with. rewrite rev_app_distr. apply starts_with_spec. eauto. Qed.

Lemma join_head (c : ascii) (w : text) (ws : list text) :
  exists rest, join " " ((c :: w) :: ws) = c :: rest.
Proof. destruct ws as [|w2 ws]; [by exists w|]. rewrite join_cons. by eexists. Qed.

Lemma join_last_word (ws : list text) (w : text) :
  last ws = Some w -> exists a, join " " ws = a ++ w.
Proof.
  induction ws as [|x ws IH]; [done|]. destruct ws as [|x2 ws].
  - intros [= ->]. by exists [].
  - intros Hlast. destruct (IH Hlast) as [a Ha]. rewrite join_cons, Ha.
    exists (x ++ Leadmatcher.blank :: a). by rewrite <- app_assoc.
Qed.

(** *** The ampersand *)

(** [\s*\&\s*] finds nothing at a blank before a word. *)
Lemma amp_match_none prev (c : ascii) (rest : text) :
  space_or_amp c = false ->
  match_at Leadmatcher.amp_re prev (Leadmatcher.blank :: c :: rest) = None.
Proof.
  intros Hc. apply orb_false_iff in Hc as [Hs Ha].
  apply bool_decide_eq_false in Ha.
  unfold match_at, Leadmatcher.amp_re. cbn [rmatch star_match].
  rewrite blank_is_space, Hs. cbn [app flat_map fst snd rmatch lit_match list_ascii_of_string].
  case_bool_decide as H1; [by destruct Ha|].
  cbn [flat_map app]. by case_bool_decide.
Qed.

(** At " & " before a word it finds these three characters, and at "& "
    these two. *)
Lemma amp_match_spaced prev (c : ascii) (rest : text) :
  is_space c = false ->
  match_at Leadmatcher.amp_re prev
    (Leadmatcher.blank :: Leadmatcher.amp :: Leadmatcher.blank :: c :: rest) = Some 3%nat.
Proof.
  intros Hs. unfold match_at, Leadmatcher.amp_re. cbn [rmatch star_match].
  rewrite blank_is_space. change (is_space Leadmatcher.amp) with false.
  cbn [app flat_map fst snd rmatch lit_match list_ascii_of_string star_match].
  rewrite bool_decide_eq_true_2 by done.
  cbn [app flat_map fst snd rmatch lit_match list_ascii_of_string star_match].
  rewrite blank_is_space, Hs. cbn [app snd length]. f_equal. lia.
Qed.

Lemma amp_match_first prev (c : ascii) (rest : text) :
  is_space c = false ->
  match_at Leadmatcher.amp_re prev
    (Leadmatcher.amp :: Leadmatcher.blank :: c :: rest) = Some 2%nat.
Proof.
  intros Hs. unfold match_at, Leadmatcher.amp_re. cbn [rmatch star_match].
  change (is_space Leadmatcher.amp) with false.
  cbn [app flat_map fst snd rmatch lit_match list_ascii_of_string star_match].
  rewrite bool_decide_eq_true_2 by done.
  cbn [app flat_map fst snd rmatch lit_match list_ascii_of_string star_match].
  rewrite blank_is_space, Hs. cbn [app snd length]. f_equal. lia.
Qed.

Lemma amp_match_last prev :
  match_at Leadmatcher.amp_re prev [Leadmatcher.blank; Leadmatcher.amp] = Some 2%nat.
Proof. reflexivity. Qed.

Lemma amp_match_alone prev :
  match_at Leadmatcher.amp_re prev [Leadmatcher.amp] = Some 1%nat.
Proof. reflexivity. Qed.

Lemma amp_word_free (w : text) :
  free_of is_space w -> existsb is_amp w = false -> free_of space_or_amp w.
Proof.
  intros Hsp Hw. unfold free_of in *.
  rewrite List.Forall_forall in Hsp |- *. intros c Hc. unfold space_or_amp.
  rewrite (Hsp c Hc). cbn [orb].
  destruct (bool_decide (c = Leadmatcher.amp)) eqn:Ha; [|done].
  assert (existsb is_amp w = true); [|congruence].
  apply existsb_exists. by exists c.
Qed.

(** What [re.sub(r'\s*\&\s*', ' & ', name)] makes of words separated by
    single blanks: the same, with a blank before a leading "&" and after
    a trailing one. *)
Lemma amp_spaced_from (n : nat) : forall (ws : list text) prev,
  (length ws <= n)%nat ->
  Forall (fun w => w <> [] /\ free_of is_space w) ws ->
  amp_apart ws = true ->
  sub_from Leadmatcher.amp_re (fun _ => " & ") prev (join " " ws) 0
  = pad_before ws ++ join " " ws ++ pad_after ws.
Proof.
  induction n as [|n IH]; intros ws prev Hlen Hws Hamp.
  { destruct ws; [done|simpl in Hlen; lia]. }
  destruct ws as [|a ws]; [done|].
  apply Forall_cons in Hws as [[Hne Hsp] Hws].
  cbn [amp_apart] in Hamp. apply andb_true_iff in Hamp as [Ha Hamp].
  unfold pad_before. destruct (text_eqb a "&") eqn:Haa.
  - (* a leading "&" *)
    apply text_eqb_eq in Haa. subst a. destruct ws as [|b ws].
    + cbn [join list_ascii_of_string sub_from].
      change (match_at Leadmatcher.amp_re prev ["&"%char])
        with (match_at Leadmatcher.amp_re prev [Leadmatcher.amp]).
      rewrite amp_match_alone. reflexivity.
    + apply negb_true_iff in Ha.
      pose proof Hws as Hws'. apply Forall_cons in Hws' as [[Hneb Hspb] _].
      destruct b as [|c b]; [done|]. apply Forall_cons in Hspb as [Hc _].
      specialize (IH ((c :: b) :: ws) (Some Leadmatcher.blank)
                    ltac:(simpl in *; lia) Hws Hamp).
      unfold pad_before in IH. rewrite Ha in IH.
      change (pad_after (list_ascii_of_string "&" :: (c :: b) :: ws))
        with (pad_after ((c :: b) :: ws)).
      rewrite join_cons. destruct (join_head c b ws) as [rest Hrest].
      rewrite Hrest in IH |- *.
      change (list_ascii_of_string "&" ++ Leadmatcher.blank :: c :: rest)
        with (Leadmatcher.amp :: Leadmatcher.blank :: c :: rest).
      cbn [sub_from]. rewrite amp_match_first by done.
      apply (f_equal (fun t : text => list_ascii_of_string " & " ++ t)) in IH.
      exact IH.
  - (* a word without "&" *)
    apply negb_true_iff in Ha.
    pose proof (amp_word_free a Hsp Ha) as Hfree. cbn [app].
    destruct ws as [|b ws].
    { cbn [join]. unfold pad_after. cbn [last]. rewrite Haa, app_nil_r.
      apply (sub_from_free is_amp); [done|].
      eapply Forall_impl; [exact Hfree|]. intros c Hc.
      by apply orb_false_iff in Hc as [_ ?]. }
    change (pad_after (a :: b :: ws)) with (pad_after (b :: ws)).
    rewrite join_cons.
    destruct (sub_from_inert space_or_amp Leadmatcher.amp_re (fun _ => " & ")
                ltac:(by vm_compute) ltac:(done) a
                (Leadmatcher.blank :: join " " (b :: ws)) prev Hfree) as [prev' ->].
    rewrite <- app_assoc. f_equal. cbn [app].
    pose proof Hws as Hws'. apply Forall_cons in Hws' as [[Hneb Hspb] Hws''].
    pose proof Hamp as Hamp'. cbn [amp_apart] in Hamp'.
    apply andb_true_iff in Hamp' as [Hb Hamp''].
    destruct (text_eqb b "&") eqn:Hbb.
    + apply text_eqb_eq in Hbb. subst b. destruct ws as [|d ws].
      * cbn [join list_ascii_of_string sub_from].
        change (match_at Leadmatcher.amp_re prev' [" "%char; "&"%char])
          with (match_at Leadmatcher.amp_re prev' [Leadmatcher.blank; Leadmatcher.amp]).
        rewrite amp_match_last. reflexivity.
      * apply negb_true_iff in Hb.
        pose proof Hws'' as Hd. apply Forall_cons in Hd as [[Hned Hspd] _].
        destruct d as [|c d]; [done|]. apply Forall_cons in Hspd as [Hc _].
        specialize (IH ((c :: d) :: ws) (Some Leadmatcher.blank)
                      ltac:(simpl in *; lia) Hws'' Hamp'').
        unfold pad_before in IH. rewrite Hb in IH.
        change (pad_after (list_ascii_of_string "&" :: (c :: d) :: ws))
          with (pad_after ((c :: d) :: ws)).
        rewrite join_cons. destruct (join_head c d ws) as [rest Hrest].
        rewrite Hrest in IH |- *.
        change (list_ascii_of_string "&" ++ Leadmatcher.blank :: c :: rest)
          with (Leadmatcher.amp :: Leadmatcher.blank :: c :: rest).
        cbn [sub_from]. rewrite amp_match_spaced by done.
        apply (f_equal (fun t : text => list_ascii_of_string " & " ++ t)) in IH.
        exact IH.
    + destruct b as [|c b]; [done|]. apply negb_true_iff in Hb.
      assert (Hc : space_or_amp c = false).
      { apply amp_word_free in Hb; [|done]. by apply Forall_cons in Hb as [? _]. }
      specialize (IH ((c :: b) :: ws) (Some Leadmatcher.blank)
                    ltac:(simpl in *; lia) Hws Hamp).
      unfold pad_before in IH. rewrite Hbb in IH.
      destruct (join_head c b ws) as [rest Hrest]. rewrite Hrest in IH |- *.
      cbn [sub_from]. rewrite amp_match_none by done.
      apply (f_equal (cons Leadmatcher.blank)) in IH. exact IH.
Qed.

(** *** Blanks at the ends *)

Lemma split_acc_snoc (s : text) (c : ascii) : is_space c = true ->
  forall cur, split_acc cur (s ++ [c]) = split_acc cur s.
Proof.
  intros Hc. induction s as [|a s IH]; intros cur; cbn [app split_acc].
  - rewrite Hc. by destruct cur.
  - destruct (is_space a); [destruct cur|]; by rewrite IH.
Qed.

Lemma strip_snoc (s : text) (c : ascii) :
  is_space c = true -> strip (s ++ [c]) = strip s.
Proof.
  intros Hc. unfold strip, strip_chars. rewrite lstrip_app. cbn [lstrip]. rewrite Hc.
  destruct (lstrip is_space s) as [|d l]; [done|].
  unfold rstrip. rewrite rev_app_distr. cbn [rev app lstrip]. by rewrite Hc.
Qed.

Lemma occurs_unpad_before (kw s : text) :
  starts_with " " kw = false -> kw <> [] ->
  occurs kw (Leadmatcher.blank :: s) -> occurs kw s.
Proof.
  intros Hk Hne [a [b Hab]]. destruct a as [|x a].
  - destruct kw as [|k kw]; [done|]. injection Hab as <- _.
    cbn in Hk. by rewrite bool_decide_eq_true_2 in Hk.
  - injection Hab as _ ->. by exists a, b.
Qed.

Lemma occurs_snoc (kw s : text) (c : ascii) :
  ends_with [c] kw = false -> kw <> [] -> occurs kw (s ++ [c]) -> occurs kw s.
Proof.
  intros Hk Hne [a [b Hab]]. destruct b as [|x b _] using rev_ind.
  - exfalso. destruct kw as [|z kw _] using rev_ind; [done|].
    rewrite app_nil_r, app_assoc in Hab. apply app_inj_tail in Hab as [_ ->].
    by rewrite (ends_with_app [z] kw) in Hk.
  - rewrite !app_assoc in Hab. apply app_inj_tail in Hab as [-> _].
    exists a, b. by rewrite <- app_assoc.
Qed.

(** A blank after a final "&" is part of no occurrence of a text that
    does not end in "& ". *)
Lemma occurs_unpad_after (kw s : text) :
  kw <> [] -> starts_with " " kw = false -> ends_with "& " kw = false ->
  occurs kw ((s ++ [Leadmatcher.amp]) ++ [Leadmatcher.blank]) ->
  occurs kw (s ++ [Leadmatcher.amp]).
Proof.
  intros Hne Hk1 Hk2 [a [b Hab]]. destruct b as [|x b _] using rev_ind.
  - exfalso. destruct kw as [|z kw _] using rev_ind; [done|].
    rewrite app_nil_r, app_assoc in Hab. apply app_inj_tail in Hab as [Hab <-].
    destruct kw as [|z' kw _] using rev_ind.
    + cbn in Hk1. by rewrite bool_decide_eq_true_2 in Hk1.
    + rewrite app_assoc in Hab. apply app_inj_tail in Hab as [_ <-].
      rewrite <- app_assoc in Hk2.
      change (kw ++ [Leadmatcher.amp] ++ [Leadmatcher.blank])
        with (kw ++ list_ascii_of_string "& ") in Hk2.
      by rewrite ends_with_app in Hk2.
  - rewrite !app_assoc in Hab. apply app_inj_tail in Hab as [-> _].
    exists a, b. by rewrite <- app_assoc.
Qed.

Lemma starts_with_snoc (kw : text) (c : ascii) : forall s,
  ~ In c kw -> starts_with kw (s ++ [c]) = true -> starts_with kw s = true.
Proof.
  induction kw as [|k kw IH]; intros s Hk; [done|].
  destruct s as [|x s]; cbn [app starts_with].
  - rewrite andb_true_iff, bool_decide_eq_true. intros [-> _]. destruct Hk. by left.
  - rewrite !andb_true_iff. intros [-> H]. split; [done|].
    apply IH; [|done]. intros Hin. apply Hk. by right.
Qed.

Section Padded.
Variable name : text.
Hypothesis Hname : single_spaced name = true.

Lemma amp_spaced :
  amp_apart (split name) = true ->
  re_sub Leadmatcher.amp_re " & " name = amp_padded name.
Proof.
  intros Hamp. unfold amp_padded. rewrite <- (single_spaced_join name Hname) at 1 3.
  apply (amp_spaced_from (length (split name))); [lia| |done].
  by apply single_spaced_tokens.
Qed.

Lemma pad_before_spec :
  pad_before (split name) = [] \/
  pad_before (split name) = [Leadmatcher.blank] /\ exists r, name = Leadmatcher.amp :: r.
Proof.
  pose proof (single_spaced_join name Hname) as Hjoin. unfold pad_before.
  destruct (split name) as [|w ws]; [by left|].
  destruct (text_eqb w "&") eqn:Hw; [right|by left]. split; [done|].
  apply text_eqb_eq in Hw. subst w. rewrite <- Hjoin.
  apply (join_head Leadmatcher.amp [] ws).
Qed.

Lemma pad_after_spec :
  pad_after (split name) = [] \/
  pad_after (split name) = [Leadmatcher.blank] /\ exists r, name = r ++ [Leadmatcher.amp].
Proof.
  pose proof (single_spaced_join name Hname) as Hjoin. unfold pad_after.
  destruct (last (split name)) as [w|] eqn:Hlast; [|by left].
  destruct (text_eqb w "&") eqn:Hw; [right|by left]. split; [done|].
  apply text_eqb_eq in Hw. subst w. rewrite <- Hjoin.
  by apply join_last_word.
Qed.

Lemma padded_split : split (amp_padded name) = split name.
Proof.
  unfold amp_padded.
  assert (Hbefore : forall s, split (Leadmatcher.blank :: s) = split s) by done.
  assert (Hafter : forall s, split (s ++ [Leadmatcher.blank]) = split s).
  { intros s. by apply split_acc_snoc. }
  destruct pad_before_spec as [->|[-> _]], pad_after_spec as [->|[-> _]];
    cbn [app]; by rewrite ?Hbefore, ?Hafter, ?app_nil_r.
Qed.

Lemma padded_strip : strip (amp_padded name) = name.
Proof.
  rewrite <- (single_spaced_strip name Hname) at 2. unfold amp_padded.
  assert (Hbefore : forall s, strip (Leadmatcher.blank :: s) = strip s) by done.
  assert (Hafter : forall s, strip (s ++ [Leadmatcher.blank]) = strip s).
  { intros s. by apply strip_snoc. }
  destruct pad_before_spec as [->|[-> _]], pad_after_spec as [->|[-> _]];
    cbn [app]; by rewrite ?Hbefore, ?Hafter, ?app_nil_r.
Qed.

Lemma padded_blanks :
  Forall (fun c => is_space c = true -> c = Leadmatcher.blank) (amp_padded name).
Proof.
  unfold amp_padded. pose proof (single_spaced_blanks name Hname) as Hb.
  destruct pad_before_spec as [->|[-> _]], pad_after_spec as [->|[-> _]];
    repeat (apply Forall_app; split); try done; by repeat constructor.
Qed.

Lemma padded_lower : lower name = name -> lower (amp_padded name) = amp_padded name.
Proof.
  intros Hlow. unfold amp_padded, lower in *. rewrite !map_app, Hlow.
  by destruct pad_before_spec as [->|[-> _]], pad_after_spec as [->|[-> _]].
Qed.

Lemma padded_occurs (kw : text) :
  kw <> [] -> starts_with " " kw = false -> ends_with "& " kw = false ->
  occurs kw (amp_padded name) <-> occurs kw name.
Proof.
  intros Hne Hk1 Hk2. unfold amp_padded. split.
  - intros Hocc.
    assert (Hocc' : occurs kw (name ++ pad_after (split name))).
    { destruct pad_before_spec as [Hp|[Hp _]]; rewrite Hp in Hocc; [done|].
      by apply occurs_unpad_before. }
    destruct pad_after_spec as [Hp|[Hp [r Hr]]]; rewrite Hp in Hocc'.
    + by rewrite app_nil_r in Hocc'.
    + rewrite Hr in Hocc' |- *. by apply occurs_unpad_after.
  - intros [a [b ->]]. exists (pad_before (split (a ++ kw ++ b)) ++ a),
      (b ++ pad_after (split (a ++ kw ++ b))). by rewrite <- !app_assoc.
Qed.

Lemma padded_contains (kw : text) :
  truthy kw && negb (starts_with " " kw) && negb (ends_with "& " kw) = true ->
  contains kw (amp_padded name) = contains kw name.
Proof.
  rewrite !andb_true_iff, !negb_true_iff. intros [[Hne Hk1] Hk2].
  assert (kw <> []) as Hne' by (by destruct kw).
  apply eq_true_iff_eq. rewrite !contains_spec. by apply padded_occurs.
Qed.

(** [^the\s+] *)
Lemma padded_leading_the :
  starts_with "the " name = false ->
  re_sub Leadmatcher.leading_the_re "" (amp_padded name) = amp_padded name.
Proof.
  intros Hthe. unfold Leadmatcher.leading_the_re. rewrite re_sub_bol.
  rewrite match_at_none; [done|]. apply no_result. intros q Hq.
  apply rmatch_seq in Hq as [q0 [Hq0 Hq]]. destruct Hq0 as [<-|[]].
  cbn [fst snd] in Hq. apply rmatch_seq in Hq as [q1 [Hq1 Hq]].
  apply lit_match_spec in Hq1.
  apply rmatch_plus in Hq as [c [w [Hw [Hc _]]]].
  rewrite Hw in Hq1. clear Hw.
  pose proof padded_split as Hsplit. rewrite Hq1 in Hsplit.
  rewrite split_word_then_space in Hsplit; [|done|by repeat constructor|done].
  pose proof (single_spaced_join name Hname) as Hjoin.
  unfold amp_padded, pad_before, pad_after in Hq1.
  rewrite <- Hsplit in Hq1, Hjoin. cbn [text_eqb] in Hq1.
  assert (starts_with "the " name = true); [|congruence].
  apply starts_with_spec. rewrite <- Hjoin.
  destruct (split (w ++ snd q)) as [|t ts].
  - exfalso. cbn [last join] in *. rewrite <- Hjoin in Hq1. discriminate.
  - eexists. rewrite join_cons. reflexivity.
Qed.

Lemma clean_company_padded :
  clean_stable name = true -> Leadmatcher.clean_company name = amp_padded name.
Proof.
  unfold clean_stable. rewrite !andb_true_iff.
  intros [[[[Hlow Hjunk] _] Hamp] Hthe].
  apply text_eqb_eq in Hlow. apply negb_true_iff in Hthe.
  unfold Leadmatcher.clean_company. cbv zeta.
  rewrite Hlow, single_spaced_strip by done.
  rewrite (re_sub_free Leadmatcher.company_junk (Cls Leadmatcher.company_junk)).
  - rewrite amp_spaced by done. by apply padded_leading_the.
  - by vm_compute.
  - apply forallb_Forall in Hjunk. eapply Forall_impl; [exact Hjunk|].
    intros c Hc. by apply negb_true_iff.
Qed.

End Padded.

(** *** The general branch *)

Lemma single_spaced_blank_at (name a b : text) (c : ascii) :
  single_spaced name = true -> name = a ++ c :: b -> is_space c = true ->
  c = Leadmatcher.blank.
Proof.
  intros Hname Hab Hc. pose proof (single_spaced_blanks name Hname) as Hb.
  rewrite Hab in Hb. apply Forall_app in Hb as [_ Hb].
  apply Forall_cons in Hb as [Hcb _]. by apply Hcb.
Qed.

Lemma abbreviations_fixed (name : text) :
  single_spaced name = true ->
  forallb (fun w => negb (existsb (text_eqb w) (map fst Leadmatcher.abbrev_map)))
    (split name) = true ->
  Leadmatcher.expand_abbreviations name = name.
Proof.
  intros Hname Hall. unfold Leadmatcher.expand_abbreviations.
  rewrite <- (single_spaced_join name Hname) at 2. f_equal.
  rewrite <- (map_id (split name)) at 2. apply map_ext_in. intros w Hw.
  rewrite forallb_forall in Hall. specialize (Hall w Hw).
  apply negb_true_iff in Hall.
  rewrite table_get_none; [done|]. intros Hin.
  apply existsb_text_eqb in Hin. congruence.
Qed.

(** [\s+{suffix}(?:\s+|$)] *)
Lemma suffix_fixed (name suffix : text) :
  single_spaced name = true ->
  contains (" " ++ suffix ++ " ") name = false ->
  ends_with (" " ++ suffix) name = false ->
  re_sub (Leadmatcher.suffix_re suffix) " " name = name.
Proof.
  intros Hname Hmid Hend. apply sub_from_no_match. intros a b prev Hab.
  apply match_at_none, no_result. intros q Hq.
  unfold Leadmatcher.suffix_re in Hq.
  apply rmatch_seq in Hq as [q1 [Hq1 Hq]].
  apply rmatch_plus in Hq1 as [c [w [Hw [Hc Hall]]]].
  apply rmatch_seq in Hq as [q2 [Hq2 Hq]].
  apply lit_match_spec in Hq2.
  destruct (spaces_snoc a c w Hc Hall) as [before [c1 [Hsn Hc1]]].
  assert (Hsplit : name = before ++ c1 :: suffix ++ snd q2).
  { rewrite Hab, Hw, Hq2.
    change (a ++ c :: w ++ suffix ++ snd q2) with (a ++ (c :: w) ++ suffix ++ snd q2).
    rewrite app_assoc, Hsn. by rewrite <- app_assoc. }
  pose proof (single_spaced_blank_at _ _ _ _ Hname Hsplit Hc1) as ->.
  assert (Hnext : snd q2 = [] \/
                  exists c2 rest, snd q2 = c2 :: rest /\ is_space c2 = true).
  { cbn [rmatch] in Hq. apply in_app_or in Hq as [Hq|Hq].
    - destruct (snd q2) as [|c2 r]; [done|]. destruct (is_space c2) eqn:Hc2; [|done].
      right. by exists c2, r.
    - destruct (snd q2) as [|c2 [|c3 r]]; [by left| |done].
      case_bool_decide as Hnl; [|done]. right. exists c2, []. by subst c2. }
  destruct Hnext as [Hnil|(c2 & rest & Hrest & Hc2)].
  - assert (ends_with (" " ++ suffix) name = true); [|congruence].
    rewrite Hsplit, Hnil, app_nil_r. apply (ends_with_app (" " ++ suffix) before).
  - assert (Hsplit2 : name = (before ++ Leadmatcher.blank :: suffix) ++ c2 :: rest).
    { rewrite Hsplit, Hrest. by rewrite <- app_assoc. }
    pose proof (single_spaced_blank_at _ _ _ _ Hname Hsplit2 Hc2) as ->.
    assert (contains (" " ++ suffix ++ " ") name = true); [|congruence].
    apply contains_spec. exists before, rest. rewrite Hsplit2.
    rewrite <- !app_assoc. reflexivity.
Qed.

Lemma insert_by_len_desc_In (x w : text) (l : list text) :
  In x (insert_by_len_desc w l) -> x = w \/ In x l.
Proof.
  induction l as [|y l IH]; simpl; [by intros [<-|[]]; left|].
  destruct (length y <=? length w)%nat; simpl; [by intros [<-|H]; [left|right]|].
  intros [<-|H]; [right; by left|]. destruct (IH H); [by left|right; by right].
Qed.

Lemma sorted_by_len_desc_In (x : text) (l : list text) :
  In x (sorted_by_len_desc l) -> In x l.
Proof.
  unfold sorted_by_len_desc. induction l as [|w l IH]; simpl; [done|].
  intros H. apply insert_by_len_desc_In in H as [->|H]; [by left|right; by apply IH].
Qed.

Lemma suffixes_fixed (name : text) :
  single_spaced name = true ->
  forallb (fun suffix => negb (contains (" " ++ suffix ++ " ") name)
                         && negb (ends_with (" " ++ suffix) name))
    Leadmatcher.suffixes = true ->
  Leadmatcher.strip_suffixes name = name.
Proof.
  intros Hname Hall. unfold Leadmatcher.strip_suffixes. apply foldl_fixed.
  intros suffix Hs. apply sorted_by_len_desc_In in Hs.
  rewrite forallb_forall in Hall. specialize (Hall suffix Hs).
  apply andb_true_iff in Hall as [H1 H2].
  apply suffix_fixed; [done| |]; by apply negb_true_iff.
Qed.

Section PaddedGeneral.
Variable name : text.
Hypothesis Hname : single_spaced name = true.

(** [\s*{div}\s+] *)
Lemma padded_division (div : text) :
  In div Leadmatcher.divisions -> contains (div ++ " ") name = false ->
  re_sub (Leadmatcher.division_re div) " " (amp_padded name) = amp_padded name.
Proof.
  intros Hdiv Hno. apply sub_from_no_match. intros a b prev Hab.
  apply match_at_none, no_result. intros q Hq.
  unfold Leadmatcher.division_re in Hq.
  apply rmatch_seq in Hq as [q1 [Hq1 Hq]].
  apply rmatch_suffix in Hq1 as [w1 Hw1].
  apply rmatch_seq in Hq as [q2 [Hq2 Hq]].
  apply lit_match_spec in Hq2.
  apply rmatch_plus in Hq as [c [w [Hw [Hc _]]]].
  assert (Hsplit : amp_padded name = (a ++ w1 ++ div) ++ c :: w ++ snd q).
  { rewrite Hab, Hw1, Hq2, Hw. by rewrite <- !app_assoc. }
  pose proof (padded_blanks name Hname) as Hb. rewrite Hsplit in Hb.
  apply Forall_app in Hb as [_ Hb]. apply Forall_cons in Hb as [Hcb _].
  rewrite (Hcb Hc) in Hsplit. clear Hcb.
  assert (contains (div ++ " ") (amp_padded name) = true) as Hin.
  { apply contains_spec. exists (a ++ w1), (w ++ snd q).
    rewrite Hsplit. by rewrite <- !app_assoc. }
  rewrite padded_contains in Hin; [congruence|done|].
  assert (Hall : forallb (fun div : text =>
                            truthy (div ++ " ") && negb (starts_with " " (div ++ " "))
                            && negb (ends_with "& " (div ++ " ")))
                   Leadmatcher.divisions = true) by (by vm_compute).
  rewrite forallb_forall in Hall. by apply Hall.
Qed.

Lemma padded_divisions :
  forallb (fun div => negb (contains (div ++ " ") name)) Leadmatcher.divisions = true ->
  Leadmatcher.strip_divisions (amp_padded name) = amp_padded name.
Proof.
  intros Hall. unfold Leadmatcher.strip_divisions. apply foldl_fixed.
  intros div Hdiv. rewrite forallb_forall in Hall.
  apply padded_division; [done|]. by apply negb_true_iff, Hall.
Qed.

Lemma padded_is_edu : Leadmatcher.is_edu (amp_padded name) = Leadmatcher.is_edu name.
Proof.
  unfold Leadmatcher.is_edu, Leadmatcher.edu_keywords. cbn [texts map existsb].
  by rewrite !padded_contains.
Qed.

Lemma padded_abbreviations :
  Leadmatcher.expand_abbreviations (amp_padded name)
  = Leadmatcher.expand_abbreviations name.
Proof. unfold Leadmatcher.expand_abbreviations. by rewrite padded_split. Qed.

(** A name without "qcr" that [general_stable] accepts goes through the
    general branch unchanged. *)
Lemma general_fixed :
  clean_stable name = true -> general_stable name = true ->
  Leadmatcher.normalize_company_text name = name.
Proof.
  intros Hclean Hgen.
  pose proof (clean_company_padded name Hname Hclean) as Hcc.
  unfold clean_stable in Hclean. rewrite !andb_true_iff in Hclean.
  destruct Hclean as [[[[Hlow _] _] _] _]. apply text_eqb_eq in Hlow.
  unfold general_stable in Hgen. rewrite !andb_true_iff in Hgen.
  destruct Hgen as [[[[[Hqcr Hdiv] Habb] Hsuf] Hdots] Hends].
  apply negb_true_iff in Hqcr. apply negb_true_iff in Hdots.
  unfold Leadmatcher.normalize_company_text. cbv zeta.
  rewrite Hcc, padded_lower, padded_contains, Hqcr by done.
  rewrite padded_is_edu, padded_divisions, padded_abbreviations by done.
  rewrite abbreviations_fixed by done.
  destruct (Leadmatcher.is_edu name); cbn [negb orb] in *.
  - by apply tidy_fixed.
  - rewrite suffixes_fixed by done. by apply tidy_fixed.
Qed.

End PaddedGeneral.

(** *** The QCR branch *)

Lemma lit_match_none (l : text) : forall prev s,
  starts_with l s = false -> lit_match l prev s = [].
Proof.
  induction l as [|c l IH]; intros prev s; simpl; [done|].
  destruct s as [|d s]; [done|]. case_bool_decide; [|done]. simpl. apply IH.
Qed.

Lemma starts_with_app (l l' s : text) :
  starts_with (l ++ l') s = true -> starts_with l s = true.
Proof.
  rewrite !starts_with_spec. intros [b ->]. exists (l' ++ b). by rewrite app_assoc.
Qed.

(** A name with "qcr" and without "holding": the pattern finds nothing. *)
Lemma qcr_without_holding (name : text) :
  contains "holding" name = false ->
  re_sub Leadmatcher.qcr_re "qcr holdings" name = name.
Proof.
  intros Hno. apply sub_from_no_match. intros a b prev Hab.
  apply match_at_none, no_result. intros q Hq.
  unfold Leadmatcher.qcr_re in Hq.
  apply rmatch_seq in Hq as [q1 [Hq1 Hq]]. apply lit_match_spec in Hq1.
  apply rmatch_seq in Hq as [q2 [Hq2 Hq]]. apply rmatch_suffix in Hq2 as [w Hw].
  apply rmatch_seq in Hq as [q3 [Hq3 Hq]]. apply lit_match_spec in Hq3.
  assert (contains "holding" name = true); [|congruence].
  apply contains_spec. exists (a ++ "qcr" ++ w), (snd q3).
  rewrite Hab, Hq1, Hw, Hq3. by rewrite <- !app_assoc.
Qed.

(** What is left of the pattern after "qcr holdings" takes nothing from a
    rest that does not begin with a blank or with "inc". *)
Lemma qcr_tail_match prev (rest : text) :
  starts_with "inc" rest = false ->
  match rest with [] => true | c :: _ => negb (is_space c) end = true ->
  rmatch (Star is_space >> Opt (Alt (Lit "inc") (Lit "incorporated"))) prev rest
  = [(prev, rest)].
Proof.
  intros Hinc Hsp.
  assert (star_match is_space prev rest = [(prev, rest)]) as Hstar.
  { destruct rest as [|c rest]; [done|]. apply negb_true_iff in Hsp.
    cbn [star_match]. by rewrite Hsp. }
  cbn [rmatch]. rewrite Hstar. cbn [flat_map fst snd rmatch].
  rewrite !lit_match_none; [done| |done].
  destruct (starts_with "incorporated" rest) eqn:H; [|done].
  apply (starts_with_app "inc" "orporated") in H. congruence.
Qed.

Lemma lit_match_app (l : text) : forall prev s,
  exists p, lit_match l prev (l ++ s) = [(p, s)].
Proof.
  induction l as [|c l IH]; intros prev s; cbn [lit_match app]; [by eexists|].
  rewrite bool_decide_eq_true_2 by done. apply IH.
Qed.

Lemma rmatch_lit_seq (l : text) r prev (s : text) :
  exists p, rmatch (Lit l >> r) prev (l ++ s) = rmatch r p s.
Proof.
  destruct (lit_match_app l prev s) as [p Hp]. exists p.
  change (rmatch (Lit l >> r) prev (l ++ s))
    with (flat_map (fun q : pos => rmatch r (fst q) (snd q)) (lit_match l prev (l ++ s))).
  rewrite Hp. cbn [flat_map fst snd]. apply app_nil_r.
Qed.

Lemma rmatch_spaces_seq r prev (c : ascii) (s : text) :
  is_space c = false ->
  rmatch (Star is_space >> r) prev (Leadmatcher.blank :: c :: s)
  = rmatch r (Some Leadmatcher.blank) (c :: s)
    ++ rmatch r prev (Leadmatcher.blank :: c :: s).
Proof.
  intros Hc.
  change (rmatch (Star is_space >> r) prev (Leadmatcher.blank :: c :: s))
    with (flat_map (fun q : pos => rmatch r (fst q) (snd q))
            (star_match is_space prev (Leadmatcher.blank :: c :: s))).
  cbn [star_match]. rewrite blank_is_space, Hc. cbn [app flat_map fst snd].
  by rewrite app_nil_r.
Qed.

Lemma rmatch_opt_seq (l : text) r prev (s : text) :
  exists p, rmatch (Opt (Lit l) >> r) prev (l ++ s)
            = rmatch r p s ++ rmatch r prev (l ++ s).
Proof.
  destruct (lit_match_app l prev s) as [p Hp]. exists p.
  change (rmatch (Opt (Lit l) >> r) prev (l ++ s))
    with (flat_map (fun q : pos => rmatch r (fst q) (snd q))
            (lit_match l prev (l ++ s) ++ [(prev, l ++ s)])).
  rewrite Hp. cbn [app flat_map fst snd]. by rewrite app_nil_r.
Qed.

(** At "qcr holdings" the pattern takes these twelve characters. *)
Lemma qcr_holdings_match prev (rest : text) :
  starts_with "inc" rest = false ->
  match rest with [] => true | c :: _ => negb (is_space c) end = true ->
  match_at Leadmatcher.qcr_re prev ("qcr holdings" ++ rest) = Some 12%nat.
Proof.
  intros Hinc Hsp. unfold match_at, Leadmatcher.qcr_re.
  change (list_ascii_of_string "qcr holdings" ++ rest)
    with (list_ascii_of_string "qcr" ++
          Leadmatcher.blank :: ascii_of_N 104 ::
            list_ascii_of_string "olding" ++ list_ascii_of_string "s" ++ rest).
  destruct (rmatch_lit_seq "qcr"
              (Star is_space >> Lit "holding" >> Opt (Lit "s") >> Star is_space >>
               Opt (Alt (Lit "inc") (Lit "incorporated")))
              prev (Leadmatcher.blank :: ascii_of_N 104 ::
                    list_ascii_of_string "olding" ++ list_ascii_of_string "s" ++ rest))
    as [p1 ->].
  rewrite rmatch_spaces_seq by done.
  change (ascii_of_N 104 :: list_ascii_of_string "olding" ++
          list_ascii_of_string "s" ++ rest)
    with (list_ascii_of_string "holding" ++ list_ascii_of_string "s" ++ rest).
  destruct (rmatch_lit_seq "holding"
              (Opt (Lit "s") >> Star is_space >>
               Opt (Alt (Lit "inc") (Lit "incorporated")))
              (Some Leadmatcher.blank) (list_ascii_of_string "s" ++ rest)) as [p2 ->].
  destruct (rmatch_opt_seq "s"
              (Star is_space >> Opt (Alt (Lit "inc") (Lit "incorporated")))
              p2 rest) as [p3 ->].
  rewrite qcr_tail_match by done. cbn [app snd].
  cbn [app list_ascii_of_string length]. f_equal. lia.
Qed.

Lemma qcr_no_further_match (rest : text) :
  contains "qcr" rest = false -> forall prev,
  sub_from Leadmatcher.qcr_re (fun _ => "qcr holdings") prev rest 0 = rest.
Proof.
  intros Hno prev. apply sub_from_no_match. intros a b prev' Hab.
  apply match_at_none, no_result. intros q Hq.
  unfold Leadmatcher.qcr_re in Hq.
  apply rmatch_seq in Hq as [q1 [Hq1 _]]. apply lit_match_spec in Hq1.
  assert (contains "qcr" rest = true); [|congruence].
  apply contains_spec. exists a, (snd q1). by rewrite Hab, Hq1.
Qed.

(** A match that is replaced by itself. *)
Lemma sub_from_skip r repl (m : text) : forall prev s,
  exists prev', sub_from r repl prev (m ++ s) (length m) = sub_from r repl prev' s 0.
Proof.
  induction m as [|c m IH]; intros prev s; [by exists prev|].
  cbn [app length sub_from]. apply IH.
Qed.

Lemma sub_from_match r repl prev (c : ascii) (m s : text) :
  match_at r prev (c :: m ++ s) = Some (S (length m)) ->
  exists prev',
    sub_from r repl prev (c :: m ++ s) 0 = repl (c :: m) ++ sub_from r repl prev' s 0.
Proof.
  intros Hm. cbn [sub_from]. rewrite Hm.
  destruct (sub_from_skip r repl m (Some c) s) as [prev' ->]. exists prev'.
  cbn [take]. by rewrite take_app_length.
Qed.

Lemma qcr_holdings_fixed (rest : text) :
  starts_with "inc" rest = false ->
  match rest with [] => true | c :: _ => negb (is_space c) end = true ->
  contains "qcr" rest = false ->
  re_sub Leadmatcher.qcr_re "qcr holdings" ("qcr holdings" ++ rest)
  = "qcr holdings" ++ rest.
Proof.
  intros Hinc Hsp Hno. unfold re_sub, re_sub_fn.
  destruct (sub_from_match Leadmatcher.qcr_re (fun _ => "qcr holdings") None
              (ascii_of_N 113) "cr holdings" rest
              (qcr_holdings_match None rest Hinc Hsp)) as [prev' Hsub].
  etransitivity; [exact Hsub|]. cbn beta. f_equal.
  by apply qcr_no_further_match.
Qed.

Section PaddedQcr.
Variable name : text.
Hypothesis Hname : single_spaced name = true.

(** A name with "qcr" that [qcr_stable] accepts goes through the special
    case unchanged. *)
Lemma qcr_fixed :
  clean_stable name = true -> qcr_stable name = true ->
  Leadmatcher.normalize_company_text name = name.
Proof.
  intros Hclean Hqcr.
  pose proof (clean_company_padded name Hname Hclean) as Hcc.
  unfold clean_stable in Hclean. rewrite !andb_true_iff in Hclean.
  destruct Hclean as [[[[Hlow _] _] _] _]. apply text_eqb_eq in Hlow.
  unfold qcr_stable in Hqcr. apply andb_true_iff in Hqcr as [Hhas Hqcr].
  unfold Leadmatcher.normalize_company_text. cbv zeta.
  rewrite Hcc, padded_lower, padded_contains, Hhas by done.
  apply orb_true_iff in Hqcr as [Hno|Hq].
  - apply negb_true_iff in Hno.
    rewrite qcr_without_holding by (by rewrite padded_contains).
    by apply padded_strip.
  - cbv zeta in Hq. rewrite !andb_true_iff in Hq.
    destruct Hq as [Hstart [[Hinc Hrest] Hsp]].
    apply negb_true_iff in Hinc. apply negb_true_iff in Hrest.
    assert (Hshape : name = "qcr holdings" ++ drop 12 name).
    { apply starts_with_spec in Hstart as [b Hb]. rewrite Hb at 2.
      by rewrite (drop_app_length' "qcr holdings" b 12). }
    assert (Hpadded : amp_padded name
                      = "qcr holdings" ++ drop 12 name ++ pad_after (split name)).
    { unfold amp_padded.
      destruct (pad_before_spec name Hname) as [->|[_ [r Hr]]].
      - rewrite app_nil_l. rewrite Hshape at 1. by rewrite <- app_assoc.
      - rewrite Hr in Hshape. discriminate. }
    pose proof (padded_strip name Hname) as Hstrip.
    rewrite Hpadded in Hstrip |- *. rewrite qcr_holdings_fixed; [done| | |].
    all: destruct (pad_after_spec name Hname) as [->|[-> [r Hr]]];
      rewrite ?app_nil_r; try done.
    + destruct (starts_with "inc" (drop 12 name ++ [Leadmatcher.blank])) eqn:H; [|done].
      apply starts_with_snoc in H; [congruence|].
      intros [?|[?|[?|[]]]]; discriminate.
    + destruct (drop 12 name) as [|c rest] eqn:Hd; [|done]. exfalso.
      rewrite Hr in Hshape.
      change (list_ascii_of_string "qcr holdings" ++ [])
        with (list_ascii_of_string "qcr holding" ++ [ascii_of_N 115]) in Hshape.
      by apply app_inj_tail in Hshape as [_ ?].
    + destruct (contains "qcr" (drop 12 name ++ [Leadmatcher.blank])) eqn:H; [|done].
      apply contains_spec, occurs_snoc, contains_spec in H; [congruence|done|done].
Qed.

End PaddedQcr.

Lemma lm_stable_fixed (name : text) :
  lm_stable name = true -> Leadmatcher.normalize_company_name (Str name) = name.
Proof.
  unfold lm_stable. rewrite andb_true_iff, orb_true_iff. intros [Hclean Hstable].
  pose proof Hclean as Hc. unfold clean_stable in Hc. rewrite !andb_true_iff in Hc.
  destruct Hc as [[[_ Hname] _] _]. destruct Hstable as [Hg|Hq].
  - by apply general_fixed.
  - by apply qcr_fixed.
Qed.

(** *** The normaliser of [app.py] *)

Lemma length_drop_end (n : nat) (s : text) :
  length (App.drop_end n s) = (length s - n)%nat.
Proof. unfold App.drop_end. rewrite length_take. lia. Qed.

Lemma length_squeeze (s : text) : forall b, (length (squeeze b s) <= length s)%nat.
Proof.
  induction s as [|c s IH]; intros b; cbn [squeeze]; [done|].
  pose proof (IH true). pose proof (IH false).
  destruct (is_space c); [destruct b|]; cbn [length]; lia.
Qed.

Lemma length_sub_class p (s : text) : forall prev,
  (length (sub_from (Cls p) (fun _ => []) prev s 0) <= length s)%nat.
Proof.
  induction s as [|c s IH]; intros prev; [done|].
  cbn [sub_from]. rewrite match_at_cls.
  specialize (IH (Some c)). destruct (p c); cbn [app length]; lia.
Qed.

Lemma suffix_fold_length (l : list text) : forall name,
  (length (foldl drop_suffix name l) <= length name)%nat.
Proof.
  induction l as [|suffix l IH]; intros name; cbn [foldl]; [lia|].
  etransitivity; [apply IH|]. unfold drop_suffix.
  destruct (ends_with suffix name); [|lia]. rewrite length_drop_end. lia.
Qed.

Lemma suffix_fold_shorter (l : list text) : forall name,
  Forall (fun suffix => suffix <> []) l ->
  existsb (fun suffix => ends_with suffix name) l = true ->
  (length (foldl drop_suffix name l) < length name)%nat.
Proof.
  induction l as [|suffix l IH]; intros name Hne Hex; [done|].
  apply Forall_cons in Hne as [Hs Hne]. cbn [foldl existsb] in *.
  unfold drop_suffix at 2. destruct (ends_with suffix name) eqn:Hend.
  - eapply Nat.le_lt_trans; [apply suffix_fold_length|].
    rewrite length_drop_end. apply ends_with_spec in Hend as [a ->].
    rewrite length_app. destruct suffix; [done|]. cbn [length]. lia.
  - by apply IH.
Qed.

Lemma app_text_length (name : text) :
  (length (App.normalize_company_text name)
   <= length (foldl drop_suffix (lower name) App.suffixes))%nat.
Proof.
  unfold App.normalize_company_text. cbv zeta.
  etransitivity; [apply length_strip_chars|].
  rewrite re_sub_squeeze. etransitivity; [apply length_squeeze|].
  apply length_sub_class.
Qed.

(** A name that ends in a suffix is shortened. *)
Lemma app_suffix_shortens (name : text) :
  lower name = name -> has_app_suffix name = true ->
  (length (App.normalize_company_text name) < length name)%nat.
Proof.
  intros Hlow Hsuf. eapply Nat.le_lt_trans; [apply app_text_length|].
  rewrite Hlow. apply suffix_fold_shorter; [|exact Hsuf].
  by repeat constructor.
Qed.

(** A name of the shape the normaliser returns, without a suffix at its
    end, is left as it is. *)
Lemma app_text_fixed (name : text) :
  join " " (split name) = name ->
  Forall (fun c => (is_word c = true \/ c = Leadmatcher.blank) /\ is_upper c = false)
    name ->
  has_app_suffix name = false ->
  App.normalize_company_text name = name.
Proof.
  intros Hjoin Hchars Hsuf. unfold App.normalize_company_text. cbv zeta.
  rewrite lower_fixed by (eapply Forall_impl; [exact Hchars|]; by intros c [_ ?]).
  rewrite foldl_fixed.
  - rewrite (re_sub_free (fun c => negb (is_word c || is_space c))
               (Cls (fun c => negb (is_word c || is_space c)))).
    + by rewrite collapse_strip.
    + by vm_compute.
    + eapply Forall_impl; [exact Hchars|]. intros c [[Hw| ->] _]; [|done].
      cbn beta. by rewrite Hw.
  - intros suffix Hin. destruct (ends_with suffix name) eqn:Hend; [|done].
    assert (has_app_suffix name = true); [|congruence].
    apply existsb_exists. by exists suffix.
Qed.

Lemma app_text_idempotent_iff (x : text) :
  App.normalize_company_text (App.normalize_company_text x)
  = App.normalize_company_text x
  <-> has_app_suffix (App.normalize_company_text x) = false.
Proof.
  destruct (app_company_text_shape x) as [Hjoin Hchars]. split.
  - intros Hfix. destruct (has_app_suffix _) eqn:Hsuf; [|done]. exfalso.
    apply app_suffix_shortens in Hsuf.
    + rewrite Hfix in Hsuf. lia.
    + apply lower_fixed. eapply Forall_impl; [exact Hchars|]. by intros c [_ ?].
  - by apply app_text_fixed.
Qed.

(** C4, as the code has it.  A second application changes nothing when
    the first result is stable.  For [leadmatcher5000.py] the stable
    names are those [lm_stable] accepts: in lower case, without
    punctuation but "&" and ".", words separated by single blanks, every
    "&" a word of its own and no two of them neighbours, no leading
    "the "; and then either a name without "qcr", without a division
    phrase, without a word that is a key of the abbreviation table,
    without a suffix word after a blank (unless the name is educational),
    without ".." and without a dot at its ends, or a name with "qcr" and
    without "holding", or "qcr holdings" followed at once by text that
    starts neither with a blank nor with "inc" and has no other "qcr".
    For [app.py] the second application changes nothing exactly when the
    first result does not end in one of the suffixes of the function. *)
Theorem normalize_idempotent_on_stable_names (x : text) :
  (lm_stable (Leadmatcher.normalize_company_name (Str x)) = true ->
   Leadmatcher.normalize_company_name
     (Str (Leadmatcher.normalize_company_name (Str x)))
   = Leadmatcher.normalize_company_name (Str x)) /\
  (App.normalize_company_name (Str (App.normalize_company_name (Str x)))
   = App.normalize_company_name (Str x)
   <-> has_app_suffix (App.normalize_company_name (Str x)) = false).
Proof.
  split.
  - apply lm_stable_fixed.
  - apply app_text_idempotent_iff.
Qed.

Lemma normalize_idempotent_on_stable_names_witness :
  Leadmatcher.normalize_company_name
    (Str (Leadmatcher.normalize_company_name (Str "Johnson & Johnson Inc")))
  = Leadmatcher.normalize_company_name (Str "Johnson & Johnson Inc") /\
  App.normalize_company_name
    (Str (App.normalize_company_name (Str "Johnson & Johnson Inc")))
  = App.normalize_company_name (Str "Johnson & Johnson Inc").
Proof.
  destruct (normalize_idempotent_on_stable_names "Johnson & Johnson Inc") as [HL HA].
  split.
  - apply HL. vm_compute. reflexivity.
  - apply HA. vm_compute. reflexivity.
Defined.

(** Company names as they are written are stable after one pass, for
    both normalisers. *)
Example ordinary_names_are_stable :
  forallb (fun x => lm_stable (Leadmatcher.normalize_company_name (Str x))
                    && negb (has_app_suffix (App.normalize_company_name (Str x))))
    sample_names = true.
Proof. vm_compute. reflexivity. Qed.

(** ... and the names that are not stable after one pass are changed by
    the second. *)
Example unsettled_names_change :
  forallb (fun x =>
             let y := Leadmatcher.normalize_company_name (Str x) in
             negb (lm_stable y)
             && negb (text_eqb (Leadmatcher.normalize_company_name (Str y)) y))
    unsettled_names = true.
Proof. vm_compute. reflexivity. Qed.

(** C4, the counterexample.  "Acme Corp." loses its dot only at the end
    of the first pass, so the second pass still finds the suffix; and in
    [app.py] "Acme Inc Corp" loses one suffix per pass. *)
Lemma normalize_not_idempotent :
  Leadmatcher.normalize_company_name (Str "Acme Corp.") = "acme corp" /\
  Leadmatcher.normalize_company_name (Str "acme corp") = "acme" /\
  Leadmatcher.normalize_company_name
    (Str (Leadmatcher.normalize_company_name (Str "Acme Corp.")))
  <> Leadmatcher.normalize_company_name (Str "Acme Corp.") /\
  App.normalize_company_name (Str (App.normalize_company_name (Str "Acme Inc Corp")))
  <> App.normalize_company_name (Str "Acme Inc Corp").
Proof. repeat split; vm_compute; (reflexivity || discriminate). Qed.

(* ================================================================== *)
(** ** The person matcher *)
(* ================================================================== *)

Section PersonMatcherFacts.
Context `{F : SimilarityProvider}.
Import Leadmatcher.

Lemma max3_ge_first a b c : a <= max3 a b c.
Proof. unfold max3. lia. Qed.

Lemma best_of_three_same (a : fuzz_arg) :
  (forall a, token_sort_ratio a a = 100) -> 100 <= best_of_three a a.
Proof.
  intros Hsame. unfold best_of_three.
  pose proof (max3_ge_first (token_sort_ratio a a) (token_set_ratio a a)
                (partial_ratio a a)) as Hm.
  by rewrite Hsame in Hm at 1.
Qed.

(** For the input "Bill" and the target "William" the nickname loops
    run once, on the first names as they are: no alias is tried. *)
Lemma bill_william_nickname_score (name_score : Z) :
  nickname_score bill_smith william_smith name_score =
    Z.max name_score (best_of_three (FStr "bill Smith") (FStr "william Smith")).
Proof. reflexivity. Qed.

(** With the roles exchanged the input "William" is expanded, and the
    alias "bill" is compared with the target. *)
Lemma william_bill_nickname_score (name_score : Z) :
  nickname_score william_smith bill_smith name_score =
    Z.max (Z.max (Z.max name_score
                    (best_of_three (FStr "will Smith") (FStr "bill Smith")))
             (best_of_three (FStr "bill Smith") (FStr "bill Smith")))
      (best_of_three (FStr "billy Smith") (FStr "bill Smith")).
Proof. reflexivity. Qed.

Lemma bill_william_companies (thresholds : Thresholds) :
  companies_match thresholds bill_smith william_smith =
    (company_name thresholds <=? best_of_three (FStr "acme") (FStr "acme")).
Proof. reflexivity. Qed.

(** The matcher on one input contact and one target contact. *)
Lemma find_person_matches_pair (thresholds : Thresholds) (input_c target_c : contact) :
  find_person_matches [input_c] [target_c] thresholds =
    if companies_match thresholds input_c target_c
       && (person_name thresholds <=? pair_name_score thresholds input_c target_c)
       && (0 <? pair_name_score thresholds input_c target_c)
    then [{| input_contact := input_c; target_contact := target_c;
             score := pair_name_score thresholds input_c target_c |}]
    else [].
Proof.
  unfold find_person_matches, best_person_match.
  cbn [omap list_omap foldl]. unfold person_step. cbn [snd].
  destruct (companies_match thresholds input_c target_c); [|done].
  cbn [andb].
  destruct (person_name thresholds <=? pair_name_score thresholds input_c target_c);
    [|done].
  cbn [andb].
  destruct (0 <? pair_name_score thresholds input_c target_c); done.
Qed.

(** C2.  The source contact Bill Smith and the target contact William
    Smith: the only nickname comparison is "bill Smith" against
    "william Smith", so when that score and the direct score of the two
    keys are below the person threshold the pair is not a match, whatever
    the company score. *)
Theorem bill_william_rejected (thresholds : Thresholds) :
  best_of_three (FKey (get_person_key bill_smith))
                (FKey (get_person_key william_smith)) < person_name thresholds ->
  best_of_three (FStr "bill Smith") (FStr "william Smith") < person_name thresholds ->
  find_person_matches [bill_smith] [william_smith] thresholds = [].
Proof.
  intros Hdirect Hnick. rewrite find_person_matches_pair.
  assert (pair_name_score thresholds bill_smith william_smith < person_name thresholds)
    as Hlow.
  { unfold pair_name_score. cbv zeta.
    destruct (Z.ltb_spec
      (best_of_three (FKey (get_person_key bill_smith))
         (FKey (get_person_key william_smith))) (person_name thresholds)); [|lia].
    rewrite bill_william_nickname_score.
    change (contact_get bill_smith "email") with (@nil ascii). cbn [truthy andb].
    lia. }
  destruct (Z.leb_spec (person_name thresholds)
              (pair_name_score thresholds bill_smith william_smith)); [lia|].
  by rewrite andb_false_r.
Qed.

(** The other direction is accepted: the input William Smith and the
    target Bill Smith, because "william" is expanded on the input side. *)
Lemma william_bill_accepted (thresholds : Thresholds) :
  (forall a, token_sort_ratio a a = 100) ->
  company_name thresholds <= 100 ->
  0 < person_name thresholds <= 100 ->
  exists s, person_name thresholds <= s /\
    find_person_matches [william_smith] [bill_smith] thresholds =
      [{| input_contact := william_smith; target_contact := bill_smith; score := s |}].
Proof.
  intros Hsame Hc Hp. exists (pair_name_score thresholds william_smith bill_smith).
  assert (person_name thresholds <= pair_name_score thresholds william_smith bill_smith)
    as Hge.
  { unfold pair_name_score. cbv zeta.
    change (contact_get william_smith "email") with (@nil ascii). cbn [truthy andb].
    destruct (Z.ltb_spec
      (best_of_three (FKey (get_person_key william_smith))
         (FKey (get_person_key bill_smith))) (person_name thresholds)); [|lia].
    rewrite william_bill_nickname_score.
    pose proof (best_of_three_same (FStr "bill Smith") Hsame). lia. }
  split; [done|]. rewrite find_person_matches_pair.
  assert (companies_match thresholds william_smith bill_smith = true) as ->.
  { change (companies_match thresholds william_smith bill_smith)
      with (company_name thresholds <=? best_of_three (FStr "acme") (FStr "acme")).
    apply Z.leb_le.
    pose proof (best_of_three_same (FStr "acme") Hsame). lia. }
  destruct (Z.leb_spec (person_name thresholds)
              (pair_name_score thresholds william_smith bill_smith)); [|lia].
  destruct (Z.ltb_spec 0 (pair_name_score thresholds william_smith bill_smith)); [|lia].
  done.
Qed.

End PersonMatcherFacts.

Lemma bill_william_rejected_witness :
  @Leadmatcher.best_of_three exact_provider
     (FKey (Leadmatcher.get_person_key bill_smith))
     (FKey (Leadmatcher.get_person_key william_smith)) < person_name default_thresholds /\
  @Leadmatcher.best_of_three exact_provider
     (FStr "bill Smith") (FStr "william Smith") < person_name default_thresholds /\
  @Leadmatcher.find_person_matches exact_provider
     [bill_smith] [william_smith] default_thresholds = [].
Proof.
  split; [vm_compute; reflexivity|]. split; [vm_compute; reflexivity|].
  apply (@bill_william_rejected exact_provider default_thresholds);
    vm_compute; reflexivity.
Defined.

Section EmailOverride.
Context `{F : SimilarityProvider}.
Import Leadmatcher.

Lemma person_step_ok thresholds input_c st target_c :
  best_state_ok st -> best_state_ok (person_step thresholds input_c st target_c).
Proof.
  intros Hst. unfold person_step.
  destruct (companies_match _ _ _); [|done].
  by destruct (_ && _).
Qed.

Lemma person_step_keeps thresholds input_c st target_c (s : Z) :
  best_state_ok st -> s <= snd st -> is_Some (fst st) ->
  let st' := person_step thresholds input_c st target_c in
  best_state_ok st' /\ s <= snd st' /\ is_Some (fst st').
Proof.
  intros Hok Hs Hsome. cbv zeta. split; [by apply person_step_ok|].
  unfold person_step. destruct (companies_match _ _ _); [|done].
  destruct (Z.leb_spec (person_name thresholds)
              (pair_name_score thresholds input_c target_c));
    destruct (Z.ltb_spec (snd st) (pair_name_score thresholds input_c target_c));
    cbn [andb fst snd]; try done.
  split; [lia|done].
Qed.

Lemma person_fold_keeps thresholds input_c (s : Z) targets : forall st,
  best_state_ok st -> s <= snd st -> is_Some (fst st) ->
  let st' := foldl (person_step thresholds input_c) st targets in
  best_state_ok st' /\ s <= snd st' /\ is_Some (fst st').
Proof.
  induction targets as [|t targets IH]; intros st Hok Hs Hsome; [done|].
  cbn [foldl].
  destruct (person_step_keeps thresholds input_c st t s Hok Hs Hsome) as (? & ? & ?).
  by apply IH.
Qed.

Lemma person_fold_ok thresholds input_c targets : forall st,
  best_state_ok st -> best_state_ok (foldl (person_step thresholds input_c) st targets).
Proof.
  induction targets as [|t targets IH]; intros st Hok; [done|].
  cbn [foldl]. by apply IH, person_step_ok.
Qed.

Lemma person_fold_input thresholds input_c targets : forall st,
  (forall m, fst st = Some m -> input_contact m = input_c) ->
  forall m, fst (foldl (person_step thresholds input_c) st targets) = Some m ->
  input_contact m = input_c.
Proof.
  induction targets as [|t targets IH]; intros st Hst m; [apply Hst|].
  cbn [foldl]. apply IH. intros m'. unfold person_step.
  destruct (companies_match thresholds input_c t); [|apply Hst].
  destruct (_ && _); [|apply Hst]. by intros [= <-].
Qed.

(** C5.  Two records with non-empty e-mail addresses that are equal once
    lower-cased, at companies that pass the company test: the name score
    of the pair is at least the person threshold plus 10; the pair alone
    is returned as a match; and among many targets the input contact gets
    a match of at least that score. *)
Theorem exact_email_forces_acceptance
    (thresholds : Thresholds) (input_c target_c : contact) :
  (forall a, ratio a a = 100) ->
  0 <= person_name thresholds ->
  truthy (contact_get input_c "email") = true ->
  truthy (contact_get target_c "email") = true ->
  lower (contact_get input_c "email") = lower (contact_get target_c "email") ->
  companies_match thresholds input_c target_c = true ->
  let s := pair_name_score thresholds input_c target_c in
  person_name thresholds + 10 <= s /\
  find_person_matches [input_c] [target_c] thresholds =
    [{| input_contact := input_c; target_contact := target_c; score := s |}] /\
  forall target_contacts, In target_c target_contacts ->
    exists m, best_person_match thresholds input_c target_contacts = Some m /\
              input_contact m = input_c /\ person_name thresholds + 10 <= score m.
Proof.
  intros Hsame Hthr Hi Ht Heq Hco. cbv zeta.
  assert (person_name thresholds + 10 <= pair_name_score thresholds input_c target_c)
    as Hge.
  { unfold pair_name_score. cbv zeta. rewrite Hi, Ht. cbn [andb].
    rewrite Heq, Hsame. cbn [Z.eqb Pos.eqb]. lia. }
  split; [done|]. split.
  { rewrite find_person_matches_pair, Hco. cbn [andb].
    destruct (Z.leb_spec (person_name thresholds)
                (pair_name_score thresholds input_c target_c)); [|lia].
    destruct (Z.ltb_spec 0 (pair_name_score thresholds input_c target_c)); [|lia].
    done. }
  intros targets Hin. apply in_split in Hin as [l1 [l2 ->]].
  unfold best_person_match. rewrite foldl_app. cbn [foldl].
  set (st1 := foldl (person_step thresholds input_c) (None, 0) l1).
  assert (best_state_ok st1) as Hok1 by (by apply person_fold_ok).
  set (st2 := person_step thresholds input_c st1 target_c).
  assert (best_state_ok st2 /\
          pair_name_score thresholds input_c target_c <= snd st2 /\
          is_Some (fst st2)) as (Hok2 & Hs2 & Hsome2).
  { subst st2. split; [by apply person_step_ok|]. unfold person_step. rewrite Hco.
    destruct (Z.leb_spec (person_name thresholds)
                (pair_name_score thresholds input_c target_c)); [|lia].
    destruct (Z.ltb_spec (snd st1) (pair_name_score thresholds input_c target_c));
      cbn [andb fst snd]; [split; [lia|done]|].
    split; [done|]. unfold best_state_ok in Hok1.
    destruct (fst st1); [done|]. lia. }
  destruct (person_fold_keeps thresholds input_c _ l2 st2 Hok2 Hs2 Hsome2)
    as (Hok3 & Hs3 & [m Hm]).
  exists m. split; [done|]. split.
  - apply (person_fold_input thresholds input_c (l1 ++ target_c :: l2) (None, 0));
      [done|]. rewrite foldl_app. exact Hm.
  - unfold best_state_ok in Hok3. rewrite Hm in Hok3. lia.
Qed.

End EmailOverride.

Lemma exact_email_forces_acceptance_witness :
  let s := @Leadmatcher.pair_name_score exact_provider default_thresholds
             jane_input jd_target in
  person_name default_thresholds + 10 <= s /\
  @Leadmatcher.find_person_matches exact_provider [jane_input] [jd_target]
     default_thresholds =
    [{| Leadmatcher.input_contact := jane_input;
        Leadmatcher.target_contact := jd_target;
        Leadmatcher.score := s |}] /\
  forall target_contacts, In jd_target target_contacts ->
    exists m, @Leadmatcher.best_person_match exact_provider default_thresholds
                jane_input target_contacts = Some m /\
              Leadmatcher.input_contact m = jane_input /\
              person_name default_thresholds + 10 <= Leadmatcher.score m.
Proof.
  apply (@exact_email_forces_acceptance exact_provider default_thresholds
           jane_input jd_target).
  - intros a. unfold ratio, exact_provider, exact_score.
    by rewrite bool_decide_eq_true_2.
  - vm_compute. discriminate.
  - vm_compute. reflexivity.
  - vm_compute. reflexivity.
  - vm_compute. reflexivity.
  - vm_compute. reflexivity.
Defined.

(* ================================================================== *)
(** ** The company matcher of app.py *)
(* ================================================================== *)

Section CompanyMatcherFacts.
Context `{F : SimilarityProvider}.
Import App.

Lemma source_step_spec thr ic sc idc ms src ms' :
  source_step thr ic sc idc ms src = Ok ms' ->
  ms' = ms \/ exists m, ms' = ms ++ [m] /\ recorded thr ic sc idc src m.
Proof.
  unfold source_step. destruct src as [i norm].
  destruct (truthy norm) eqn:Hn; cbn [negb]; [|intros [= <-]; by left].
  destruct (extractOne norm (map snd idc)) as [[best sc']|] eqn:He; [|done].
  destruct (Z.leb_spec thr sc'); [|intros [= <-]; by left].
  destruct (head (filter _ idc)) as [[j x]|] eqn:Hh; [|done].
  intros [= <-]. right. eexists. split; [done|].
  unfold recorded. cbn. repeat split; try done.
  - by destruct norm.
  - by exists best, x.
Qed.

Lemma source_loop_spec thr ic sc idc : forall l n ms ms',
  source_loop thr ic sc idc ms (enumerate_from n l) = Ok ms' ->
  exists new, ms' = ms ++ new /\
    StronglySorted lt (map source_idx new) /\
    Forall (fun m => (n <= source_idx m)%nat /\
                     exists norm, l !! (source_idx m - n)%nat = Some norm /\
                       recorded thr ic sc idc (source_idx m, norm) m) new.
Proof.
  induction l as [|x l IH]; intros n ms ms'; cbn [enumerate_from source_loop].
  - intros [= <-]. exists []. rewrite app_nil_r. repeat split; constructor.
  - destruct (source_step thr ic sc idc ms (n, x)) as [ms1|] eqn:Hstep; [|done].
    intros Hloop. apply IH in Hloop as (new & -> & Hsorted & Hall).
    assert (Forall (fun m => (n <= source_idx m)%nat /\
              exists norm, (x :: l) !! (source_idx m - n)%nat = Some norm /\
                recorded thr ic sc idc (source_idx m, norm) m) new) as Hall'.
    { eapply Forall_impl; [exact Hall|]. intros m [Hle [norm [Hl Hr]]].
      split; [lia|]. exists norm. split; [|done].
      replace (source_idx m - n)%nat with (S (source_idx m - S n)) by lia. done. }
    apply source_step_spec in Hstep as [->|(m & -> & Hm)].
    + by exists new.
    + exists (m :: new). split; [by rewrite <- app_assoc|].
      assert (source_idx m = n) as Hidx by apply Hm.
      split; [|constructor; [|done]].
      * cbn [map]. constructor; [done|].
        rewrite Forall_map. eapply Forall_impl; [exact Hall|].
        intros m' [Hle _]. simpl. lia.
      * split; [lia|]. exists x. rewrite Hidx, Nat.sub_diag. split; [done|].
        by rewrite <- Hidx in Hm |- *.
Qed.

(** C3, as the code has it.  [match_companies] records at most one
    match per source row, in row order; it does not merge rows by their
    normalised name.  Two rows whose names normalise to the same string
    are matched alike: the same target row, the same target name, the
    same score. *)
Theorem match_companies_one_match_per_row
    (ideal_df source_df : DataFrame) (company_threshold : Z) (ms : list CompanyMatch) :
  match_companies ideal_df source_df company_threshold = Ok ms ->
  StronglySorted lt (map source_idx ms) /\
  forall m1 m2, In m1 ms -> In m2 ms ->
    normalize_company_name (source_company m1)
      = normalize_company_name (source_company m2) ->
    ideal_idx m1 = ideal_idx m2 /\ ideal_company m1 = ideal_company m2 /\
    score m1 = score m2.
Proof.
  unfold match_companies.
  destruct (company_col source_df) as [scol|];
    [|intros [= <-]; split; [constructor|intros ? ? []]].
  destruct (company_col ideal_df) as [icol|];
    [|intros [= <-]; split; [constructor|intros ? ? []]].
  cbv zeta. unfold enumerate at 2. intros Hloop.
  apply source_loop_spec in Hloop as (new & -> & Hsorted & Hall).
  cbn [app]. split; [done|].
  assert (forall m, In m new ->
    exists best x,
      extractOne (normalize_company_name (source_company m))
        (map snd (enumerate (map normalize_company_name (column ideal_df icol))))
        = Some (best, score m) /\
      head (filter (fun kv => snd kv = best)
              (enumerate (map normalize_company_name (column ideal_df icol))))
        = Some (ideal_idx m, x) /\
      ideal_company m = default NaN (column ideal_df icol !! ideal_idx m)) as Hrec.
  { intros m Hm. rewrite List.Forall_forall in Hall.
    destruct (Hall m Hm) as [_ [norm [Hl Hr]]].
    destruct Hr as (_ & _ & Hsrc & Hic & _ & best & x & He & Hh).
    cbn [fst snd] in *. rewrite Nat.sub_0_r in Hl.
    rewrite list_lookup_fmap in Hl. rewrite Hsrc.
    destruct (column source_df scol !! source_idx m) as [v|]; [|done].
    cbn in Hl. injection Hl as <-. by exists best, x. }
  intros m1 m2 H1 H2 Heq.
  destruct (Hrec m1 H1) as (b1 & x1 & He1 & Hh1 & Hi1).
  destruct (Hrec m2 H2) as (b2 & x2 & He2 & Hh2 & Hi2).
  rewrite Heq, He2 in He1. injection He1 as -> Hs.
  rewrite Hh2 in Hh1. injection Hh1 as Hi _.
  rewrite Hi1, Hi2, Hi, Hs. done.
Qed.

(** C9.  A target frame with a company column and no row: [extractOne]
    has no choice and returns [None], and the unpacking of its result
    raises [TypeError] at the first source row with a usable company;
    the source row without a company does not change that. *)
Theorem match_companies_raises_without_target_rows (company_threshold : Z) :
  match_companies (one_column []) (one_column [Str "Acme"; NaN]) company_threshold
    = Raise TypeError.
Proof. reflexivity. Qed.

(** The conditions that [match_companies] does handle: a frame without
    a company column, and a source frame without rows. *)
Lemma match_companies_no_source_column ideal_df source_df thr :
  company_col source_df = None -> match_companies ideal_df source_df thr = Ok [].
Proof. intros H. unfold match_companies. by rewrite H. Qed.

Lemma match_companies_no_target_column ideal_df source_df thr :
  company_col ideal_df = None -> match_companies ideal_df source_df thr = Ok [].
Proof.
  intros H. unfold match_companies. rewrite H. by destruct (company_col source_df).
Qed.

Lemma match_companies_empty_source ideal_df source_df thr :
  rows source_df = [] -> match_companies ideal_df source_df thr = Ok [].
Proof.
  intros H. unfold match_companies, column, iterrows. rewrite H.
  destruct (company_col source_df); [|done]. by destruct (company_col ideal_df).
Qed.

(** A source row without a usable company is skipped. *)
Lemma source_step_skips thr ic sc idc ms i :
  source_step thr ic sc idc ms (i, normalize_company_name NaN) = Ok ms.
Proof. reflexivity. Qed.

(** With at least one target row, and scores that are not negative,
    [extractOne] returns one of the choices, and [match_companies]
    returns normally. *)
Lemma extract_fold_spec (l : list (text * Z)) : forall b,
  exists x, foldl extract_better (Some b) l = Some x /\ (x = b \/ In x l).
Proof.
  induction l as [|c l IH]; intros b; [by exists b; split; [|left]|].
  cbn [foldl extract_better]. destruct (snd b <? snd c).
  - destruct (IH c) as [x [Hx [Heq|Hin]]]; exists x; (split; [done|]);
      right; [by left|by right].
  - destruct (IH b) as [x [Hx [Heq|Hin]]]; exists x; (split; [done|]);
      [by left|right; by right].
Qed.

Lemma extractOne_some (ProviderRange : forall a b, 0 <= token_sort_ratio a b)
    query choice choices :
  exists best s, extractOne query (choice :: choices) = Some (best, s) /\
                 In best (choice :: choices).
Proof.
  unfold extractOne. cbn [map]. rewrite filter_cons_True by (cbn; apply ProviderRange).
  cbn [foldl extract_better].
  destruct (extract_fold_spec
              (filter (fun cs : text * Z => 0 <= snd cs)
                 (map (fun c => (c, token_sort_ratio (FStr query) (FStr c))) choices))
              (choice, token_sort_ratio (FStr query) (FStr choice)))
    as [[best s] [Hx Hin]].
  exists best, s. split; [done|]. destruct Hin as [[= -> _]|Hin]; [by left|].
  right. apply list_elem_of_In, list_elem_of_filter in Hin as [_ Hin].
  apply list_elem_of_In, in_map_iff in Hin as [c [[= <- _] Hc]]. done.
Qed.

Lemma head_filter_choice (best : text) (idc : list (nat * text)) :
  In best (map snd idc) ->
  is_Some (head (filter (fun kv : nat * text => snd kv = best) idc)).
Proof.
  induction idc as [|[i x] idc IH]; [done|]. cbn [map snd In].
  destruct (decide (x = best)) as [->|Hne].
  - intros _. rewrite filter_cons_True by done. by eexists.
  - intros [?|Hin]; [done|]. rewrite filter_cons_False by done. by apply IH.
Qed.

Lemma source_loop_total (ProviderRange : forall a b, 0 <= token_sort_ratio a b)
    thr ic sc idc srcs : forall ms,
  idc <> [] -> exists ms', source_loop thr ic sc idc ms srcs = Ok ms'.
Proof.
  induction srcs as [|[i norm] srcs IH]; intros ms Hne; cbn [source_loop];
    [by eexists|].
  assert (exists ms1, source_step thr ic sc idc ms (i, norm) = Ok ms1) as [ms1 ->].
  { unfold source_step. destruct (truthy norm); cbn [negb]; [|by eexists].
    destruct idc as [|kv idc]; [done|]. cbn [map].
    destruct (extractOne_some ProviderRange norm (snd kv) (map snd idc))
      as (best & s & -> & Hin).
    destruct (thr <=? s); [|by eexists].
    destruct (head_filter_choice best (kv :: idc) Hin) as [[j x] ->]. by eexists. }
  by apply IH.
Qed.

Lemma match_companies_total_with_target_rows
    (ProviderRange : forall a b, 0 <= token_sort_ratio a b)
    ideal_df source_df thr :
  rows ideal_df <> [] ->
  exists ms, match_companies ideal_df source_df thr = Ok ms.
Proof.
  intros Hrows. unfold match_companies.
  destruct (company_col source_df) as [scol|]; [|by eexists].
  destruct (company_col ideal_df) as [icol|]; [|by eexists].
  cbv zeta. apply (source_loop_total ProviderRange).
  unfold column, iterrows. by destruct (rows ideal_df).
Qed.

(** Without a target row every usable source row raises. *)
Lemma source_loop_raises thr sc : forall srcs,
  Exists (fun src : nat * text => snd src <> []) srcs ->
  source_loop thr [] sc [] [] srcs = Raise TypeError.
Proof.
  induction srcs as [|[i norm] srcs IH]; intros Hex; [by inversion Hex|].
  cbn [source_loop]. unfold source_step. destruct norm as [|c norm]; cbn [truthy negb].
  - apply IH. inversion Hex as [? ? Hh|]; subst; [done|done].
  - reflexivity.
Qed.

Lemma column_one_column (cells : list cell) :
  column (one_column cells) "Company" = cells.
Proof.
  unfold column, iterrows, one_column. cbn [columns rows].
  induction cells as [|v cells IH]; [done|]. cbn [map]. by rewrite IH.
Qed.

Lemma enumerate_from_exists {A} (P : A -> Prop) (l : list A) : forall n,
  Exists P l -> Exists (fun src : nat * A => P (snd src)) (enumerate_from n l).
Proof.
  induction l as [|x l IH]; intros n Hex; [by inversion Hex|].
  cbn [enumerate_from]. inversion Hex; subst; [by left|right; by apply IH].
Qed.

Lemma match_companies_raises_on_usable_row (cells : list cell) (thr : Z) :
  Exists (fun v => normalize_company_name v <> []) cells ->
  match_companies (one_column []) (one_column cells) thr = Raise TypeError.
Proof.
  intros Hex. unfold match_companies.
  change (company_col (one_column cells)) with (Some "Company"%string).
  change (company_col (one_column [])) with (Some "Company"%string).
  cbv iota beta zeta. rewrite !column_one_column. cbn [map enumerate enumerate_from].
  apply source_loop_raises. unfold enumerate.
  apply (enumerate_from_exists (fun norm : text => norm <> [])).
  by apply List.Exists_map.
Qed.

End CompanyMatcherFacts.

(** C3, the counterexample.  Two source rows with different names that
    normalise to the same string "acme": both are recorded. *)
Lemma match_companies_duplicate_key :
  exists m1 m2,
    @App.match_companies exact_provider acme_target acme_sources 85 = Ok [m1; m2] /\
    App.source_company m1 <> App.source_company m2 /\
    App.normalize_company_name (App.source_company m1) = "acme" /\
    App.normalize_company_name (App.source_company m2) = "acme".
Proof.
  do 2 eexists. split; [vm_compute; reflexivity|].
  split; [discriminate|]. split; vm_compute; reflexivity.
Qed.

Lemma match_companies_one_match_per_row_witness :
  exists ms,
    @App.match_companies exact_provider acme_target acme_sources 85 = Ok ms /\
    StronglySorted lt (map App.source_idx ms) /\
    forall m1 m2, In m1 ms -> In m2 ms ->
      App.normalize_company_name (App.source_company m1)
        = App.normalize_company_name (App.source_company m2) ->
      App.ideal_idx m1 = App.ideal_idx m2 /\
      App.ideal_company m1 = App.ideal_company m2 /\
      App.score m1 = App.score m2.
Proof.
  eexists. split; [vm_compute; reflexivity|].
  apply (@match_companies_one_match_per_row exact_provider acme_target acme_sources 85).
  vm_compute. reflexivity.
Defined.

(* ================================================================== *)
(** ** Dictionaries in insertion order *)
(* ================================================================== *)

Section Dict.
Context {V : Type}.
Implicit Types (d e : list (text * V)) (k : text) (v : V).

Lemma dict_set_keys k v d :
  map fst (dict_set k v d) = if bool_decide (k ∈ map fst d) then map fst d
                             else map fst d ++ [k].
Proof.
  induction d as [|[k' v'] d IH]; cbn [dict_set map fst].
  - by rewrite bool_decide_eq_false_2 by apply not_elem_of_nil.
  - destruct (text_eqb k k') eqn:Hk.
    + apply text_eqb_eq in Hk as <-. cbn [map fst].
      by rewrite bool_decide_eq_true_2 by left.
    + assert (k <> k') as Hne.
      { intros ->. unfold text_eqb in Hk. by rewrite bool_decide_eq_true_2 in Hk. }
      cbn [map fst]. rewrite IH. destruct (bool_decide (k ∈ map fst d)) eqn:Hin.
      * apply bool_decide_eq_true in Hin.
        by rewrite bool_decide_eq_true_2 by (by right).
      * apply bool_decide_eq_false in Hin.
        rewrite bool_decide_eq_false_2; [done|].
        rewrite elem_of_cons. intros [?|?]; done.
Qed.

Lemma dict_set_NoDup k v d : NoDup (map fst d) -> NoDup (map fst (dict_set k v d)).
Proof.
  intros Hd. rewrite dict_set_keys. case_bool_decide as Hin; [done|].
  apply NoDup_app. split; [done|]. split; [|apply NoDup_singleton].
  intros x Hx Hk. apply list_elem_of_singleton in Hk. by subst x.
Qed.

Lemma dict_set_elem k v d kv :
  kv ∈ dict_set k v d -> kv = (k, v) \/ kv ∈ d.
Proof.
  induction d as [|[k' v'] d IH]; cbn [dict_set].
  - intros Hin. apply list_elem_of_singleton in Hin. by left.
  - destruct (text_eqb k k').
    + rewrite !elem_of_cons. tauto.
    + rewrite !elem_of_cons. intros [->|Hin]; [tauto|].
      destruct (IH Hin); tauto.
Qed.

Lemma dict_set_has k v d : (k, v) ∈ dict_set k v d.
Proof.
  induction d as [|[k' v'] d IH]; cbn [dict_set]; [by left|].
  destruct (text_eqb k k'); [by left|by right].
Qed.

Lemma dict_set_get k v d : dict_get k (dict_set k v d) = Some v.
Proof.
  induction d as [|[k' v'] d IH]; cbn [dict_set dict_get].
  - unfold text_eqb. by rewrite bool_decide_eq_true_2.
  - destruct (text_eqb k k') eqn:Hk; cbn [dict_get].
    + unfold text_eqb. by rewrite bool_decide_eq_true_2.
    + by rewrite Hk.
Qed.

Lemma dict_set_nonempty k v d : dict_set k v d <> [].
Proof. destruct d as [|[k' v'] d]; cbn [dict_set]; [done|]. by destruct (text_eqb _ _). Qed.

Lemma dict_get_elem k v d : dict_get k d = Some v -> (k, v) ∈ d.
Proof.
  induction d as [|[k' v'] d IH]; cbn [dict_get]; [done|].
  destruct (text_eqb k k') eqn:Hk.
  - apply text_eqb_eq in Hk as ->. intros [= ->]. by left.
  - intros Hg. right. by apply IH.
Qed.

(** A property of the entries that every write establishes is kept. *)
Lemma dict_set_Forall (P : text * V -> Prop) k v d :
  P (k, v) -> Forall P d -> Forall P (dict_set k v d).
Proof.
  intros Hkv Hd. apply Forall_forall. intros kv Hin.
  apply dict_set_elem in Hin as [->|Hin]; [done|].
  rewrite Forall_forall in Hd. by apply Hd.
Qed.

Lemma dict_update_spec (P : text * V -> Prop) e : forall d,
  NoDup (map fst d) -> Forall P d -> Forall P e ->
  NoDup (map fst (dict_update d e)) /\ Forall P (dict_update d e) /\
  (e <> [] -> dict_update d e <> []).
Proof.
  unfold dict_update. induction e as [|[k v] e IH]; intros d Hnd Hd He; cbn [foldl].
  - done.
  - inversion He as [|? ? Hkv He']; subst. cbn [fst snd].
    destruct (IH (dict_set k v d)) as (H1 & H2 & H3).
    + by apply dict_set_NoDup.
    + by apply dict_set_Forall.
    + done.
    + split; [done|]. split; [done|]. intros _.
      destruct e as [|kv e]; [apply dict_set_nonempty|]. by apply H3.
Qed.

End Dict.

(* ================================================================== *)
(** ** The aggregator *)
(* ================================================================== *)

Lemma lookup_maybe_insert (m : gmap string text) (o : option cell)
    (k k' : string) (f : cell -> text) :
  k <> k' ->
  (match o with Some v => <[k := f v]> m | None => m end) !! k' = m !! k'.
Proof. intros Hne. destruct o; [by rewrite lookup_insert_ne|done]. Qed.

Lemma contact_key_map_fields (row : Series) :
  Leadmatcher.contact_key (Leadmatcher.map_fields row) =
    key_part row "First Name" ++ "-" ++ key_part row "Last Name" ++ "-" ++
    key_part row "Email Address".
Proof.
  unfold Leadmatcher.contact_key, Leadmatcher.map_fields, Leadmatcher.field_mapping,
    key_part.
  cbn [foldl fst snd].
  rewrite !(lookup_maybe_insert _ _ _ "First Name") by done.
  rewrite !(lookup_maybe_insert _ _ _ "Last Name") by done.
  rewrite !(lookup_maybe_insert _ _ _ "Email Address") by done.
  destruct (item row "First Name"), (item row "Last Name"),
    (item row "Email Address"); by simplify_map_eq.
Qed.

Section AggregatorFacts.
Context `{F : SimilarityProvider}.
Import Leadmatcher.
Variable thresholds : Thresholds.
Variable input_contacts : DataFrame.

Lemma source_step_ok target_row target_norm d source_row :
  source_row ∈ iterrows input_contacts ->
  NoDup (map fst d) -> Forall (keyed_from thresholds input_contacts target_norm) d ->
  let d' := source_step thresholds input_contacts target_row target_norm d source_row in
  NoDup (map fst d') /\ Forall (keyed_from thresholds input_contacts target_norm) d'.
Proof.
  intros Hrow Hnd Hd. cbv zeta. unfold source_step.
  destruct (usable_company input_contacts source_row) as [[company norm]|] eqn:Hu;
    [|done].
  destruct (Z.leb_spec (company_name thresholds)
              (token_sort_ratio (FStr target_norm) (FStr norm))); [|done].
  split; [by apply dict_set_NoDup|]. apply dict_set_Forall; [|done].
  split; [done|]. by exists source_row, company, norm.
Qed.

Lemma source_fold_ok target_row target_norm source_rows : forall d,
  (forall r, r ∈ source_rows -> r ∈ iterrows input_contacts) ->
  NoDup (map fst d) -> Forall (keyed_from thresholds input_contacts target_norm) d ->
  let d' := foldl (source_step thresholds input_contacts target_row target_norm)
              d source_rows in
  NoDup (map fst d') /\ Forall (keyed_from thresholds input_contacts target_norm) d'.
Proof.
  induction source_rows as [|r rs IH]; intros d Hrows Hnd Hd; [done|].
  cbn [foldl].
  destruct (source_step_ok target_row target_norm d r) as [H1 H2];
    [apply Hrows; by left|done|done|].
  apply IH; [|done|done]. intros r' Hr'. apply Hrows. by right.
Qed.

(** The contacts of a dictionary whose keys are the contact keys. *)
Lemma keyed_values target_norm (d : list (text * ContactData)) :
  NoDup (map fst d) -> Forall (keyed_from thresholds input_contacts target_norm) d ->
  NoDup (map entry_key (dict_values d)) /\
  Forall (from_source thresholds input_contacts target_norm) (dict_values d).
Proof.
  intros Hnd Hd. unfold dict_values. split.
  - replace (map entry_key (map snd d)) with (map fst d); [done|].
    rewrite map_map. apply map_ext_in. intros kv Hkv.
    rewrite List.Forall_forall in Hd. by destruct (Hd kv Hkv).
  - rewrite Forall_map. eapply Forall_impl; [exact Hd|]. by intros kv [_ ?].
Qed.

Lemma existing_dict_ok target_norm (cs : list ContactData) : forall d,
  Forall (from_source thresholds input_contacts target_norm) cs ->
  NoDup (map fst d) -> Forall (keyed_from thresholds input_contacts target_norm) d ->
  let d' := foldl (fun d c => dict_set (entry_key c) c d) d cs in
  NoDup (map fst d') /\ Forall (keyed_from thresholds input_contacts target_norm) d'.
Proof.
  induction cs as [|c cs IH]; intros d Hcs Hnd Hd; [done|].
  inversion Hcs as [|? ? Hc Hcs']; subst. cbn [foldl].
  apply IH; [done|by apply dict_set_NoDup|]. by apply dict_set_Forall.
Qed.

Lemma dict_values_nonempty {V} (d : list (text * V)) : d <> [] -> dict_values d <> [].
Proof. by destruct d. Qed.

Lemma target_step_ok target_contacts company_matches target_row :
  Forall (entry_ok thresholds input_contacts) company_matches ->
  Forall (entry_ok thresholds input_contacts)
    (target_step thresholds input_contacts target_contacts company_matches target_row).
Proof.
  intros Hcm. unfold target_step.
  destruct (usable_company target_contacts target_row) as [[company target_norm]|];
    [|done].
  cbv zeta.
  destruct (source_fold_ok target_row target_norm (iterrows input_contacts) [])
    as [Hnd Hd]; [done|constructor|constructor|].
  set (cd := foldl _ [] (iterrows input_contacts)) in *.
  assert (cd = [] \/ cd <> []) as [->|Hne] by (destruct cd; [by left|by right]);
    [done|].
  destruct cd as [|kv0 cd0] eqn:Hcd; [done|]. rewrite <- Hcd in *. clear Hcd.
  destruct (dict_get target_norm company_matches) as [existing|] eqn:Hget.
  - apply dict_set_Forall; [|done].
    apply dict_get_elem in Hget. rewrite Forall_forall in Hcm.
    destruct (Hcm _ Hget) as (Hkey & _ & _ & Hex). cbn [fst snd] in Hkey, Hex.
    rewrite <- Hkey in Hex.
    destruct (existing_dict_ok target_norm (contacts existing) [] Hex)
      as [Hnd0 Hd0]; [constructor|constructor|].
    destruct (dict_update_spec (keyed_from thresholds input_contacts target_norm) cd _ Hnd0 Hd0 Hd)
      as (Hnd1 & Hd1 & Hne1).
    destruct (keyed_values target_norm _ Hnd1 Hd1) as [Hk1 Hk2].
    split; [done|]. cbn [snd contacts norm_name].
    split; [by apply dict_values_nonempty, Hne1|]. done.
  - apply dict_set_Forall; [|done].
    destruct (keyed_values target_norm _ Hnd Hd) as [Hk1 Hk2].
    split; [done|]. cbn [snd contacts norm_name].
    split; [by apply dict_values_nonempty|]. done.
Qed.

Lemma target_fold_ok target_contacts target_rows : forall company_matches,
  Forall (entry_ok thresholds input_contacts) company_matches ->
  Forall (entry_ok thresholds input_contacts)
    (foldl (target_step thresholds input_contacts target_contacts)
       company_matches target_rows).
Proof.
  induction target_rows as [|r rs IH]; intros cm Hcm; [done|].
  cbn [foldl]. by apply IH, target_step_ok.
Qed.

Lemma insert_by_name_elem e x l : x ∈ insert_by_name e l <-> x = e \/ x ∈ l.
Proof.
  induction l as [|y l IH]; cbn [insert_by_name].
  - rewrite list_elem_of_singleton, elem_of_nil. tauto.
  - destruct (text_ltb _ _); rewrite !elem_of_cons; [rewrite IH|]; tauto.
Qed.

Lemma sorted_by_name_elem x l : x ∈ sorted_by_name l <-> x ∈ l.
Proof.
  unfold sorted_by_name. induction l as [|y l IH]; cbn [foldr]; [done|].
  rewrite insert_by_name_elem, elem_of_cons, IH. tauto.
Qed.

End AggregatorFacts.

Section RosterResults.
Context `{F : SimilarityProvider}.
Import Leadmatcher.

Lemma find_matches_entries_ok (input_contacts target_contacts : DataFrame)
    (thresholds : Thresholds) :
  Forall (fun e => entry_ok thresholds input_contacts (norm_name e, e))
    (find_matches (Some input_contacts) (Some target_contacts) thresholds).
Proof.
  unfold find_matches.
  pose proof (target_fold_ok thresholds input_contacts target_contacts
                (iterrows target_contacts) [] ltac:(constructor)) as Hok.
  apply Forall_forall. intros e He.
  apply (proj1 (sorted_by_name_elem _ _)) in He.
  unfold dict_values in He. apply list_elem_of_In, in_map_iff in He as [[k e'] [<- Hin]].
  rewrite List.Forall_forall in Hok. specialize (Hok _ Hin).
  destruct Hok as (Hk & ? & ? & ?). cbn [fst snd] in *. by rewrite Hk in *.
Qed.

(** C10.  Every roster entry that [find_matches] returns has at least
    one contact, and a source row with a usable company reaches the
    company threshold against the normalised name of the entry: a target
    company that no source row reaches has no entry. *)
Theorem roster_entries_have_contacts
    (input_file target_file : option DataFrame) (thresholds : Thresholds) :
  Forall (fun e =>
            contacts e <> [] /\
            exists input_contacts source_row company norm,
              input_file = Some input_contacts /\
              source_row ∈ iterrows input_contacts /\
              usable_company input_contacts source_row = Some (company, norm) /\
              company_name thresholds
                <= token_sort_ratio (FStr (norm_name e)) (FStr norm))
    (find_matches input_file target_file thresholds).
Proof.
  destruct target_file as [target_contacts|]; [|constructor].
  destruct input_file as [input_contacts|]; [|constructor].
  eapply Forall_impl; [apply find_matches_entries_ok|].
  intros e (_ & Hne & _ & Hsrc). cbn [snd] in *. split; [done|].
  destruct (contacts e) as [|c cs]; [done|].
  inversion Hsrc as [|? ? (row & company & norm & Hrow & Hu & Hs & _) _]; subst.
  by exists input_contacts, row, company, norm.
Qed.

(** C6, as the code has it.  The key of a roster contact is made of the
    First Name, Last Name and Email Address cells as [map_fields] stores
    them: trimmed, in the letter case of the source.  When two source
    rows of a matched company agree on these, the second replaces the
    first under the same key and adds no contact; and in every entry that
    [find_matches] returns the keys of the contacts are distinct. *)
Theorem roster_upsert_by_contact_key
    (thresholds : Thresholds) (input_contacts : DataFrame)
    (target_row : Series) (target_norm : text)
    (contact_dict : list (text * ContactData))
    (row1 row2 : Series) (company1 norm1 company2 norm2 : text) :
  usable_company input_contacts row1 = Some (company1, norm1) ->
  company_name thresholds <= token_sort_ratio (FStr target_norm) (FStr norm1) ->
  usable_company input_contacts row2 = Some (company2, norm2) ->
  company_name thresholds <= token_sort_ratio (FStr target_norm) (FStr norm2) ->
  key_part row1 "First Name" = key_part row2 "First Name" ->
  key_part row1 "Last Name" = key_part row2 "Last Name" ->
  key_part row1 "Email Address" = key_part row2 "Email Address" ->
  let d1 := source_step thresholds input_contacts target_row target_norm
              contact_dict row1 in
  let d2 := source_step thresholds input_contacts target_row target_norm d1 row2 in
  map fst d2 = map fst d1 /\
  dict_get (contact_key (map_fields row1)) d2 =
    Some {| fields := map_fields row2;
            has_person_match := person_match thresholds row2 target_row |} /\
  forall target_file,
    Forall (fun e => NoDup (map entry_key (contacts e)))
      (find_matches (Some input_contacts) target_file thresholds).
Proof.
  intros Hu1 Hs1 Hu2 Hs2 Hf Hl He. cbv zeta.
  assert (contact_key (map_fields row1) = contact_key (map_fields row2)) as Hkey
    by (by rewrite !contact_key_map_fields, Hf, Hl, He).
  unfold source_step. rewrite Hu1, Hu2.
  destruct (Z.leb_spec (company_name thresholds)
              (token_sort_ratio (FStr target_norm) (FStr norm1))); [|lia].
  destruct (Z.leb_spec (company_name thresholds)
              (token_sort_ratio (FStr target_norm) (FStr norm2))); [|lia].
  split; [|split].
  - rewrite (dict_set_keys (contact_key (map_fields row2))).
    rewrite bool_decide_eq_true_2; [done|]. rewrite <- Hkey.
    apply list_elem_of_In, in_map_iff.
    exists (contact_key (map_fields row1),
            {| fields := map_fields row1;
               has_person_match := person_match thresholds row1 target_row |}).
    split; [done|]. apply list_elem_of_In, dict_set_has.
  - rewrite Hkey. apply dict_set_get.
  - intros [target_contacts|]; [|constructor].
    eapply Forall_impl; [apply find_matches_entries_ok|].
    by intros e (_ & _ & Hnd & _).
Qed.

End RosterResults.

(** C6, the counterexample.  Two source rows of the matched company
    "Acme" that differ only in letter case: the roster keeps both. *)
Lemma roster_keeps_case_variants :
  exists e,
    @Leadmatcher.find_matches exact_provider (Some jane_rows) (Some acme_target)
      default_thresholds = [e] /\
    map Leadmatcher.entry_key (Leadmatcher.contacts e) =
      [list_ascii_of_string "Jane-Doe-jane@acme.com";
       list_ascii_of_string "JANE-DOE-JANE@ACME.COM"].
Proof. eexists. split; vm_compute; reflexivity. Qed.

Lemma roster_upsert_by_contact_key_witness :
  let input_contacts :=
    frame ["Company"; "First Name"; "Last Name"; "Email Address"]%string [] in
  let d1 := @Leadmatcher.source_step exact_provider default_thresholds input_contacts
              [] "acme" [] (jane_row " Jane") in
  let d2 := @Leadmatcher.source_step exact_provider default_thresholds input_contacts
              [] "acme" d1 (jane_row "Jane ") in
  map fst d2 = map fst d1 /\
  dict_get (Leadmatcher.contact_key (Leadmatcher.map_fields (jane_row " Jane"))) d2 =
    Some {| Leadmatcher.fields := Leadmatcher.map_fields (jane_row "Jane ");
            Leadmatcher.has_person_match :=
              @Leadmatcher.person_match exact_provider default_thresholds
                (jane_row "Jane ") [] |} /\
  forall target_file,
    Forall (fun e => NoDup (map Leadmatcher.entry_key (Leadmatcher.contacts e)))
      (@Leadmatcher.find_matches exact_provider (Some input_contacts) target_file
         default_thresholds).
Proof.
  apply (@roster_upsert_by_contact_key exact_provider default_thresholds
           (frame ["Company"; "First Name"; "Last Name"; "Email Address"]%string [])
           [] "acme" [] (jane_row " Jane") (jane_row "Jane ")
           "Acme" "acme" "Acme" "acme");
    vm_compute; by intros.
Defined.

(** *** What the aggregator does with sparse data *)

Section SparseData.
Context `{F : SimilarityProvider}.
Import Leadmatcher.

(** A source frame without rows gives an empty roster. *)
Lemma find_matches_empty_source input_contacts target_contacts thresholds :
  rows input_contacts = [] ->
  find_matches (Some input_contacts) (Some target_contacts) thresholds = [].
Proof.
  intros Hrows. unfold find_matches.
  replace (foldl (target_step thresholds input_contacts target_contacts) []
             (iterrows target_contacts)) with (@nil (text * RosterEntry)); [done|].
  symmetry. apply foldl_fixed. intros target_row _. unfold target_step, iterrows.
  rewrite Hrows. by destruct (usable_company _ _) as [[? ?]|].
Qed.

Lemma first_company_none cols df row :
  (forall col, In col cols -> col ∉ columns df) -> first_company cols df row = None.
Proof.
  induction cols as [|col cols IH]; intros Hcols; [done|]. cbn [first_company].
  rewrite bool_decide_eq_false_2 by (apply Hcols; by left). cbn [andb].
  destruct (item row col); apply IH; intros col' Hcol'; apply Hcols; by right.
Qed.

(** A target frame without a company column gives an empty roster. *)
Lemma find_matches_no_target_company_column input_file target_contacts thresholds :
  (forall col, In col company_cols -> col ∉ columns target_contacts) ->
  find_matches input_file (Some target_contacts) thresholds = [].
Proof.
  intros Hcols. unfold find_matches. destruct input_file as [input_contacts|]; [|done].
  replace (foldl (target_step thresholds input_contacts target_contacts) []
             (iterrows target_contacts)) with (@nil (text * RosterEntry)); [done|].
  symmetry. apply foldl_fixed. intros target_row _. unfold target_step, usable_company.
  by rewrite first_company_none.
Qed.

(** A row whose company cell is NaN, or normalises to the empty string,
    is passed over. *)
Lemma source_step_skips_unusable thresholds input_contacts target_row target_norm
    contact_dict source_row :
  usable_company input_contacts source_row = None ->
  source_step thresholds input_contacts target_row target_norm contact_dict source_row
    = contact_dict.
Proof. intros Hu. unfold source_step. by rewrite Hu. Qed.

Lemma target_step_skips_unusable thresholds input_contacts target_contacts
    company_matches target_row :
  usable_company target_contacts target_row = None ->
  target_step thresholds input_contacts target_contacts company_matches target_row
    = company_matches.
Proof. intros Hu. unfold target_step. by rewrite Hu. Qed.

End SparseData.

(* ================================================================== *)
(** ** Which thresholds the engine reads *)
(* ================================================================== *)

Lemma foldl_ext_all {A B} (f g : A -> B -> A) l : forall a,
  (forall a b, f a b = g a b) -> foldl f a l = foldl g a l.
Proof.
  induction l as [|b l IH]; intros a Hfg; [done|].
  cbn [foldl]. rewrite Hfg. by apply IH.
Qed.

Section ThresholdsRead.
Context `{F : SimilarityProvider}.
Import Leadmatcher.

Lemma find_matches_ext input_file target_file t1 t2 :
  same_read_thresholds t1 t2 ->
  find_matches input_file target_file t1 = find_matches input_file target_file t2.
Proof.
  intros (Hc & Hp & Ht). unfold find_matches.
  destruct target_file as [target_contacts|]; [|done].
  destruct input_file as [input_contacts|]; [|done].
  do 2 f_equal. apply foldl_ext_all. intros cm target_row.
  unfold target_step. destruct (usable_company _ _) as [[company norm]|]; [|done].
  cbv zeta.
  replace (foldl (source_step t1 input_contacts target_row norm) []
             (iterrows input_contacts))
    with (foldl (source_step t2 input_contacts target_row norm) []
             (iterrows input_contacts)); [done|].
  apply foldl_ext_all. intros d source_row. unfold source_step, person_match,
    name_signal, title_signal. by rewrite Hc, Hp, Ht.
Qed.

Lemma find_person_matches_ext input_contacts target_contacts t1 t2 :
  same_read_thresholds t1 t2 ->
  find_person_matches input_contacts target_contacts t1
    = find_person_matches input_contacts target_contacts t2.
Proof.
  intros (Hc & Hp & Ht). unfold find_person_matches.
  induction input_contacts as [|c cs IH]; [done|].
  cbn [omap list_omap]. rewrite IH.
  replace (best_person_match t1 c target_contacts)
    with (best_person_match t2 c target_contacts); [done|].
  unfold best_person_match. f_equal. apply foldl_ext_all. intros st t.
  unfold person_step, companies_match, pair_name_score. by rewrite Hc, Hp.
Qed.

Lemma engine_outputs_ext input_file target_file input_contacts target_contacts
    ideal_df source_df t1 t2 :
  same_read_thresholds t1 t2 ->
  engine_outputs input_file target_file input_contacts target_contacts
    ideal_df source_df t1
  = engine_outputs input_file target_file input_contacts target_contacts
      ideal_df source_df t2.
Proof.
  intros Hsame. unfold engine_outputs.
  rewrite (find_matches_ext _ _ t1 t2 Hsame).
  rewrite (find_person_matches_ext _ _ t1 t2 Hsame).
  by destruct Hsame as [-> _].
Qed.

(** The aggregator on a source frame and a target frame of one row
    each. *)
Lemma find_matches_one_row (input_contacts target_contacts : DataFrame)
    (source_row target_row : Series) (thresholds : Thresholds) :
  iterrows input_contacts = [source_row] ->
  iterrows target_contacts = [target_row] ->
  find_matches (Some input_contacts) (Some target_contacts) thresholds =
    match usable_company target_contacts target_row,
          usable_company input_contacts source_row with
    | Some (target_company, target_norm), Some (_, source_norm) =>
        if company_name thresholds <=?
             token_sort_ratio (FStr target_norm) (FStr source_norm)
        then [{| norm_name := target_norm;
                 display_name := target_company;
                 contacts :=
                   [{| fields := map_fields source_row;
                       has_person_match :=
                         person_match thresholds source_row target_row |}] |}]
        else []
    | _, _ => []
    end.
Proof.
  intros Hi Ht. unfold find_matches. rewrite Ht. cbn [foldl].
  unfold target_step. rewrite Hi.
  destruct (usable_company target_contacts target_row) as [[tc tn]|]; [|done].
  cbn [foldl]. unfold source_step.
  destruct (usable_company input_contacts source_row) as [[sc sn]|]; [|done].
  by destruct (company_name thresholds <=? _).
Qed.

End ThresholdsRead.

Section ThresholdsGate.
Context `{F : SimilarityProvider}.
Import Leadmatcher.

Lemma company_gate (thresholds : Thresholds) :
  find_matches (Some zzz_source) (Some acme_target) thresholds =
    if company_name thresholds <=? token_sort_ratio (FStr "acme") (FStr "zzz")
    then [{| norm_name := "acme"; display_name := "Acme";
             contacts :=
               [{| fields := {[ "Company"%string := list_ascii_of_string "Zzz" ]};
                   has_person_match := false |}] |}]
    else [].
Proof.
  rewrite (find_matches_one_row zzz_source acme_target
             [("Company"%string, Str "Zzz")] [("Company"%string, Str "Acme")]);
    [|done|done].
  change (usable_company acme_target [("Company"%string, Str "Acme")])
    with (Some (list_ascii_of_string "Acme", list_ascii_of_string "acme")).
  change (usable_company zzz_source [("Company"%string, Str "Zzz")])
    with (Some (list_ascii_of_string "Zzz", list_ascii_of_string "zzz")).
  cbv iota beta. reflexivity.
Qed.

Lemma person_gate (thresholds : Thresholds) :
  find_matches (Some (named "ab")) (Some (named "xy")) thresholds =
    if company_name thresholds <=? token_sort_ratio (FStr "acme") (FStr "acme")
    then [{| norm_name := "acme"; display_name := "Acme";
             contacts :=
               [{| fields := map_fields [("Company"%string, Str "Acme");
                                         ("First Name"%string, Str "ab")];
                   has_person_match :=
                     person_name thresholds <=?
                       token_sort_ratio (FStr "ab") (FStr "xy") |}] |}]
    else [].
Proof.
  rewrite (find_matches_one_row (named "ab") (named "xy")
             [("Company"%string, Str "Acme"); ("First Name"%string, Str "ab")]
             [("Company"%string, Str "Acme"); ("First Name"%string, Str "xy")]);
    [|done|done].
  change (usable_company (named "xy") _)
    with (Some (list_ascii_of_string "Acme", list_ascii_of_string "acme")).
  change (usable_company (named "ab") _)
    with (Some (list_ascii_of_string "Acme", list_ascii_of_string "acme")).
  cbv iota beta.
  replace (person_match thresholds _ _)
    with (person_name thresholds <=? token_sort_ratio (FStr "ab") (FStr "xy")); [done|].
  unfold person_match, name_signal.
  change (email_signal _ _) with false. change (title_signal thresholds _ _) with false.
  change (normalize_person_name (Str (full_name
            [("Company"%string, Str "Acme"); ("First Name"%string, Str "ab")])))
    with (list_ascii_of_string "ab").
  change (normalize_person_name (Str (full_name
            [("Company"%string, Str "Acme"); ("First Name"%string, Str "xy")])))
    with (list_ascii_of_string "xy").
  cbn [truthy list_ascii_of_string andb]. by rewrite !orb_false_r.
Qed.

Lemma title_gate (thresholds : Thresholds) :
  find_matches (Some source_titled) (Some target_titled) thresholds =
    if company_name thresholds <=? token_sort_ratio (FStr "acme") (FStr "acme")
    then [{| norm_name := "acme"; display_name := "Acme";
             contacts :=
               [{| fields := map_fields [("Company"%string, Str "Acme");
                                         ("Position"%string, Str "cook")];
                   has_person_match :=
                     title thresholds <=?
                       token_sort_ratio (FStr "cook") (FStr "dean") |}] |}]
    else [].
Proof.
  rewrite (find_matches_one_row source_titled target_titled
             [("Company"%string, Str "Acme"); ("Position"%string, Str "cook")]
             [("Company"%string, Str "Acme"); ("Job Title"%string, Str "dean")]);
    [|done|done].
  change (usable_company target_titled _)
    with (Some (list_ascii_of_string "Acme", list_ascii_of_string "acme")).
  change (usable_company source_titled _)
    with (Some (list_ascii_of_string "Acme", list_ascii_of_string "acme")).
  cbv iota beta.
  replace (person_match thresholds _ _)
    with (title thresholds <=? token_sort_ratio (FStr "cook") (FStr "dean")); [done|].
  unfold person_match, title_signal.
  change (name_signal thresholds _ _) with false. change (email_signal _ _) with false.
  change (title_of _ "Position") with (list_ascii_of_string "cook").
  change (title_of _ "Job Title") with (list_ascii_of_string "dean").
  reflexivity.
Qed.

(** C8, as the code has it.  The company, the person and the title
    threshold each decide an output: for each there are frames and two
    sets of thresholds that differ in that value alone and give different
    rosters.  The e-mail and the department threshold are never read:
    sets of thresholds that agree on the other three give the same
    outputs on all inputs. *)
Theorem three_thresholds_gate :
  (exists input_file target_file c1 c2 p t,
     find_matches input_file target_file (thresholds_with c1 p t)
       <> find_matches input_file target_file (thresholds_with c2 p t)) /\
  (exists input_file target_file c p1 p2 t,
     find_matches input_file target_file (thresholds_with c p1 t)
       <> find_matches input_file target_file (thresholds_with c p2 t)) /\
  (exists input_file target_file c p t1 t2,
     find_matches input_file target_file (thresholds_with c p t1)
       <> find_matches input_file target_file (thresholds_with c p t2)) /\
  (forall input_file target_file input_contacts target_contacts ideal_df source_df
          thresholds1 thresholds2,
     same_read_thresholds thresholds1 thresholds2 ->
     engine_outputs input_file target_file input_contacts target_contacts
       ideal_df source_df thresholds1
     = engine_outputs input_file target_file input_contacts target_contacts
         ideal_df source_df thresholds2).
Proof.
  set (c := token_sort_ratio (FStr "acme") (FStr "acme")).
  repeat split.
  - set (z := token_sort_ratio (FStr "acme") (FStr "zzz")).
    exists (Some zzz_source), (Some acme_target), z, (z + 1), 0, 0.
    rewrite !company_gate. cbn [company_name thresholds_with]. fold z.
    rewrite Z.leb_refl. destruct (Z.leb_spec (z + 1) z); [lia|done].
  - set (p := token_sort_ratio (FStr "ab") (FStr "xy")).
    exists (Some (named "ab")), (Some (named "xy")), c, p, (p + 1), 0.
    rewrite !person_gate. cbn [company_name person_name thresholds_with].
    fold c p. rewrite !Z.leb_refl. destruct (Z.leb_spec (p + 1) p); [lia|].
    intros [=].
  - set (t := token_sort_ratio (FStr "cook") (FStr "dean")).
    exists (Some source_titled), (Some target_titled), c, 0, t, (t + 1).
    rewrite !title_gate. cbn [company_name title thresholds_with].
    fold c t. rewrite !Z.leb_refl. destruct (Z.leb_spec (t + 1) t); [lia|].
    intros [=].
  - intros. by apply engine_outputs_ext.
Qed.

End ThresholdsGate.

(** C8, the counterexample.  No input tells apart two sets of
    thresholds that differ in the e-mail threshold alone, and none tells
    apart two that differ in the department threshold alone. *)
Lemma email_and_department_thresholds_unread :
  ~ (exists (F : SimilarityProvider) input_file target_file input_contacts
            target_contacts ideal_df source_df c p t e1 e2 d,
       @engine_outputs F input_file target_file input_contacts target_contacts
          ideal_df source_df
          {| company_name := c; person_name := p; email := e1; title := t;
             department := d |}
       <> @engine_outputs F input_file target_file input_contacts target_contacts
            ideal_df source_df
            {| company_name := c; person_name := p; email := e2; title := t;
               department := d |}) /\
  ~ (exists (F : SimilarityProvider) input_file target_file input_contacts
            target_contacts ideal_df source_df c p t e d1 d2,
       @engine_outputs F input_file target_file input_contacts target_contacts
          ideal_df source_df
          {| company_name := c; person_name := p; email := e; title := t;
             department := d1 |}
       <> @engine_outputs F input_file target_file input_contacts target_contacts
            ideal_df source_df
            {| company_name := c; person_name := p; email := e; title := t;
               department := d2 |}).
Proof.
  split.
  - intros (F & i & t & ic & tc & idf & sdf & c & p & tt & e1 & e2 & d & Hne).
    apply Hne. by apply engine_outputs_ext.
  - intros (F & i & t & ic & tc & idf & sdf & c & p & tt & e & d1 & d2 & Hne).
    apply Hne. by apply engine_outputs_ext.
Qed.

(* ================================================================== *)
(** ** What the person matcher reports *)
(* ================================================================== *)

Section PersonMatcherResults.
Context `{F : SimilarityProvider}.
Import Leadmatcher.

Lemma person_step_inv thresholds input_c seen st target_c :
  person_loop_inv thresholds input_c seen st ->
  person_loop_inv thresholds input_c (seen ++ [target_c])
    (person_step thresholds input_c st target_c).
Proof.
  unfold person_loop_inv, person_step, acceptable.
  destruct st as [[m|] bs]; cbn [fst snd input_contact target_contact score].
  - intros (Hbs & Hin & (Hcm & Hthr & Hpos) & Hsc & before & after & Hseen & Hb & Ha).
    destruct (companies_match thresholds input_c target_c) eqn:Hc.
    + destruct ((person_name thresholds <=? pair_name_score thresholds input_c target_c)
                && (bs <? pair_name_score thresholds input_c target_c)) eqn:Hif;
        cbn [fst snd input_contact target_contact score].
      * apply andb_true_iff in Hif as [H1 H2].
        apply Z.leb_le in H1. apply Z.ltb_lt in H2.
        split_and!; try done; try lia.
        exists seen, []. split; [done|]. split; [|by intros t []].
        intros t Ht Hct. subst seen. apply in_app_or in Ht as [Ht|[<-|Ht]].
        -- specialize (Hb t Ht Hct). lia.
        -- lia.
        -- specialize (Ha t Ht Hct). lia.
      * split_and!; try done.
        exists before, (after ++ [target_c]). split; [by rewrite Hseen, <- app_assoc|].
        split; [done|]. intros t Ht Hct. apply in_app_or in Ht as [Ht|[<-|[]]]; [by apply Ha|].
        apply andb_false_iff in Hif as [H1|H2];
          [apply Z.leb_gt in H1|apply Z.ltb_ge in H2]; lia.
    + cbn [fst snd input_contact target_contact score]. split_and!; try done.
      exists before, (after ++ [target_c]). split; [by rewrite Hseen, <- app_assoc|].
      split; [done|]. intros t Ht Hct. apply in_app_or in Ht as [Ht|[<-|[]]]; [by apply Ha|].
      congruence.
  - intros [Hbs Hnone]. subst bs.
    destruct (companies_match thresholds input_c target_c) eqn:Hc.
    + destruct ((person_name thresholds <=? pair_name_score thresholds input_c target_c)
                && (0 <? pair_name_score thresholds input_c target_c)) eqn:Hif;
        cbn [fst snd input_contact target_contact score].
      * apply andb_true_iff in Hif as [H1 H2].
        apply Z.leb_le in H1. apply Z.ltb_lt in H2.
        split_and!; try done.
        exists seen, []. split; [done|]. split; [|by intros t []].
        intros t Ht Hct.
        destruct (Z_lt_ge_dec (pair_name_score thresholds input_c t)
                    (pair_name_score thresholds input_c target_c)) as [|Hge]; [done|].
        exfalso. apply (Hnone t Ht). repeat split; [done|lia|lia].
      * split; [done|]. intros t Ht (Hct & Hthr & Hpos).
        apply in_app_or in Ht as [Ht|[<-|[]]]; [by apply (Hnone t Ht)|].
        apply andb_false_iff in Hif as [H1|H2];
          [apply Z.leb_gt in H1|apply Z.ltb_ge in H2]; lia.
    + cbn [fst snd input_contact target_contact score]. split; [done|]. intros t Ht (Hct & Hthr & Hpos).
      apply in_app_or in Ht as [Ht|[<-|[]]]; [by apply (Hnone t Ht)|congruence].
Qed.

Lemma person_fold_inv thresholds input_c targets : forall seen st,
  person_loop_inv thresholds input_c seen st ->
  person_loop_inv thresholds input_c (seen ++ targets)
    (foldl (person_step thresholds input_c) st targets).
Proof.
  induction targets as [|t targets IH]; intros seen st Hst; simpl.
  - by rewrite app_nil_r.
  - replace (seen ++ t :: targets) with ((seen ++ [t]) ++ targets)
      by (by rewrite <- app_assoc).
    apply IH. by apply person_step_inv.
Qed.

Lemma best_person_match_inv thresholds input_c targets :
  person_loop_inv thresholds input_c targets
    (foldl (person_step thresholds input_c) (None, 0) targets).
Proof.
  apply (person_fold_inv thresholds input_c targets [] (None, 0)).
  split; [done|]. by intros t [].
Qed.

Lemma best_person_match_some thresholds input_c targets m :
  best_person_match thresholds input_c targets = Some m ->
  input_contact m = input_c /\
  acceptable thresholds input_c (target_contact m) /\
  score m = pair_name_score thresholds input_c (target_contact m) /\
  exists before after,
    targets = before ++ target_contact m :: after /\
    (forall t, In t before -> companies_match thresholds input_c t = true ->
       pair_name_score thresholds input_c t < score m) /\
    (forall t, In t after -> companies_match thresholds input_c t = true ->
       pair_name_score thresholds input_c t <= score m).
Proof.
  unfold best_person_match. intros Hm.
  pose proof (best_person_match_inv thresholds input_c targets) as Hinv.
  unfold person_loop_inv in Hinv. rewrite Hm in Hinv.
  by destruct Hinv as (_ & ? & ? & ? & ?).
Qed.

Lemma best_person_match_none thresholds input_c targets :
  best_person_match thresholds input_c targets = None ->
  forall t, In t targets -> ~ acceptable thresholds input_c t.
Proof.
  unfold best_person_match. intros Hm.
  pose proof (best_person_match_inv thresholds input_c targets) as Hinv.
  unfold person_loop_inv in Hinv. rewrite Hm in Hinv. by destruct Hinv.
Qed.

Lemma find_person_matches_elem thresholds inputs targets m :
  In m (find_person_matches inputs targets thresholds) <->
  exists input_c, In input_c inputs /\
    best_person_match thresholds input_c targets = Some m.
Proof.
  unfold find_person_matches. rewrite <- list_elem_of_In, list_elem_of_omap.
  split; intros (i & Hi & Hm); exists i; by rewrite ?list_elem_of_In in *.
Qed.

(** X7.  Every match [find_person_matches] reports pairs an input
    contact with a target contact of the two lists; the companies of
    the two pass the company test; the score is the name score of the
    pair, it reaches the person threshold and it is above 0 (a pair
    that scores 0 is never reported, even with a threshold of 0). *)
Theorem person_matches_are_acceptable
    (input_contacts target_contacts : list contact) (thresholds : Thresholds) :
  Forall (fun m =>
            In (input_contact m) input_contacts /\
            In (target_contact m) target_contacts /\
            companies_match thresholds (input_contact m) (target_contact m) = true /\
            score m = pair_name_score thresholds (input_contact m) (target_contact m) /\
            person_name thresholds <= score m /\ 0 < score m)
    (find_person_matches input_contacts target_contacts thresholds).
Proof.
  apply List.Forall_forall. intros m Hm.
  apply find_person_matches_elem in Hm as (i & Hi & Hm).
  apply best_person_match_some in Hm
    as (<- & (Hcm & Hthr & Hpos) & Hsc & before & after & Ht & _).
  split_and!; try done; try lia.
  rewrite Ht. apply in_or_app. right. by left.
Qed.

(** X8.  The target of a reported match is the first of the best:
    among the targets whose company passes the company test, those
    before it score strictly less and those after it score no more. *)
Theorem person_match_is_first_best
    (input_contacts target_contacts : list contact) (thresholds : Thresholds) :
  Forall (fun m =>
            exists before after,
              target_contacts = before ++ target_contact m :: after /\
              (forall t, In t before ->
                 companies_match thresholds (input_contact m) t = true ->
                 pair_name_score thresholds (input_contact m) t < score m) /\
              (forall t, In t after ->
                 companies_match thresholds (input_contact m) t = true ->
                 pair_name_score thresholds (input_contact m) t <= score m))
    (find_person_matches input_contacts target_contacts thresholds).
Proof.
  apply List.Forall_forall. intros m Hm.
  apply find_person_matches_elem in Hm as (i & Hi & Hm).
  by apply best_person_match_some in Hm as (<- & _ & _ & Hbest).
Qed.

(** X9.  [find_person_matches] reports at most one match for an
    input contact, in the order of the input: the input contacts of the
    matches are a sublist of the input. *)
Theorem one_person_match_per_input
    (input_contacts target_contacts : list contact) (thresholds : Thresholds) :
  sublist (map input_contact
             (find_person_matches input_contacts target_contacts thresholds))
    input_contacts.
Proof.
  unfold find_person_matches.
  induction input_contacts as [|i inputs IH]; [constructor|].
  cbn [omap list_omap].
  change (list_omap ?f ?l) with (omap f l).
  destruct (best_person_match thresholds i target_contacts) as [m|] eqn:Hm.
  - apply best_person_match_some in Hm as (Hi & _). cbn [map]. rewrite Hi.
    by constructor.
  - by constructor.
Qed.

(** X10.  An input contact has a match exactly when it is in the input
    and some target passes the company test with a name score that
    reaches the person threshold and is above 0. *)
Theorem person_match_exists_iff
    (input_contacts target_contacts : list contact) (thresholds : Thresholds)
    (input_c : contact) :
  (exists m, In m (find_person_matches input_contacts target_contacts thresholds) /\
             input_contact m = input_c) <->
  In input_c input_contacts /\
  exists target_c, In target_c target_contacts /\
    companies_match thresholds input_c target_c = true /\
    person_name thresholds <= pair_name_score thresholds input_c target_c /\
    0 < pair_name_score thresholds input_c target_c.
Proof.
  split.
  - intros (m & Hm & <-). apply find_person_matches_elem in Hm as (i & Hin & Hm).
    apply best_person_match_some in Hm as (Hi' & Hacc & _ & before & after & Ht & _).
    rewrite Hi'. split; [done|].
    exists (target_contact m). split; [|exact Hacc].
    rewrite Ht. apply in_or_app. right. by left.
  - intros (Hi & t & Ht & Hacc).
    destruct (best_person_match thresholds input_c target_contacts) as [m|] eqn:Hm.
    + exists m. split; [apply find_person_matches_elem; eauto|].
      by apply best_person_match_some in Hm as (? & _).
    + exfalso. by apply (best_person_match_none _ _ _ Hm t Ht).
Qed.

Lemma foldl_ge {B} (f : Z -> B -> Z) (l : list B) : forall a,
  (forall a b, a <= f a b) -> a <= foldl f a l.
Proof.
  induction l as [|b l IH]; intros a Hf; simpl; [lia|].
  specialize (IH (f a b) Hf). specialize (Hf a b). lia.
Qed.

(** X11.  The nickname table and the boost of an exact e-mail match
    never lower the score of a pair: the name score is at least the
    direct score of the two keys. *)
Theorem pair_name_score_at_least_direct
    (thresholds : Thresholds) (input_c target_c : contact) :
  best_of_three (FKey (get_person_key input_c)) (FKey (get_person_key target_c))
    <= pair_name_score thresholds input_c target_c.
Proof.
  unfold pair_name_score.
  set (direct := best_of_three _ _).
  assert (Hnick : direct <= (if direct <? person_name thresholds
                             then nickname_score input_c target_c direct
                             else direct)).
  { destruct (direct <? person_name thresholds); [|lia].
    unfold nickname_score. apply foldl_ge. intros a i. apply foldl_ge.
    intros a' t. lia. }
  cbv zeta.
  destruct (truthy (contact_get input_c "email") && truthy (contact_get target_c "email"));
    [|exact Hnick].
  destruct (ratio _ _ =? 100); [lia|exact Hnick].
Qed.

End PersonMatcherResults.

(* ================================================================== *)
(** ** What the company matcher of app.py reports *)
(* ================================================================== *)

Section CompanyMatcherResults.
Context `{F : SimilarityProvider}.
Import App.

Lemma extract_step query seen st c :
  extract_inv query seen st ->
  extract_inv query (seen ++ [c])
    (if decide (0 <= token_sort_ratio (FStr query) (FStr c))
     then extract_better st (c, token_sort_ratio (FStr query) (FStr c)) else st).
Proof.
  intros Hst. destruct st as [[b sb]|]; cbn [extract_inv extract_better fst snd] in *.
  - destruct Hst as (Hsb & Hpos & before & after & -> & Hb & Ha).
    assert (Hkeep : token_sort_ratio (FStr query) (FStr c) <= sb ->
              extract_inv query ((before ++ b :: after) ++ [c]) (Some (b, sb))).
    { intros Hle. cbn [extract_inv fst snd]. split_and!; [done|done|].
      exists before, (after ++ [c]). split_and!; [by rewrite <- app_assoc|done|].
      intros c' Hc'. apply in_app_or in Hc' as [Hc'|[<-|[]]]; [by apply Ha|done]. }
    destruct (decide (0 <= token_sort_ratio (FStr query) (FStr c))) as [Hs|Hs];
      [|apply Hkeep; lia].
    destruct (Z.ltb_spec sb (token_sort_ratio (FStr query) (FStr c))) as [Hlt|Hge];
      [|by apply Hkeep].
    cbn [extract_inv fst snd]. split_and!; [done|done|].
    exists (before ++ b :: after), []. split_and!; [done| |by intros ? []].
    intros c' Hc'. apply in_app_or in Hc' as [Hc'|[<-|Hc']].
    + specialize (Hb c' Hc'). lia.
    + lia.
    + specialize (Ha c' Hc'). lia.
  - destruct (decide (0 <= token_sort_ratio (FStr query) (FStr c))) as [Hs|Hs];
      cbn [extract_inv fst snd].
    + split_and!; [done|done|]. exists seen, []. split_and!; [done| |by intros ? []].
      intros c' Hc'. specialize (Hst c' Hc'). lia.
    + intros c' Hc'. apply in_app_or in Hc' as [Hc'|[<-|[]]]; [by apply Hst|lia].
Qed.

Lemma extract_scan query choices : forall seen st,
  extract_inv query seen st ->
  extract_inv query (seen ++ choices)
    (foldl extract_better st
       (filter (fun cs : text * Z => 0 <= snd cs)
          (map (fun c => (c, token_sort_ratio (FStr query) (FStr c))) choices))).
Proof.
  induction choices as [|c choices IH]; intros seen st Hst.
  - by rewrite app_nil_r.
  - replace (seen ++ c :: choices) with ((seen ++ [c]) ++ choices)
      by (by rewrite <- app_assoc).
    apply (extract_step query seen st c) in Hst. cbn [map].
    destruct (decide (0 <= token_sort_ratio (FStr query) (FStr c))) as [Hs|Hs].
    + rewrite filter_cons_True by done. cbn [foldl]. by apply IH.
    + rewrite filter_cons_False by done. by apply IH.
Qed.

(** [extractOne] returns the first of the choices with the highest
    score, and [None] when no choice has a score of 0 or more. *)
Lemma extractOne_spec query choices :
  extract_inv query choices (extractOne query choices).
Proof. apply (extract_scan query choices [] None). by intros c []. Qed.

Lemma map_lookup {A B} (f : A -> B) (l : list A) (j : nat) :
  map f l !! j = f <$> (l !! j).
Proof. revert j. induction l as [|x l IH]; intros [|j]; simpl; auto. Qed.

Lemma map_snd_enumerate {A} (l : list A) : forall n, map snd (enumerate_from n l) = l.
Proof. induction l as [|x l IH]; intros n; simpl; [done|]. by rewrite IH. Qed.

Lemma head_filter_enumerate (best : text) (names : list text) : forall n i x,
  head (filter (fun kv : nat * text => snd kv = best) (enumerate_from n names))
    = Some (i, x) ->
  x = best /\ (n <= i)%nat /\ names !! (i - n)%nat = Some best /\
  forall j, (j < i - n)%nat -> names !! j <> Some best.
Proof.
  induction names as [|a names IH]; intros n i x; cbn [enumerate_from]; [done|].
  destruct (decide (a = best)) as [->|Hne].
  - rewrite filter_cons_True by done. intros [= <- <-].
    rewrite Nat.sub_diag. split_and!; try done. intros j Hj. lia.
  - rewrite filter_cons_False by done. intros Hh.
    apply IH in Hh as (-> & Hle & Hi & Hfirst).
    replace (i - n)%nat with (S (i - S n)) by lia.
    split_and!; [done|lia|done|].
    intros [|j] Hj; [cbn; congruence|]. cbn. apply Hfirst. lia.
Qed.

Lemma company_cells_spec ideal_df source_df thr :
  match_companies ideal_df source_df thr =
    match company_col source_df, company_col ideal_df with
    | Some _, Some _ =>
        source_loop thr (company_cells ideal_df) (company_cells source_df)
          (enumerate (map normalize_company_name (company_cells ideal_df))) []
          (enumerate (map normalize_company_name (company_cells source_df)))
    | _, _ => Ok []
    end.
Proof.
  unfold match_companies, company_cells.
  destruct (company_col source_df); [|done]. by destruct (company_col ideal_df).
Qed.

(** What [recorded] says of a match in terms of the two columns. *)
Lemma recorded_in_columns thr ic sc i norm m :
  map normalize_company_name sc !! i = Some norm ->
  recorded thr ic sc (enumerate (map normalize_company_name ic)) (i, norm) m ->
  let score_of v := token_sort_ratio (FStr (normalize_company_name (source_company m)))
                      (FStr (normalize_company_name v)) in
  source_idx m = i /\ sc !! i = Some (source_company m) /\
  ic !! ideal_idx m = Some (ideal_company m) /\
  normalize_company_name (source_company m) <> [] /\
  score m = score_of (ideal_company m) /\ thr <= score m /\
  (forall j v, ic !! j = Some v -> score_of v <= score m) /\
  (forall j v, (j < ideal_idx m)%nat -> ic !! j = Some v -> score_of v < score m).
Proof.
  intros Hnorm (Hidx & Hne & Hsrc & Hideal & Hthr & best & x & Hbest & Hhead).
  cbn [fst snd] in *. rewrite map_lookup in Hnorm.
  destruct (sc !! i) as [v|] eqn:Hv; [|done]. injection Hnorm as Hnorm.
  simpl in Hsrc. subst v.
  unfold enumerate in *. rewrite map_snd_enumerate in Hbest.
  apply head_filter_enumerate in Hhead as (-> & _ & Hi & Hfirst).
  rewrite Nat.sub_0_r in Hi, Hfirst. rewrite map_lookup in Hi.
  destruct (ic !! ideal_idx m) as [w|] eqn:Hw; [|done]. injection Hi as Hi.
  simpl in Hideal. subst w.
  pose proof (extractOne_spec norm (map normalize_company_name ic)) as Hinv.
  rewrite Hbest in Hinv. cbn [extract_inv fst snd] in Hinv.
  destruct Hinv as (Hs & Hpos & before & after & Hnames & Hb & Ha).
  cbv zeta. rewrite Hnorm, Hi. split_and!; try done; try congruence.
  - intros j v Hj.
    assert (Hin : In (normalize_company_name v) (map normalize_company_name ic)).
    { apply in_map. apply list_elem_of_In. by eapply list_elem_of_lookup_2. }
    rewrite Hnames in Hin. apply in_app_or in Hin as [Hin|[Heq|Hin]].
    + specialize (Hb _ Hin). lia.
    + rewrite <- Heq. lia.
    + by apply Ha.
  - intros j v Hlt Hj.
    assert (Hlen : (ideal_idx m <= length before)%nat).
    { destruct (Nat.le_gt_cases (ideal_idx m) (length before)) as [|Hgt]; [done|].
      exfalso. apply (Hfirst (length before) Hgt).
      rewrite Hnames. by rewrite list_lookup_middle. }
    apply Hb. apply list_elem_of_In. apply (list_elem_of_lookup_2 _ j).
    assert (Hj' : map normalize_company_name ic !! j = Some (normalize_company_name v))
      by (by rewrite map_lookup, Hj).
    rewrite Hnames, lookup_app_l in Hj' by lia. done.
Qed.

(** X12.  Every record [match_companies] returns is what the two
    company columns say: the two indices are rows of the columns, the
    two names are the cells of these rows, the source name does not
    normalise to the empty string, the score is the score of the two
    normalised names and it reaches the threshold. *)
Theorem match_records_are_consistent
    (ideal_df source_df : DataFrame) (company_threshold : Z) (ms : list CompanyMatch) :
  match_companies ideal_df source_df company_threshold = Ok ms ->
  Forall (fun m =>
            company_cells source_df !! source_idx m = Some (source_company m) /\
            company_cells ideal_df !! ideal_idx m = Some (ideal_company m) /\
            normalize_company_name (source_company m) <> [] /\
            score m = token_sort_ratio
                        (FStr (normalize_company_name (source_company m)))
                        (FStr (normalize_company_name (ideal_company m))) /\
            company_threshold <= score m) ms.
Proof.
  rewrite company_cells_spec.
  destruct (company_col source_df); [|by intros [= <-]].
  destruct (company_col ideal_df); [|by intros [= <-]].
  intros Hloop. apply source_loop_spec in Hloop as (new & -> & _ & Hall).
  cbn [app]. eapply Forall_impl; [exact Hall|].
  intros m (_ & norm & Hnorm & Hrec).
  replace (source_idx m - 0)%nat with (source_idx m) in Hnorm by lia.
  apply recorded_in_columns in Hrec; [|done].
  destruct Hrec as (_ & ? & ? & ? & ? & ? & _). by split_and!.
Qed.

(** X13.  The target of a record is the first target row with the
    highest score: no target row scores more against the source name,
    and every row before [ideal_idx] scores strictly less. *)
Theorem match_target_is_first_best
    (ideal_df source_df : DataFrame) (company_threshold : Z) (ms : list CompanyMatch) :
  match_companies ideal_df source_df company_threshold = Ok ms ->
  Forall (fun m =>
            let score_of v :=
              token_sort_ratio (FStr (normalize_company_name (source_company m)))
                (FStr (normalize_company_name v)) in
            (forall j v, company_cells ideal_df !! j = Some v -> score_of v <= score m) /\
            (forall j v, (j < ideal_idx m)%nat ->
               company_cells ideal_df !! j = Some v -> score_of v < score m)) ms.
Proof.
  rewrite company_cells_spec.
  destruct (company_col source_df); [|by intros [= <-]].
  destruct (company_col ideal_df); [|by intros [= <-]].
  intros Hloop. apply source_loop_spec in Hloop as (new & -> & _ & Hall).
  cbn [app]. eapply Forall_impl; [exact Hall|].
  intros m (_ & norm & Hnorm & Hrec).
  replace (source_idx m - 0)%nat with (source_idx m) in Hnorm by lia.
  apply recorded_in_columns in Hrec; [|done].
  by destruct Hrec as (_ & _ & _ & _ & _ & _ & ? & ?).
Qed.

Lemma source_loop_skips thr ic sc idc : forall srcs ms,
  Forall (fun src : nat * text => snd src = []) srcs ->
  source_loop thr ic sc idc ms srcs = Ok ms.
Proof.
  induction srcs as [|[i norm] srcs IH]; intros ms Hall; [done|].
  inversion Hall as [|? ? Hnorm Hall']; subst. cbn [snd] in Hnorm. subst norm.
  cbn [source_loop source_step truthy negb]. by apply IH.
Qed.

Lemma source_loop_raises_without_choices thr ic sc : forall srcs ms,
  Exists (fun src : nat * text => snd src <> []) srcs ->
  source_loop thr ic sc [] ms srcs = Raise TypeError.
Proof.
  induction srcs as [|[i norm] srcs IH]; intros ms Hex; [by inversion Hex|].
  cbn [source_loop]. unfold source_step. destruct norm as [|c norm]; cbn [truthy negb].
  - apply IH. by inversion Hex.
  - reflexivity.
Qed.

Lemma enumerate_from_Forall {A} (P : A -> Prop) (l : list A) : forall n,
  Forall P l -> Forall (fun src : nat * A => P (snd src)) (enumerate_from n l).
Proof.
  induction l as [|x l IH]; intros n Hall; [constructor|].
  inversion Hall; subst. constructor; [done|by apply IH].
Qed.

Lemma column_length df col : length (column df col) = length (rows df).
Proof. unfold column, iterrows. by rewrite !length_map. Qed.

(** X14.  When [match_companies] raises.  With scores that are not
    negative, the function raises exactly when the target frame has a
    company column and no row while the source frame has a company cell
    that does not normalise to the empty string; the exception is the
    [TypeError] of unpacking [None]. *)
Theorem match_companies_raises_iff
    (ProviderRange : forall a b, 0 <= token_sort_ratio a b)
    (ideal_df source_df : DataFrame) (company_threshold : Z) (e : exception) :
  match_companies ideal_df source_df company_threshold = Raise e <->
  e = TypeError /\ is_Some (company_col ideal_df) /\ rows ideal_df = [] /\
  Exists (fun v => normalize_company_name v <> []) (company_cells source_df).
Proof.
  rewrite company_cells_spec. unfold company_cells.
  destruct (company_col source_df) as [scol|] eqn:Hscol.
  2: { split; [done|]. intros (_ & _ & _ & Hex). by inversion Hex. }
  destruct (company_col ideal_df) as [icol|] eqn:Hicol.
  2: { split; [done|]. by intros (_ & [? ?] & _). }
  destruct (decide (rows ideal_df = [])) as [Hrows|Hrows].
  - assert (Hic : column ideal_df icol = []).
    { apply length_zero_iff_nil. by rewrite column_length, Hrows. }
    rewrite Hic. cbn [map enumerate enumerate_from].
    destruct (decide (Exists (fun v => normalize_company_name v <> [])
                        (column source_df scol))) as [Hex|Hnex].
    + rewrite source_loop_raises_without_choices.
      * split; [by intros [= <-]|by intros (-> & _)].
      * apply (enumerate_from_exists (fun norm : text => norm <> [])).
        by apply List.Exists_map.
    + rewrite source_loop_skips; [split; [done|by intros (_ & _ & _ & ?)]|].
      apply (enumerate_from_Forall (fun norm : text => norm = [])).
      apply List.Forall_map. apply List.Forall_forall. intros v Hv.
      destruct (normalize_company_name v) eqn:Hn; [done|].
      exfalso. apply Hnex. apply List.Exists_exists. exists v. split; [done|].
      by rewrite Hn.
  - destruct (source_loop_total ProviderRange company_threshold
                (column ideal_df icol) (column source_df scol)
                (enumerate (map normalize_company_name (column ideal_df icol)))
                (enumerate (map normalize_company_name (column source_df scol))) [])
      as [ms ->].
    { unfold column, iterrows. by destruct (rows ideal_df). }
    split; [done|]. by intros (_ & _ & ? & _).
Qed.

End CompanyMatcherResults.

Lemma exact_score_range (a b : fuzz_arg) : 0 <= exact_score a b.
Proof. unfold exact_score. case_bool_decide; lia. Qed.

Lemma match_records_are_consistent_witness :
  exists ms,
    @App.match_companies exact_provider acme_target acme_sources 85 = Ok ms /\
    Forall (fun m =>
              company_cells acme_sources !! App.source_idx m = Some (App.source_company m) /\
              company_cells acme_target !! App.ideal_idx m = Some (App.ideal_company m) /\
              App.normalize_company_name (App.source_company m) <> [] /\
              App.score m = exact_score
                          (FStr (App.normalize_company_name (App.source_company m)))
                          (FStr (App.normalize_company_name (App.ideal_company m))) /\
              85 <= App.score m) ms.
Proof.
  eexists. split; [vm_compute; reflexivity|].
  apply (@match_records_are_consistent exact_provider acme_target acme_sources 85).
  vm_compute. reflexivity.
Defined.

Lemma match_target_is_first_best_witness :
  exists ms,
    @App.match_companies exact_provider acme_target acme_sources 85 = Ok ms /\
    Forall (fun m =>
              let score_of v :=
                exact_score (FStr (App.normalize_company_name (App.source_company m)))
                  (FStr (App.normalize_company_name v)) in
              (forall j v, company_cells acme_target !! j = Some v ->
                 score_of v <= App.score m) /\
              (forall j v, (j < App.ideal_idx m)%nat ->
                 company_cells acme_target !! j = Some v -> score_of v < App.score m)) ms.
Proof.
  eexists. split; [vm_compute; reflexivity|].
  apply (@match_target_is_first_best exact_provider acme_target acme_sources 85).
  vm_compute. reflexivity.
Defined.

Lemma match_companies_raises_iff_witness :
  @App.match_companies exact_provider (one_column []) acme_sources 85 = Raise TypeError <->
  TypeError = TypeError /\ is_Some (App.company_col (one_column [])) /\
  rows (one_column []) = [] /\
  Exists (fun v => App.normalize_company_name v <> []) (company_cells acme_sources).
Proof.
  apply (@match_companies_raises_iff exact_provider exact_score_range).
Defined.

(* ================================================================== *)
(** ** The shape of the roster *)
(* ================================================================== *)

(** *** The order of strings *)

Lemma code_inj c d : code c = code d -> c = d.
Proof.
  unfold code. intros Hcd. apply (f_equal ascii_of_N) in Hcd.
  by rewrite !ascii_N_embedding in Hcd.
Qed.

Lemma text_ltb_irrefl s : text_ltb s s = false.
Proof.
  induction s as [|c s IH]; [done|]. cbn [text_ltb].
  rewrite N.ltb_irrefl, N.eqb_refl. exact IH.
Qed.

Lemma text_ltb_trans : forall a b c,
  text_ltb a b = true -> text_ltb b c = true -> text_ltb a c = true.
Proof.
  induction a as [|x a IH]; intros [|y b] [|z c]; cbn [text_ltb]; try done.
  rewrite !orb_true_iff, !andb_true_iff, !N.ltb_lt, !N.eqb_eq.
  intros [Hxy|[Hxy Hab]] [Hyz|[Hyz Hbc]]; try (left; lia).
  right. split; [lia|]. by apply (IH b c).
Qed.

Lemma text_ltb_total : forall a b,
  text_ltb a b = false -> text_ltb b a = false -> a = b.
Proof.
  induction a as [|x a IH]; intros [|y b]; cbn [text_ltb]; try done.
  rewrite !orb_false_iff, !andb_false_iff, !N.ltb_ge, !N.eqb_neq.
  intros [Hxy Hab] [Hyx Hba].
  assert (code x = code y) as Hc by lia. apply code_inj in Hc as ->.
  f_equal. apply IH; [by destruct Hab|by destruct Hba].
Qed.

Lemma text_ltb_asym a b : text_ltb a b = true -> text_ltb b a = false.
Proof.
  intros Hab. destruct (text_ltb b a) eqn:Hba; [|done].
  by rewrite <- (text_ltb_irrefl a), <- (text_ltb_trans a b a Hab Hba).
Qed.

(** "Not after" is transitive. *)
Lemma text_leb_trans a b c :
  text_ltb b a = false -> text_ltb c b = false -> text_ltb c a = false.
Proof.
  intros Hab Hbc. destruct (text_ltb c a) eqn:Hca; [|done].
  destruct (text_ltb a b) eqn:Hab'.
  - by rewrite (text_ltb_trans c a b Hca Hab') in Hbc.
  - rewrite (text_ltb_total a b Hab' Hab) in Hca. congruence.
Qed.

Section RosterOrder.
Import Leadmatcher.

Lemma insert_by_name_sorted e l :
  StronglySorted by_display_name l -> StronglySorted by_display_name (insert_by_name e l).
Proof.
  induction 1 as [|x l Hl IH Hx]; cbn [insert_by_name]; [by repeat constructor|].
  destruct (text_ltb (lower (display_name x)) (lower (display_name e))) eqn:Hxe.
  - constructor; [exact IH|]. apply Forall_forall. intros y Hy.
    apply insert_by_name_elem in Hy as [->|Hy].
    + by apply text_ltb_asym.
    + rewrite Forall_forall in Hx. by apply Hx.
  - constructor; [by constructor|]. constructor; [exact Hxe|].
    eapply Forall_impl; [exact Hx|]. intros y Hy.
    unfold by_display_name in *. by eapply text_leb_trans.
Qed.

Lemma sorted_by_name_sorted l : StronglySorted by_display_name (sorted_by_name l).
Proof.
  unfold sorted_by_name. induction l as [|e l IH]; cbn [foldr]; [constructor|].
  by apply insert_by_name_sorted.
Qed.

Lemma insert_by_name_perm e l : insert_by_name e l ≡ₚ e :: l.
Proof.
  induction l as [|x l IH]; cbn [insert_by_name]; [done|].
  destruct (text_ltb _ _); [|done]. rewrite IH. apply Permutation_swap.
Qed.

Lemma sorted_by_name_perm l : sorted_by_name l ≡ₚ l.
Proof.
  unfold sorted_by_name. induction l as [|e l IH]; cbn [foldr]; [done|].
  by rewrite insert_by_name_perm, IH.
Qed.

End RosterOrder.

(** *** Keys of a dictionary *)

Section DictKeys.
Context {V : Type}.
Implicit Types (d e : list (text * V)) (k : text) (v : V).

Lemma dict_set_key_in k k' v d :
  In k (map fst (dict_set k' v d)) <-> k = k' \/ In k (map fst d).
Proof.
  rewrite dict_set_keys. case_bool_decide as Hin.
  - apply list_elem_of_In in Hin. split; [by right|]. by intros [->|?].
  - rewrite in_app_iff. cbn [In]. split; [intros [?|[<-|[]]]; auto|].
    intros [->|?]; auto.
Qed.

Lemma dict_get_set k k' v d :
  dict_get k (dict_set k' v d) = if text_eqb k k' then Some v else dict_get k d.
Proof.
  induction d as [|[k0 v0] d IH]; cbn [dict_set dict_get]; [done|].
  destruct (text_eqb k' k0) eqn:Hk'; cbn [dict_get].
  - apply text_eqb_eq in Hk' as <-. by destruct (text_eqb k k').
  - rewrite IH. destruct (text_eqb k k0) eqn:Hk0; [|done].
    apply text_eqb_eq in Hk0 as <-.
    destruct (text_eqb k k') eqn:Hkk'; [|done].
    apply text_eqb_eq in Hkk' as <-. unfold text_eqb in Hk'.
    by rewrite bool_decide_eq_true_2 in Hk'.
Qed.

Lemma dict_get_of_elem k v d :
  NoDup (map fst d) -> (k, v) ∈ d -> dict_get k d = Some v.
Proof.
  induction d as [|[k0 v0] d IH]; intros Hnd Hin; [by apply elem_of_nil in Hin|].
  cbn [map fst] in Hnd. apply NoDup_cons in Hnd as [Hk0 Hnd].
  cbn [dict_get]. apply elem_of_cons in Hin as [[= -> ->]|Hin].
  - unfold text_eqb. by rewrite bool_decide_eq_true_2.
  - destruct (text_eqb k k0) eqn:Hk; [|by apply IH].
    apply text_eqb_eq in Hk as ->. exfalso. apply Hk0.
    apply list_elem_of_In, in_map_iff. exists (k0, v). split; [done|].
    by apply list_elem_of_In.
Qed.

Lemma dict_update_key_in k d e :
  In k (map fst d) \/ In k (map fst e) -> In k (map fst (dict_update d e)).
Proof.
  unfold dict_update. revert d. induction e as [|[k' v'] e IH]; intros d; cbn [foldl].
  - by intros [?|[]].
  - cbn [map fst In snd]. intros Hin. apply IH.
    rewrite dict_set_key_in. destruct Hin as [?|[->|?]]; auto.
Qed.

End DictKeys.

Section RosterCoverage.
Context `{F : SimilarityProvider}.
Import Leadmatcher.
Variable thresholds : Thresholds.
Variable input_contacts target_contacts : DataFrame.

(** The keys of a dictionary of contacts are the contact keys of its
    values. *)
Lemma keyed_keys (d : list (text * ContactData)) :
  Forall (fun kv => fst kv = entry_key (snd kv)) d ->
  map entry_key (dict_values d) = map fst d.
Proof.
  intros Hd. unfold dict_values. rewrite map_map. apply map_ext_in.
  intros kv Hkv. rewrite List.Forall_forall in Hd. by rewrite (Hd kv Hkv).
Qed.

Lemma existing_dict_keyed (cs : list ContactData) : forall d,
  NoDup (map fst d) -> Forall (fun kv => fst kv = entry_key (snd kv)) d ->
  let d' := foldl (fun d c => dict_set (entry_key c) c d) d cs in
  NoDup (map fst d') /\ Forall (fun kv => fst kv = entry_key (snd kv)) d'.
Proof.
  induction cs as [|c cs IH]; intros d Hnd Hd; [done|]. cbn [foldl].
  apply IH; [by apply dict_set_NoDup|by apply dict_set_Forall].
Qed.

Lemma source_step_keeps_key target_row target_norm d source_row k :
  In k (map fst d) ->
  In k (map fst (source_step thresholds input_contacts target_row target_norm d source_row)).
Proof.
  intros Hk. unfold source_step.
  destruct (usable_company input_contacts source_row) as [[company norm]|]; [|done].
  destruct (_ <=? _); [|done]. apply dict_set_key_in. by right.
Qed.

Lemma source_fold_keeps_key target_row target_norm source_rows k : forall d,
  In k (map fst d) ->
  In k (map fst (foldl (source_step thresholds input_contacts target_row target_norm)
                   d source_rows)).
Proof.
  induction source_rows as [|r rs IH]; intros d Hk; [done|].
  cbn [foldl]. by apply IH, source_step_keeps_key.
Qed.

Lemma source_fold_has_key target_row target_norm source_rows source_row company norm :
  In source_row source_rows ->
  usable_company input_contacts source_row = Some (company, norm) ->
  company_name thresholds <= token_sort_ratio (FStr target_norm) (FStr norm) ->
  forall d,
    In (contact_key (map_fields source_row))
      (map fst (foldl (source_step thresholds input_contacts target_row target_norm)
                  d source_rows)).
Proof.
  intros Hin Hu Hthr.
  induction source_rows as [|r rs IH]; intros d; [done|].
  cbn [foldl]. destruct Hin as [->|Hin]; [|by apply IH].
  apply source_fold_keeps_key. unfold source_step. rewrite Hu.
  rewrite (proj2 (Z.leb_le _ _) Hthr). apply dict_set_key_in. by left.
Qed.

(** The contact dictionary of a target row is empty exactly when its
    normalised company is not reached. *)
Lemma contact_dict_reached target_row target_norm :
  foldl (source_step thresholds input_contacts target_row target_norm)
    [] (iterrows input_contacts) <> []
  <-> reached thresholds input_contacts target_norm.
Proof.
  split.
  - intros Hne.
    destruct (source_fold_ok thresholds input_contacts target_row target_norm
                (iterrows input_contacts) []) as [_ Hd]; [done|constructor|constructor|].
    destruct (foldl _ [] (iterrows input_contacts)) as [|kv d]; [done|].
    inversion Hd as [|? ? [_ (row & company & norm & ? & ? & ? & _)] _]; subst.
    by exists row, company, norm.
  - intros (row & company & norm & Hrow & Hu & Hthr) Hnil.
    pose proof (source_fold_has_key target_row target_norm (iterrows input_contacts)
                  row company norm (proj1 (list_elem_of_In _ _) Hrow) Hu Hthr []) as Hk.
    rewrite Hnil in Hk. destruct Hk.
Qed.

Lemma existing_dict_keys (cs : list ContactData) k : forall d,
  In k (map entry_key cs) \/ In k (map fst d) ->
  In k (map fst (foldl (fun d c => dict_set (entry_key c) c d) d cs)).
Proof.
  induction cs as [|c cs IH]; intros d; cbn [foldl map In].
  - by intros [[]|?].
  - intros Hk. apply IH. rewrite dict_set_key_in.
    destruct Hk as [[<-|?]|?]; auto.
Qed.

(** What one turn of the loop over the targets writes. *)
Lemma target_step_cases company_matches target_row :
  let cm' := target_step thresholds input_contacts target_contacts company_matches
               target_row in
  match usable_company target_contacts target_row with
  | None => cm' = company_matches
  | Some (target_company, target_norm) =>
      (~ reached thresholds input_contacts target_norm /\ cm' = company_matches) \/
      (reached thresholds input_contacts target_norm /\
       exists e, cm' = dict_set target_norm e company_matches /\
         norm_name e = target_norm /\
         display_name e =
           match dict_get target_norm company_matches with
           | Some existing => longer_name target_company (display_name existing)
           | None => target_company
           end /\
         (forall k,
            In k (map fst (foldl (source_step thresholds input_contacts target_row
                                    target_norm) [] (iterrows input_contacts))) ->
            In k (map entry_key (contacts e))) /\
         (forall existing, dict_get target_norm company_matches = Some existing ->
            forall k, In k (map entry_key (contacts existing)) ->
                      In k (map entry_key (contacts e))))
  end.
Proof.
  cbv zeta. unfold target_step.
  destruct (usable_company target_contacts target_row) as [[company target_norm]|];
    [|done].
  cbv zeta.
  pose proof (contact_dict_reached target_row target_norm) as Hreach.
  destruct (source_fold_ok thresholds input_contacts target_row target_norm
              (iterrows input_contacts) []) as [Hnd Hd]; [done|constructor|constructor|].
  assert (Hkeyed : Forall (fun kv => fst kv = entry_key (snd kv))
                     (foldl (source_step thresholds input_contacts target_row target_norm)
                        [] (iterrows input_contacts))).
  { eapply Forall_impl; [exact Hd|]. by intros kv [? _]. }
  set (cd := foldl _ [] (iterrows input_contacts)) in *.
  assert (cd = [] \/ cd <> []) as [Hnil|Hne] by (destruct cd; [by left|by right]).
  { left. split; [|by rewrite Hnil]. intros Hr. by apply Hreach in Hr. }
  right. split; [by apply Hreach|].
  destruct cd as [|kv0 cd0] eqn:Hcd; [done|]. rewrite <- Hcd in *. clear Hcd.
  destruct (dict_get target_norm company_matches) as [existing|] eqn:Hget.
  - eexists. split; [done|]. cbn [norm_name display_name contacts].
    destruct (existing_dict_keyed (contacts existing) []) as [Hnd0 Hd0];
      [constructor|constructor|].
    destruct (dict_update_spec (fun kv => fst kv = entry_key (snd kv)) cd _ Hnd0 Hd0)
      as (_ & Hd1 & _); [exact Hkeyed|].
    rewrite (keyed_keys _ Hd1).
    split_and!; [done|done| |].
    + intros k Hk. apply dict_update_key_in. by right.
    + intros ? [= <-] k Hk. apply dict_update_key_in. left.
      apply existing_dict_keys. by left.
  - eexists. split; [done|]. cbn [norm_name display_name contacts].
    split_and!; [done|done| |done].
    intros k Hk. by rewrite (keyed_keys cd Hkeyed).
Qed.


Lemma target_step_NoDup company_matches target_row :
  NoDup (map fst company_matches) ->
  NoDup (map fst (target_step thresholds input_contacts target_contacts
                    company_matches target_row)).
Proof.
  intros Hnd. pose proof (target_step_cases company_matches target_row) as Hc.
  cbv zeta in Hc.
  destruct (usable_company target_contacts target_row) as [[company target_norm]|];
    [|by rewrite Hc].
  destruct Hc as [[_ ->]|(_ & e & -> & _)]; [done|]. by apply dict_set_NoDup.
Qed.

Lemma target_fold_NoDup target_rows : forall company_matches,
  NoDup (map fst company_matches) ->
  NoDup (map fst (foldl (target_step thresholds input_contacts target_contacts)
                    company_matches target_rows)).
Proof.
  induction target_rows as [|r rs IH]; intros cm Hnd; [done|].
  cbn [foldl]. by apply IH, target_step_NoDup.
Qed.

(** An entry with the key [k] among its contacts stays, and keeps the
    key. *)
Lemma target_step_keeps_key company_matches target_row target_norm k :
  (exists e, dict_get target_norm company_matches = Some e /\
             In k (map entry_key (contacts e))) ->
  exists e, dict_get target_norm
              (target_step thresholds input_contacts target_contacts company_matches
                 target_row) = Some e /\
            In k (map entry_key (contacts e)).
Proof.
  intros (e & Hget & Hk).
  pose proof (target_step_cases company_matches target_row) as Hc. cbv zeta in Hc.
  destruct (usable_company target_contacts target_row) as [[company norm]|];
    [|rewrite Hc; eauto].
  destruct Hc as [[_ ->]|(_ & e' & -> & _ & _ & _ & Hold)]; [eauto|].
  rewrite dict_get_set. destruct (text_eqb target_norm norm) eqn:Heq; [|eauto].
  apply text_eqb_eq in Heq as <-. exists e'. split; [done|]. by apply (Hold e).
Qed.

Lemma target_fold_keeps_key target_rows target_norm k : forall company_matches,
  (exists e, dict_get target_norm company_matches = Some e /\
             In k (map entry_key (contacts e))) ->
  exists e, dict_get target_norm
              (foldl (target_step thresholds input_contacts target_contacts)
                 company_matches target_rows) = Some e /\
            In k (map entry_key (contacts e)).
Proof.
  induction target_rows as [|r rs IH]; intros cm Hcm; [done|].
  cbn [foldl]. by apply IH, target_step_keeps_key.
Qed.

Lemma target_fold_has_key target_rows target_row company target_norm
    source_row source_company source_norm :
  In target_row target_rows ->
  usable_company target_contacts target_row = Some (company, target_norm) ->
  In source_row (iterrows input_contacts) ->
  usable_company input_contacts source_row = Some (source_company, source_norm) ->
  company_name thresholds <= token_sort_ratio (FStr target_norm) (FStr source_norm) ->
  forall company_matches,
  exists e, dict_get target_norm
              (foldl (target_step thresholds input_contacts target_contacts)
                 company_matches target_rows) = Some e /\
            In (contact_key (map_fields source_row)) (map entry_key (contacts e)).
Proof.
  intros Hin Hu Hsrc Hsu Hthr.
  induction target_rows as [|r rs IH]; intros cm; [done|].
  cbn [foldl]. destruct Hin as [->|Hin]; [|by apply IH].
  apply target_fold_keeps_key.
  pose proof (target_step_cases cm target_row) as Hc. cbv zeta in Hc.
  rewrite Hu in Hc.
  assert (Hreach : reached thresholds input_contacts target_norm).
  { exists source_row, source_company, source_norm.
    split; [by apply list_elem_of_In|done]. }
  destruct Hc as [[Hnr _]|(_ & e & -> & _ & _ & Hnew & _)]; [done|].
  exists e. split; [apply dict_set_get|]. apply Hnew.
  by eapply source_fold_has_key.
Qed.

Lemma target_step_display seen company_matches target_row :
  Forall (entry_ok thresholds input_contacts) company_matches ->
  display_inv thresholds input_contacts target_contacts seen company_matches ->
  display_inv thresholds input_contacts target_contacts (seen ++ [target_row])
    (target_step thresholds input_contacts target_contacts company_matches target_row).
Proof.
  intros Hok Hinv.
  assert (Hentry : forall norm e, dict_get norm company_matches = Some e ->
            reached thresholds input_contacts norm).
  { intros norm e Hget. apply dict_get_elem in Hget.
    rewrite Forall_forall in Hok. destruct (Hok _ Hget) as (Hkey & Hne & _ & Hsrc).
    cbn [fst snd] in *. destruct (contacts e) as [|c cs]; [done|].
    inversion Hsrc as [|? ? (row & company & n & ? & ? & ? & _) _]; subst.
    by exists row, company, n. }
  assert (Hsame : forall cm',
            (forall norm,
               (forall company, usable_company target_contacts target_row
                                  <> Some (company, norm)) ->
               dict_get norm cm' = dict_get norm company_matches) ->
            (forall company norm,
               usable_company target_contacts target_row = Some (company, norm) ->
               match dict_get norm cm' with
               | Some e =>
                   (exists row, In row (seen ++ [target_row]) /\
                      usable_company target_contacts row = Some (display_name e, norm)) /\
                   (forall row company', In row (seen ++ [target_row]) ->
                      usable_company target_contacts row = Some (company', norm) ->
                      (length company' <= length (display_name e))%nat)
               | None => ~ reached thresholds input_contacts norm
               end) ->
            display_inv thresholds input_contacts target_contacts
              (seen ++ [target_row]) cm').
  { intros cm' Hother Hthis norm.
    destruct (usable_company target_contacts target_row) as [[company0 norm0]|] eqn:Hu.
    - destruct (decide (norm = norm0)) as [->|Hne].
      + specialize (Hthis company0 norm0 eq_refl).
        destruct (dict_get norm0 cm'); [done|]. by intros.
      + rewrite Hother by congruence. specialize (Hinv norm).
        destruct (dict_get norm company_matches) as [e|].
        * destruct Hinv as [(row & Hrow & Hur) Hmax]. split.
          -- exists row. split; [apply in_or_app; by left|done].
          -- intros row' company' Hrow' Hu'.
             apply in_app_or in Hrow' as [Hrow'|[<-|[]]]; [by eapply Hmax|congruence].
        * intros row company' Hrow Hu'.
          apply in_app_or in Hrow as [Hrow|[<-|[]]]; [by eapply Hinv|congruence].
    - rewrite Hother by congruence. specialize (Hinv norm).
      destruct (dict_get norm company_matches) as [e|].
      + destruct Hinv as [(row & Hrow & Hur) Hmax]. split.
        * exists row. split; [apply in_or_app; by left|done].
        * intros row' company' Hrow' Hu'.
          apply in_app_or in Hrow' as [Hrow'|[<-|[]]]; [by eapply Hmax|congruence].
      + intros row company' Hrow Hu'.
        apply in_app_or in Hrow as [Hrow|[<-|[]]]; [by eapply Hinv|congruence]. }
  pose proof (target_step_cases company_matches target_row) as Hc. cbv zeta in Hc.
  destruct (usable_company target_contacts target_row) as [[company norm]|] eqn:Hu.
  2: { rewrite Hc. apply Hsame; [done|]. intros ? ? [=]. }
  destruct Hc as [[Hnr ->]|(Hr & e & -> & _ & Hdisp & _)].
  - apply Hsame; [done|]. intros ? ? [= <- <-].
    destruct (dict_get norm company_matches) as [e|] eqn:Hget; [|done].
    by apply Hentry in Hget.
  - apply Hsame.
    + intros norm' Hne. rewrite dict_get_set.
      destruct (text_eqb norm' norm) eqn:Heq; [|done].
      apply text_eqb_eq in Heq as ->. by destruct (Hne company).
    + intros ? ? [= <- <-]. rewrite dict_set_get.
      specialize (Hinv norm).
      destruct (dict_get norm company_matches) as [existing|].
      * destruct Hinv as [(row & Hrow & Hur) Hmax]. rewrite Hdisp.
        unfold longer_name.
        destruct (Nat.ltb_spec (length (display_name existing)) (length company)).
        -- split.
           ++ exists target_row. split; [apply in_or_app; right; by left|done].
           ++ intros row' company' Hrow' Hu'.
              apply in_app_or in Hrow' as [Hrow'|[<-|[]]].
              ** specialize (Hmax row' company' Hrow' Hu'). lia.
              ** assert (company' = company) by congruence. subst. lia.
        -- split.
           ++ exists row. split; [apply in_or_app; by left|done].
           ++ intros row' company' Hrow' Hu'.
              apply in_app_or in Hrow' as [Hrow'|[<-|[]]].
              ** by apply (Hmax row' company').
              ** assert (company' = company) by congruence. subst. lia.
      * rewrite Hdisp. split.
        -- exists target_row. split; [apply in_or_app; right; by left|done].
        -- intros row' company' Hrow' Hu'.
           apply in_app_or in Hrow' as [Hrow'|[<-|[]]].
           ++ by destruct (Hinv row' company' Hrow' Hu').
           ++ assert (company' = company) by congruence. subst. lia.
Qed.

Lemma target_fold_display target_rows : forall seen company_matches,
  Forall (entry_ok thresholds input_contacts) company_matches ->
  display_inv thresholds input_contacts target_contacts seen company_matches ->
  display_inv thresholds input_contacts target_contacts (seen ++ target_rows)
    (foldl (target_step thresholds input_contacts target_contacts)
       company_matches target_rows).
Proof.
  induction target_rows as [|r rs IH]; intros seen cm Hok Hinv.
  - by rewrite app_nil_r.
  - replace (seen ++ r :: rs) with ((seen ++ [r]) ++ rs) by (by rewrite <- app_assoc).
    cbn [foldl]. apply IH; [by apply target_step_ok|by apply target_step_display].
Qed.

End RosterCoverage.

Section RosterShape.
Context `{F : SimilarityProvider}.
Import Leadmatcher.

(** X15.  The roster [find_matches] returns is sorted by display name
    without regard to case: no entry is followed, at any distance, by
    one whose lower-cased display name is smaller. *)
Theorem roster_is_sorted_by_display_name
    (input_file target_file : option DataFrame) (thresholds : Thresholds) :
  StronglySorted
    (fun a b => text_ltb (lower (display_name b)) (lower (display_name a)) = false)
    (find_matches input_file target_file thresholds).
Proof.
  unfold find_matches. destruct target_file, input_file; try constructor.
  apply sorted_by_name_sorted.
Qed.

Lemma company_matches_ok (input_contacts target_contacts : DataFrame)
    (thresholds : Thresholds) :
  let cm := foldl (target_step thresholds input_contacts target_contacts)
              [] (iterrows target_contacts) in
  Forall (entry_ok thresholds input_contacts) cm /\
  NoDup (map fst cm) /\
  display_inv thresholds input_contacts target_contacts (iterrows target_contacts) cm.
Proof.
  cbv zeta. split_and!.
  - apply target_fold_ok. constructor.
  - apply target_fold_NoDup. constructor.
  - apply (target_fold_display thresholds input_contacts target_contacts
             (iterrows target_contacts) [] []); [constructor|].
    intros norm. cbn [dict_get]. by intros ? ? [].
Qed.

Lemma find_matches_elem (input_contacts target_contacts : DataFrame)
    (thresholds : Thresholds) (e : RosterEntry) :
  In e (find_matches (Some input_contacts) (Some target_contacts) thresholds) <->
  dict_get (norm_name e)
    (foldl (target_step thresholds input_contacts target_contacts)
       [] (iterrows target_contacts)) = Some e.
Proof.
  destruct (company_matches_ok input_contacts target_contacts thresholds)
    as (Hok & Hnd & _).
  unfold find_matches. rewrite <- list_elem_of_In, sorted_by_name_elem.
  unfold dict_values. rewrite list_elem_of_In, in_map_iff. split.
  - intros ([k e'] & <- & Hin). cbn [snd]. apply list_elem_of_In in Hin.
    rewrite Forall_forall in Hok. destruct (Hok _ Hin) as (Hk & _).
    cbn [fst snd] in Hk. rewrite <- Hk. by apply dict_get_of_elem.
  - intros Hget. apply dict_get_elem in Hget. exists (norm_name e, e).
    split; [done|]. by apply list_elem_of_In.
Qed.

(** X16.  The roster has one entry for a normalised company name:
    the normalised names of its entries are pairwise distinct. *)
Theorem roster_names_are_distinct
    (input_file target_file : option DataFrame) (thresholds : Thresholds) :
  NoDup (map norm_name (find_matches input_file target_file thresholds)).
Proof.
  unfold find_matches. destruct target_file as [target_contacts|]; [|constructor].
  destruct input_file as [input_contacts|]; [|constructor].
  destruct (company_matches_ok input_contacts target_contacts thresholds)
    as (Hok & Hnd & _).
  eapply NoDup_Permutation_proper;
    [apply Permutation_map, sorted_by_name_perm|].
  unfold dict_values. rewrite map_map.
  erewrite map_ext_in; [exact Hnd|].
  intros kv Hkv. rewrite List.Forall_forall in Hok. by destruct (Hok kv Hkv) as [-> _].
Qed.

(** X17.  Which companies have an entry: a normalised name has an
    entry exactly when it is the usable company of a target row and a
    source row with a usable company reaches the company threshold
    against it. *)
Theorem roster_entry_iff
    (input_contacts target_contacts : DataFrame) (thresholds : Thresholds)
    (target_norm : text) :
  (exists e, In e (find_matches (Some input_contacts) (Some target_contacts) thresholds)
             /\ norm_name e = target_norm) <->
  (exists target_row company,
     In target_row (iterrows target_contacts) /\
     usable_company target_contacts target_row = Some (company, target_norm)) /\
  (exists source_row company norm,
     In source_row (iterrows input_contacts) /\
     usable_company input_contacts source_row = Some (company, norm) /\
     company_name thresholds <= token_sort_ratio (FStr target_norm) (FStr norm)).
Proof.
  destruct (company_matches_ok input_contacts target_contacts thresholds)
    as (Hok & Hnd & Hdisp).
  split.
  - intros (e & He & <-). apply find_matches_elem in He.
    specialize (Hdisp (norm_name e)). rewrite He in Hdisp.
    destruct Hdisp as [(row & Hrow & Hu) _]. split; [by eauto|].
    apply dict_get_elem in He. rewrite Forall_forall in Hok.
    destruct (Hok _ He) as (_ & Hne & _ & Hsrc). cbn [snd] in *.
    destruct (contacts e) as [|c cs]; [done|].
    inversion Hsrc as [|? ? (source_row & company & n & ? & ? & ? & _) _]; subst.
    exists source_row, company, n. split; [by apply list_elem_of_In|done].
  - intros [(target_row & company & Hrow & Hu) (source_row & sc & sn & Hsrc & Hsu & Hthr)].
    destruct (target_fold_has_key thresholds input_contacts target_contacts
                (iterrows target_contacts) target_row company target_norm
                source_row sc sn Hrow Hu Hsrc Hsu Hthr []) as (e & Hget & _).
    assert (norm_name e = target_norm) as Hn.
    { apply dict_get_elem in Hget. rewrite Forall_forall in Hok.
      destruct (Hok _ Hget) as (Hk & _). cbn [fst snd] in Hk. by rewrite <- Hk. }
    exists e. split; [|done]. apply find_matches_elem. by rewrite Hn.
Qed.

(** X18.  No source row that reaches the threshold is dropped: for a
    target row with a usable company and a source row whose company
    reaches the company threshold against it, the entry of the target
    company has a contact with the contact key of the source row. *)
Theorem qualifying_source_rows_are_reported
    (input_contacts target_contacts : DataFrame) (thresholds : Thresholds)
    (target_row source_row : Series) (target_company target_norm : text)
    (source_company source_norm : text) :
  In target_row (iterrows target_contacts) ->
  usable_company target_contacts target_row = Some (target_company, target_norm) ->
  In source_row (iterrows input_contacts) ->
  usable_company input_contacts source_row = Some (source_company, source_norm) ->
  company_name thresholds <= token_sort_ratio (FStr target_norm) (FStr source_norm) ->
  exists e c,
    In e (find_matches (Some input_contacts) (Some target_contacts) thresholds) /\
    norm_name e = target_norm /\ In c (contacts e) /\
    entry_key c = contact_key (map_fields source_row).
Proof.
  intros Hrow Hu Hsrc Hsu Hthr.
  destruct (company_matches_ok input_contacts target_contacts thresholds)
    as (Hok & _ & _).
  destruct (target_fold_has_key thresholds input_contacts target_contacts
              (iterrows target_contacts) target_row target_company target_norm
              source_row source_company source_norm Hrow Hu Hsrc Hsu Hthr [])
    as (e & Hget & Hk).
  assert (norm_name e = target_norm) as Hn.
  { apply dict_get_elem in Hget. rewrite Forall_forall in Hok.
    destruct (Hok _ Hget) as (Hk' & _). cbn [fst snd] in Hk'. by rewrite <- Hk'. }
  apply in_map_iff in Hk as (c & Hc & Hin).
  exists e, c. split_and!; try done. apply find_matches_elem. by rewrite Hn.
Qed.

(** X19.  The display name of an entry is the company of a target row
    with the normalised name of the entry, and no target row with that
    normalised name has a longer company. *)
Theorem display_name_is_longest
    (input_contacts target_contacts : DataFrame) (thresholds : Thresholds) :
  Forall (fun e =>
            (exists target_row,
               In target_row (iterrows target_contacts) /\
               usable_company target_contacts target_row
                 = Some (display_name e, norm_name e)) /\
            (forall target_row company,
               In target_row (iterrows target_contacts) ->
               usable_company target_contacts target_row = Some (company, norm_name e) ->
               (length company <= length (display_name e))%nat))
    (find_matches (Some input_contacts) (Some target_contacts) thresholds).
Proof.
  destruct (company_matches_ok input_contacts target_contacts thresholds)
    as (_ & _ & Hdisp).
  apply List.Forall_forall. intros e He. apply find_matches_elem in He.
  specialize (Hdisp (norm_name e)). by rewrite He in Hdisp.
Qed.

(** X20.  Without a usable company there is no roster: when no source
    row, or no target row, has a company that is present and does not
    normalise to the empty string (no company column, only missing
    values, only punctuation), [find_matches] returns the empty list. *)
Theorem no_usable_company_no_roster
    (input_contacts target_contacts : DataFrame) (thresholds : Thresholds) :
  Forall (fun row => usable_company input_contacts row = None) (iterrows input_contacts)
  \/ Forall (fun row => usable_company target_contacts row = None)
       (iterrows target_contacts) ->
  find_matches (Some input_contacts) (Some target_contacts) thresholds = [].
Proof.
  intros Hnone. unfold find_matches.
  rewrite foldl_fixed; [done|].
  intros target_row Hrow.
  pose proof (target_step_cases thresholds input_contacts target_contacts []
                target_row) as Hc. cbv zeta in Hc.
  destruct (usable_company target_contacts target_row) as [[company norm]|] eqn:Hu;
    [|done].
  destruct Hnone as [Hsrc|Htgt].
  - destruct Hc as [[_ ->]|[(row & c & n & Hin & Hsu & _) _]]; [done|].
    rewrite Forall_forall in Hsrc. rewrite (Hsrc row Hin) in Hsu. done.
  - rewrite List.Forall_forall in Htgt. rewrite (Htgt target_row Hrow) in Hu. done.
Qed.

End RosterShape.

Lemma qualifying_source_rows_are_reported_witness :
  exists e c,
    In e (@Leadmatcher.find_matches exact_provider (Some jane_rows) (Some acme_target)
            default_thresholds) /\
    Leadmatcher.norm_name e = "acme" /\ In c (Leadmatcher.contacts e) /\
    Leadmatcher.entry_key c =
      Leadmatcher.contact_key (Leadmatcher.map_fields (jane_row "Jane")).
Proof.
  apply (@qualifying_source_rows_are_reported exact_provider jane_rows acme_target
           default_thresholds
           (label_row ["Company"]%string [Str "Acme"]) (jane_row "Jane")
           "Acme" "acme" "Acme" "acme").
  - by left.
  - vm_compute. reflexivity.
  - by left.
  - vm_compute. reflexivity.
  - vm_compute. discriminate.
Defined.

Lemma no_usable_company_no_roster_witness :
  @Leadmatcher.find_matches exact_provider (Some (one_column [NaN; Str "!!!"]))
     (Some acme_target) default_thresholds = [].
Proof.
  apply (@no_usable_company_no_roster exact_provider).
  left. repeat constructor.
Defined.

(* ================================================================== *)
(** ** The contacts of an entry *)
(* ================================================================== *)

Section DictRewrite.
Context {V : Type}.
Implicit Types (d e : list (text * V)) (k : text) (v : V).

Lemma dict_set_app_skip k v d1 d2 :
  ~ In k (map fst d1) -> dict_set k v (d1 ++ d2) = d1 ++ dict_set k v d2.
Proof.
  induction d1 as [|[k' v'] d1 IH]; intros Hk; [done|].
  cbn [app dict_set]. cbn [map fst In] in Hk.
  destruct (text_eqb k k') eqn:Heq.
  - apply text_eqb_eq in Heq. by destruct Hk; left.
  - rewrite IH; [done|]. intros ?. apply Hk. by right.
Qed.

Lemma dict_set_head k v v' d : dict_set k v ((k, v') :: d) = (k, v) :: d.
Proof. cbn [dict_set]. unfold text_eqb. by rewrite bool_decide_eq_true_2. Qed.

(** Updating a dictionary with one that has the same keys, in the same
    order, gives the second. *)
Lemma dict_update_same_keys e : forall done d,
  map fst d = map fst e -> NoDup (map fst (done ++ e)) ->
  dict_update (done ++ d) e = done ++ e.
Proof.
  unfold dict_update.
  induction e as [|[k v] e IH]; intros done d Hkeys Hnd.
  - destruct d; [done|discriminate].
  - destruct d as [|[k' v'] d]; [discriminate|]. cbn [map fst] in Hkeys.
    injection Hkeys as -> Hkeys. cbn [foldl fst snd].
    assert (~ In k (map fst done)) as Hfresh.
    { rewrite map_app in Hnd. apply NoDup_app in Hnd as (_ & Hdisj & _).
      intros Hin. apply (Hdisj k); [by apply list_elem_of_In|]. cbn. by left. }
    rewrite dict_set_app_skip, dict_set_head by done.
    replace (done ++ (k, v) :: d) with ((done ++ [(k, v)]) ++ d)
      by (by rewrite <- app_assoc).
    rewrite IH; [by rewrite <- app_assoc|done|].
    by rewrite <- app_assoc.
Qed.

Lemma dict_set_fresh k v d : ~ In k (map fst d) -> dict_set k v d = d ++ [(k, v)].
Proof.
  intros Hk. rewrite <- (app_nil_r d) at 1. by rewrite dict_set_app_skip.
Qed.

End DictRewrite.

Section LastRow.
Context `{F : SimilarityProvider}.
Import Leadmatcher.
Variable thresholds : Thresholds.
Variable input_contacts target_contacts : DataFrame.

(** The keys of the contact dictionary of a target row depend on its
    normalised company only. *)
Lemma source_fold_keys target_row1 target_row2 target_norm source_rows : forall d1 d2,
  map fst d1 = map fst d2 ->
  map fst (foldl (source_step thresholds input_contacts target_row1 target_norm)
             d1 source_rows)
  = map fst (foldl (source_step thresholds input_contacts target_row2 target_norm)
               d2 source_rows).
Proof.
  induction source_rows as [|r rs IH]; intros d1 d2 Hd; [done|].
  cbn [foldl]. apply IH. unfold source_step.
  destruct (usable_company input_contacts r) as [[company norm]|]; [|done].
  destruct (_ <=? _); [|done]. by rewrite !dict_set_keys, Hd.
Qed.

(** The dictionary rebuilt from the contacts of an entry is the
    dictionary they came from. *)
Lemma existing_dict_rebuild (d : list (text * ContactData)) : forall done,
  NoDup (map fst (done ++ d)) ->
  Forall (fun kv => fst kv = entry_key (snd kv)) d ->
  foldl (fun d c => dict_set (entry_key c) c d) done (dict_values d) = done ++ d.
Proof.
  unfold dict_values.
  induction d as [|[k c] d IH]; intros done Hnd Hd; cbn [map foldl snd].
  - by rewrite app_nil_r.
  - inversion Hd as [|? ? Hk Hd']; subst. cbn [fst snd] in Hk. rewrite <- Hk.
    assert (~ In k (map fst done)) as Hfresh.
    { rewrite map_app in Hnd. apply NoDup_app in Hnd as (_ & Hdisj & _).
      intros Hin. apply (Hdisj k); [by apply list_elem_of_In|]. cbn. by left. }
    rewrite dict_set_fresh by done.
    rewrite IH; [by rewrite <- app_assoc| |done]. by rewrite <- app_assoc.
Qed.

Lemma contact_dict_ok target_row target_norm :
  let d := contact_dict_of thresholds input_contacts target_row target_norm in
  NoDup (map fst d) /\ Forall (fun kv => fst kv = entry_key (snd kv)) d /\
  Forall (fun kv => exists source_row,
            In source_row (iterrows input_contacts) /\
            fields (snd kv) = map_fields source_row /\
            has_person_match (snd kv)
              = person_match thresholds source_row target_row) d.
Proof.
  cbv zeta. unfold contact_dict_of.
  destruct (source_fold_ok thresholds input_contacts target_row target_norm
              (iterrows input_contacts) []) as [Hnd Hd]; [done|constructor|constructor|].
  split_and!; [done|eapply Forall_impl; [exact Hd|]; by intros kv [? _]|].
  assert (Hgen : forall source_rows d,
            (forall r, In r source_rows -> In r (iterrows input_contacts)) ->
            Forall (fun kv => exists source_row,
                      In source_row (iterrows input_contacts) /\
                      fields (snd kv) = map_fields source_row /\
                      has_person_match (snd kv)
                        = person_match thresholds source_row target_row) d ->
            Forall (fun kv => exists source_row,
                      In source_row (iterrows input_contacts) /\
                      fields (snd kv) = map_fields source_row /\
                      has_person_match (snd kv)
                        = person_match thresholds source_row target_row)
              (foldl (source_step thresholds input_contacts target_row target_norm)
                 d source_rows)).
  { induction source_rows as [|r rs IH]; intros d Hrows Hall; [done|].
    cbn [foldl]. apply IH; [intros r' Hr'; apply Hrows; by right|].
    unfold source_step.
    destruct (usable_company input_contacts r) as [[company norm]|]; [|done].
    destruct (_ <=? _); [|done]. apply dict_set_Forall; [|done].
    exists r. split; [apply Hrows; by left|done]. }
  apply Hgen; [done|constructor].
Qed.

Lemma target_step_last seen company_matches target_row :
  Forall (entry_ok thresholds input_contacts) company_matches ->
  last_row_inv thresholds input_contacts target_contacts seen company_matches ->
  last_row_inv thresholds input_contacts target_contacts (seen ++ [target_row])
    (target_step thresholds input_contacts target_contacts company_matches target_row).
Proof.
  intros Hok Hinv.
  assert (Hkeep : forall norm e,
            dict_get norm company_matches = Some e ->
            (forall c, usable_company target_contacts target_row <> Some (c, norm)) ->
            exists before row after company,
              seen ++ [target_row] = before ++ row :: after /\
              usable_company target_contacts row = Some (company, norm) /\
              (forall row' c, In row' after ->
                 usable_company target_contacts row' <> Some (c, norm)) /\
              contacts e =
                dict_values (contact_dict_of thresholds input_contacts row norm)).
  { intros norm e Hget Hne.
    destruct (Hinv norm e Hget) as (before & row & after & company & -> & Hu & Hafter & Hc).
    exists before, row, (after ++ [target_row]), company.
    split_and!; [by rewrite <- app_assoc|done| |done].
    intros row' c Hin. apply in_app_or in Hin as [Hin|[<-|[]]]; [by apply Hafter|done]. }
  unfold target_step.
  destruct (usable_company target_contacts target_row) as [[company norm]|] eqn:Hu.
  2: { intros n e Hget. by apply Hkeep. }
  cbv zeta. fold (contact_dict_of thresholds input_contacts target_row norm).
  destruct (contact_dict_ok target_row norm) as (Hnd & Hkeyed & _).
  destruct (contact_dict_of thresholds input_contacts target_row norm)
    as [|kv0 cd0] eqn:Hcd.
  { intros n e Hget. apply Hkeep; [done|]. intros c [= <- <-].
    destruct (Hinv norm e Hget) as (before & row & after & c' & _ & _ & _ & Hc).
    apply dict_get_elem in Hget. rewrite Forall_forall in Hok.
    destruct (Hok _ Hget) as (_ & Hne & _). cbn [snd] in Hne.
    apply Hne. rewrite Hc. unfold dict_values.
    assert (Hkeys : map fst (contact_dict_of thresholds input_contacts row norm)
                    = map fst (contact_dict_of thresholds input_contacts target_row norm))
      by (by apply source_fold_keys).
    rewrite Hcd in Hkeys.
    by destruct (contact_dict_of thresholds input_contacts row norm). }
  rewrite <- Hcd in *. clear Hcd kv0 cd0.
  assert (Hnew : forall e',
            contacts e' =
              dict_values (contact_dict_of thresholds input_contacts target_row norm) ->
            last_row_inv thresholds input_contacts target_contacts (seen ++ [target_row])
              (dict_set norm e' company_matches)).
  { intros e' Hc' n e. rewrite dict_get_set.
    destruct (text_eqb n norm) eqn:Heq.
    - apply text_eqb_eq in Heq as ->. intros [= <-].
      exists seen, target_row, [], company. split_and!; [done|done|by intros ? ? []|done].
    - intros Hget. apply Hkeep; [done|]. intros c [= _ <-].
      unfold text_eqb in Heq. by rewrite bool_decide_eq_true_2 in Heq. }
  destruct (dict_get norm company_matches) as [existing|] eqn:Hget.
  - apply Hnew. cbn [contacts].
    destruct (Hinv norm existing Hget) as (before & row & after & c' & _ & _ & _ & Hc).
    destruct (contact_dict_ok row norm) as (Hnd0 & Hkeyed0 & _).
    rewrite Hc, (existing_dict_rebuild _ [] Hnd0 Hkeyed0). cbn [app].
    f_equal. apply (dict_update_same_keys _ []); [by apply source_fold_keys|done].
  - by apply Hnew.
Qed.

Lemma target_fold_last target_rows : forall seen company_matches,
  Forall (entry_ok thresholds input_contacts) company_matches ->
  last_row_inv thresholds input_contacts target_contacts seen company_matches ->
  last_row_inv thresholds input_contacts target_contacts (seen ++ target_rows)
    (foldl (target_step thresholds input_contacts target_contacts)
       company_matches target_rows).
Proof.
  induction target_rows as [|r rs IH]; intros seen cm Hok Hinv.
  - by rewrite app_nil_r.
  - replace (seen ++ r :: rs) with ((seen ++ [r]) ++ rs) by (by rewrite <- app_assoc).
    cbn [foldl]. apply IH; [by apply target_step_ok|by apply target_step_last].
Qed.

End LastRow.

Section LastRowResults.
Context `{F : SimilarityProvider}.
Import Leadmatcher.

Lemma find_matches_last_row (input_contacts target_contacts : DataFrame)
    (thresholds : Thresholds) (e : RosterEntry) :
  In e (find_matches (Some input_contacts) (Some target_contacts) thresholds) ->
  exists before target_row after company,
    iterrows target_contacts = before ++ target_row :: after /\
    usable_company target_contacts target_row = Some (company, norm_name e) /\
    (forall row c, In row after ->
       usable_company target_contacts row <> Some (c, norm_name e)) /\
    contacts e =
      dict_values (contact_dict_of thresholds input_contacts target_row (norm_name e)).
Proof.
  intros He. apply find_matches_elem in He.
  apply (target_fold_last thresholds input_contacts target_contacts
           (iterrows target_contacts) [] []); [constructor| |done].
  by intros n e'.
Qed.

(** X26.  The contacts of a roster entry are those of the last target
    row of its company: they are the values of the contact dictionary
    that the loop over the source rows builds for the last target row
    with the normalised name of the entry; what earlier target rows of
    the company wrote is replaced. *)
Theorem roster_contacts_from_last_target_row
    (input_contacts target_contacts : DataFrame) (thresholds : Thresholds) :
  Forall (fun e =>
            exists before target_row after company,
              iterrows target_contacts = before ++ target_row :: after /\
              usable_company target_contacts target_row = Some (company, norm_name e) /\
              (forall row c, In row after ->
                 usable_company target_contacts row <> Some (c, norm_name e)) /\
              contacts e =
                dict_values
                  (foldl (source_step thresholds input_contacts target_row (norm_name e))
                     [] (iterrows input_contacts)))
    (find_matches (Some input_contacts) (Some target_contacts) thresholds).
Proof.
  apply List.Forall_forall. intros e He. by apply find_matches_last_row.
Qed.

(** X27.  The flag [has_person_match] of a contact is the person test
    of a source row against the last target row of the company only: a
    source contact who is an earlier target contact of the company is
    not flagged for that. *)
Theorem person_flag_is_for_last_target_row
    (input_contacts target_contacts : DataFrame) (thresholds : Thresholds) :
  Forall (fun e =>
            exists before target_row after company,
              iterrows target_contacts = before ++ target_row :: after /\
              usable_company target_contacts target_row = Some (company, norm_name e) /\
              (forall row c, In row after ->
                 usable_company target_contacts row <> Some (c, norm_name e)) /\
              Forall (fun c =>
                        exists source_row,
                          In source_row (iterrows input_contacts) /\
                          fields c = map_fields source_row /\
                          has_person_match c
                            = person_match thresholds source_row target_row)
                (contacts e))
    (find_matches (Some input_contacts) (Some target_contacts) thresholds).
Proof.
  apply List.Forall_forall. intros e He.
  destruct (find_matches_last_row _ _ _ _ He)
    as (before & target_row & after & company & Hrows & Hu & Hafter & Hc).
  exists before, target_row, after, company. split_and!; try done.
  rewrite Hc. unfold dict_values. apply List.Forall_map.
  by destruct (contact_dict_ok thresholds input_contacts target_row (norm_name e))
    as (_ & _ & ?).
Qed.

End LastRowResults.

(** The source contact Jane Doe is the first target contact of Acme, and
    the roster does not flag her: the second target row of Acme writes
    the flag again.  (With [fuzzywuzzy] too the two name scores are 100
    and far below the threshold.) *)
Example person_flag_overwritten :
  map Leadmatcher.has_person_match
    (flat_map Leadmatcher.contacts
       (@Leadmatcher.find_matches exact_provider (Some jane_source)
          (Some two_targets) default_thresholds)) = [false] /\
  map Leadmatcher.has_person_match
    (flat_map Leadmatcher.contacts
       (@Leadmatcher.find_matches exact_provider (Some jane_source)
          (Some (frame (columns two_targets) (take 1 (rows two_targets))))
          default_thresholds)) = [true].
Proof. split; vm_compute; reflexivity. Qed.

(* ================================================================== *)
(** ** Helpers of the module outside the engine *)
(* ================================================================== *)

Section HelperFacts.
Context `{F : SimilarityProvider}.
Import Leadmatcher.

Lemma lower_char_idem c : lower_char (lower_char c) = lower_char c.
Proof. destruct c as [[] [] [] [] [] [] [] []]; reflexivity. Qed.

Lemma lower_idem (s : text) : lower (lower s) = lower s.
Proof.
  unfold lower. rewrite map_map. apply map_ext. intros c. apply lower_char_idem.
Qed.

Lemma detect_in_spec (columns keywords : list text) :
  match detect_in columns keywords with
  | Some col =>
      In col columns /\ exists keyword, In keyword keywords /\ contains keyword col = true
  | None =>
      forall col keyword, In col columns -> In keyword keywords ->
        contains keyword col = false
  end.
Proof.
  induction keywords as [|keyword keywords IH]; cbn [detect_in]; [by intros ? ? ? []|].
  destruct (find (contains keyword) columns) as [col|] eqn:Hfind.
  - apply find_some in Hfind as [Hin Hc]. split; [done|].
    exists keyword. split; [by left|done].
  - destruct (detect_in columns keywords) as [col|].
    + destruct IH as [Hin (kw & Hkw & Hc)]. split; [done|].
      exists kw. split; [by right|done].
    + intros col kw Hcol [<-|Hkw]; [|by apply IH].
      by apply (find_none _ _ Hfind).
Qed.

(** X21.  What [detect_company_column] returns: the lower-cased name
    of a column, which contains one of the keywords, and so not the
    label itself when the label has an upper-case letter; [None] exactly
    when no lower-cased column contains a keyword. *)
Theorem detect_company_column_spec (columns : list text) :
  match detect_company_column columns with
  | Some col =>
      (exists c, In c columns /\ col = lower c) /\ lower col = col /\
      exists keyword, In keyword company_keywords /\ contains keyword col = true
  | None =>
      forall c keyword, In c columns -> In keyword company_keywords ->
        contains keyword (lower c) = false
  end.
Proof.
  unfold detect_company_column.
  pose proof (detect_in_spec (map lower columns) company_keywords) as Hspec.
  destruct (detect_in (map lower columns) company_keywords) as [col|].
  - destruct Hspec as [Hin Hkw]. apply in_map_iff in Hin as (c & <- & Hc).
    split_and!; [by exists c|apply lower_idem|done].
  - intros c kw Hc Hkw. apply Hspec; [|done]. by apply in_map.
Qed.

Lemma item_label_row (cols : list string) (col : string) : forall r,
  is_Some (item (label_row cols r) col) <-> col ∈ cols.
Proof.
  induction cols as [|l cols IH]; intros r; cbn [label_row item].
  - split; [by intros [? ?]|by intros ?%elem_of_nil].
  - destruct r as [|v r]; cbn [item]; case_bool_decide as Hl; subst;
      rewrite ?elem_of_cons, ?IH; split; eauto; intros [?|?]; eauto; by subst.
Qed.

Lemma first_company_contact (df : DataFrame) (row : Series) (cols : list string) :
  In row (iterrows df) ->
  first_company cols df row = py_str <$> contact_company cols row.
Proof.
  intros Hrow. unfold iterrows in Hrow. apply in_map_iff in Hrow as (r & <- & _).
  induction cols as [|col cols IH]; cbn [first_company contact_company]; [done|].
  destruct (item (label_row (columns df) r) col) as [v|] eqn:Hitem; [|exact IH].
  assert (col ∈ columns df) as Hcol by (apply (item_label_row _ _ r); by rewrite Hitem).
  rewrite (bool_decide_eq_true_2 _ Hcol). cbn [andb].
  destruct (negb (isna v)); [done|exact IH].
Qed.

Lemma contact_company_not_na cols contact v :
  contact_company cols contact = Some v -> isna v = false.
Proof.
  induction cols as [|col cols IH]; cbn [contact_company]; [done|].
  destruct (item contact col) as [w|]; [|exact IH].
  destruct (isna w) eqn:Hw; cbn [negb]; [exact IH|]. by intros [= <-].
Qed.

Lemma foldl_filter {A} (q : A -> bool) (l : list A) : forall acc,
  foldl (fun acc x => if q x then acc ++ [x] else acc) acc l = acc ++ List.filter q l.
Proof.
  induction l as [|x l IH]; intros acc; cbn [foldl List.filter]; [by rewrite app_nil_r|].
  rewrite IH. destruct (q x); [by rewrite <- app_assoc|done].
Qed.

Lemma foldl_ext_in {A B} (f g : A -> B -> A) (l : list B) : forall a,
  (forall a b, In b l -> f a b = g a b) -> foldl f a l = foldl g a l.
Proof.
  induction l as [|b l IH]; intros a Hfg; cbn [foldl]; [done|].
  rewrite Hfg by (by left). apply IH. intros a' b' Hb'. apply Hfg. by right.
Qed.

Lemma find_company_matches_spec
    (normalized_name : text) (input_contacts : DataFrame) (thresholds : Thresholds) :
  find_company_matches normalized_name input_contacts thresholds =
    List.filter (reaches thresholds input_contacts normalized_name)
      (iterrows input_contacts).
Proof.
  unfold find_company_matches.
  rewrite <- (app_nil_l (List.filter _ _)), <- foldl_filter.
  apply foldl_ext_in. intros matches contact Hin.
  unfold reaches, usable_company. rewrite (first_company_contact _ _ _ Hin).
  destruct (contact_company company_cols contact) as [[company|]|] eqn:Hc;
    cbn [fmap option_fmap option_map py_str]; [|by apply contact_company_not_na in Hc|done].
  destruct (truthy company); [|done]. cbv zeta.
  by destruct (truthy (normalize_company_name (Str company))).
Qed.

(** X22.  [find_company_matches] returns, in row order, the rows of
    the frame whose usable company reaches the company threshold against
    the normalised name: the rows [find_matches] takes for a target
    company. *)
Theorem find_company_matches_filter
    (normalized_name : text) (input_contacts : DataFrame) (thresholds : Thresholds) :
  find_company_matches normalized_name input_contacts thresholds =
    List.filter (reaches thresholds input_contacts normalized_name)
      (iterrows input_contacts).
Proof. apply find_company_matches_spec. Qed.

(** X23.  The contacts of a roster entry are the rows of
    [find_company_matches] for the normalised name of the entry: every
    contact has the fields of such a row, and every such row has a
    contact with its contact key. *)
Theorem roster_contacts_are_company_matches
    (input_contacts target_contacts : DataFrame) (thresholds : Thresholds) :
  Forall (fun e =>
            let matched := find_company_matches (norm_name e) input_contacts thresholds in
            (forall c, In c (contacts e) ->
               exists row, In row matched /\ fields c = map_fields row) /\
            (forall row, In row matched ->
               exists c, In c (contacts e) /\
                         entry_key c = contact_key (map_fields row)))
    (find_matches (Some input_contacts) (Some target_contacts) thresholds).
Proof.
  destruct (company_matches_ok input_contacts target_contacts thresholds)
    as (Hok & _ & Hdisp).
  apply List.Forall_forall. intros e He. apply find_matches_elem in He.
  cbv zeta. rewrite find_company_matches_spec. split.
  - intros c Hc. apply dict_get_elem in He. rewrite Forall_forall in Hok.
    destruct (Hok _ He) as (_ & _ & _ & Hsrc). cbn [snd] in Hsrc.
    rewrite List.Forall_forall in Hsrc.
    destruct (Hsrc c Hc) as (row & company & norm & Hrow & Hu & Hthr & Hf).
    exists row. split; [|done]. apply filter_In. split; [by apply list_elem_of_In|].
    unfold reaches. rewrite Hu. by apply Z.leb_le.
  - intros row Hrow. apply filter_In in Hrow as [Hrow Hreach].
    unfold reaches in Hreach.
    destruct (usable_company input_contacts row) as [[company norm]|] eqn:Hu; [|done].
    apply Z.leb_le in Hreach.
    specialize (Hdisp (norm_name e)). rewrite He in Hdisp.
    destruct Hdisp as [(target_row & Htrow & Htu) _].
    destruct (target_fold_has_key thresholds input_contacts target_contacts
                (iterrows target_contacts) target_row (display_name e) (norm_name e)
                row company norm Htrow Htu Hrow Hu Hreach []) as (e' & Hget & Hk).
    assert (e' = e) by congruence. subst e'.
    apply in_map_iff in Hk as (c & Hc & Hin). by exists c.
Qed.

End HelperFacts.

(* ================================================================== *)
(** ** The company threshold *)
(* ================================================================== *)

Section ThresholdMonotone.
Context `{F : SimilarityProvider}.
Import Leadmatcher.

(** X28.  A lower company threshold keeps the roster: every entry of
    the roster has, under a company threshold that is not higher (the
    other thresholds may differ), an entry with the same normalised name
    that has a contact for each of its contact keys. *)
Theorem lower_company_threshold_keeps_roster
    (input_contacts target_contacts : DataFrame) (thresholds1 thresholds2 : Thresholds) :
  company_name thresholds1 <= company_name thresholds2 ->
  Forall (fun e2 =>
            exists e1,
              In e1 (find_matches (Some input_contacts) (Some target_contacts)
                       thresholds1) /\
              norm_name e1 = norm_name e2 /\
              forall c2, In c2 (contacts e2) ->
                exists c1, In c1 (contacts e1) /\ entry_key c1 = entry_key c2)
    (find_matches (Some input_contacts) (Some target_contacts) thresholds2).
Proof.
  intros Hle.
  destruct (company_matches_ok input_contacts target_contacts thresholds2)
    as (Hok2 & _ & Hdisp2).
  destruct (company_matches_ok input_contacts target_contacts thresholds1)
    as (Hok1 & _ & _).
  apply List.Forall_forall. intros e2 He2. apply find_matches_elem in He2.
  specialize (Hdisp2 (norm_name e2)). rewrite He2 in Hdisp2.
  destruct Hdisp2 as [(target_row & Hrow & Hu) _].
  apply dict_get_elem in He2. rewrite Forall_forall in Hok2.
  destruct (Hok2 _ He2) as (_ & Hne & _ & Hsrc). cbn [snd] in Hne, Hsrc.
  rewrite List.Forall_forall in Hsrc.
  assert (Hcover : forall c2, In c2 (contacts e2) ->
            exists e1, dict_get (norm_name e2)
                         (foldl (target_step thresholds1 input_contacts target_contacts)
                            [] (iterrows target_contacts)) = Some e1 /\
                       In (entry_key c2) (map entry_key (contacts e1))).
  { intros c2 Hc2.
    destruct (Hsrc c2 Hc2) as (row & company & norm & Hin & Hsu & Hthr & Hf).
    unfold entry_key at 1. rewrite Hf.
    apply (target_fold_has_key thresholds1 input_contacts target_contacts
             (iterrows target_contacts) target_row (display_name e2) (norm_name e2)
             row company norm); [done|done|by apply list_elem_of_In|done|lia]. }
  destruct (contacts e2) as [|c0 cs] eqn:Hcs; [done|].
  destruct (Hcover c0 ltac:(by left)) as (e1 & Hget1 & _).
  assert (norm_name e1 = norm_name e2) as Hn.
  { pose proof (dict_get_elem _ _ _ Hget1) as Hin.
    rewrite Forall_forall in Hok1. destruct (Hok1 _ Hin) as (Hk & _).
    cbn [fst snd] in Hk. by rewrite <- Hk. }
  exists e1. split_and!; [apply find_matches_elem; by rewrite Hn|done|].
  intros c2 Hc2. destruct (Hcover c2 Hc2) as (e1' & Hget1' & Hk).
  assert (e1' = e1) by congruence. subst e1'.
  apply in_map_iff in Hk as (c1 & Hc1 & Hin1). by exists c1.
Qed.

End ThresholdMonotone.

Section ThresholdFilter.
Context `{F : SimilarityProvider}.
Import App.

Lemma source_loop_threshold (t1 t2 : Z) ic sc idc : t1 <= t2 ->
  forall srcs ms1 r1,
    source_loop t1 ic sc idc ms1 srcs = Ok r1 ->
    source_loop t2 ic sc idc (List.filter (fun m => t2 <=? score m) ms1) srcs
      = Ok (List.filter (fun m => t2 <=? score m) r1).
Proof.
  intros Hle. induction srcs as [|[i norm] srcs IH]; intros ms1 r1; cbn [source_loop].
  - by intros [= <-].
  - unfold source_step.
    destruct (truthy norm); cbn [negb]; [|by apply IH].
    destruct (extractOne norm (map snd idc)) as [[best s]|]; [|done].
    destruct (Z.leb_spec t1 s) as [H1|H1].
    + destruct (head (filter _ idc)) as [[j x]|]; [|done].
      intros Hloop. apply IH in Hloop. rewrite List.filter_app in Hloop.
      cbn [List.filter score] in Hloop.
      destruct (t2 <=? s); [exact Hloop|by rewrite app_nil_r in Hloop].
    + rewrite (proj2 (Z.leb_gt t2 s)) by lia. by apply IH.
Qed.

(** X29.  The threshold of [match_companies] only filters the
    records: the result for a threshold is the result for any lower
    threshold without the records whose score is below it. *)
Theorem company_threshold_filters_records
    (ideal_df source_df : DataFrame) (threshold1 threshold2 : Z)
    (ms : list CompanyMatch) :
  threshold1 <= threshold2 ->
  match_companies ideal_df source_df threshold1 = Ok ms ->
  match_companies ideal_df source_df threshold2
    = Ok (List.filter (fun m => threshold2 <=? score m) ms).
Proof.
  intros Hle. unfold match_companies.
  destruct (company_col source_df); [|by intros [= <-]].
  destruct (company_col ideal_df); [|by intros [= <-]].
  cbv zeta. intros Hloop.
  by apply (source_loop_threshold threshold1 threshold2 _ _ _ Hle _ []) in Hloop.
Qed.

End ThresholdFilter.

Lemma lower_company_threshold_keeps_roster_witness :
  Forall (fun e2 =>
            exists e1,
              In e1 (@Leadmatcher.find_matches exact_provider (Some jane_rows)
                       (Some acme_target) (thresholds_with 50 85 70)) /\
              Leadmatcher.norm_name e1 = Leadmatcher.norm_name e2 /\
              forall c2, In c2 (Leadmatcher.contacts e2) ->
                exists c1, In c1 (Leadmatcher.contacts e1) /\
                           Leadmatcher.entry_key c1 = Leadmatcher.entry_key c2)
    (@Leadmatcher.find_matches exact_provider (Some jane_rows) (Some acme_target)
       (thresholds_with 85 85 70)).
Proof.
  apply (@lower_company_threshold_keeps_roster exact_provider jane_rows acme_target
           (thresholds_with 50 85 70) (thresholds_with 85 85 70)).
  cbn. lia.
Defined.

Lemma company_threshold_filters_records_witness :
  exists ms,
    @App.match_companies exact_provider acme_target acme_sources 50 = Ok ms /\
    @App.match_companies exact_provider acme_target acme_sources 85
      = Ok (List.filter (fun m => 85 <=? App.score m) ms).
Proof.
  eexists. split; [vm_compute; reflexivity|].
  apply (@company_threshold_filters_records exact_provider acme_target acme_sources
           50 85); [lia|vm_compute; reflexivity].
Defined.

(* ================================================================== *)
(** ** The lines of a box *)
(* ================================================================== *)

Section BoxLines.
Import Leadmatcher.

Lemma rfind_spec c (s : text) :
  rfind c s = -1 \/
  (0 <= rfind c s < Z.of_nat (length s) /\ s !! Z.to_nat (rfind c s) = Some c).
Proof.
  induction s as [|d s IH]; cbn [rfind]; [by left|]. cbv zeta.
  destruct (Z.leb_spec 0 (rfind c s)) as [Hr|Hr].
  - right. destruct IH as [IH|[IH1 IH2]]; [lia|]. split; [cbn [length]; lia|].
    replace (Z.to_nat (rfind c s + 1)) with (S (Z.to_nat (rfind c s))) by lia. done.
  - case_bool_decide as Hd; [|by left]. right. subst d. split; [cbn [length]; lia|done].
Qed.

Lemma filter_lstrip p (s : text) :
  List.filter (fun c => negb (p c)) (lstrip p s) = List.filter (fun c => negb (p c)) s.
Proof.
  induction s as [|c s IH]; simpl; [done|].
  destruct (p c) eqn:Hc; simpl; [exact IH|]. by rewrite Hc.
Qed.

Lemma filter_rev {A} (q : A -> bool) (l : list A) :
  List.filter q (rev l) = rev (List.filter q l).
Proof.
  induction l as [|x l IH]; simpl; [done|].
  rewrite List.filter_app, IH. simpl. destruct (q x); simpl; [done|by rewrite app_nil_r].
Qed.

Lemma filter_strip_chars p (s : text) :
  List.filter (fun c => negb (p c)) (strip_chars p s)
    = List.filter (fun c => negb (p c)) s.
Proof.
  unfold strip_chars, rstrip.
  by rewrite filter_rev, filter_lstrip, filter_rev, rev_involutive, filter_lstrip.
Qed.

Lemma length_strip_blank (c : ascii) (s : text) :
  is_space c = true -> (length (strip (c :: s)) <= length s)%nat.
Proof.
  intros Hc. unfold strip, strip_chars. cbn [lstrip]. rewrite Hc.
  apply (length_strip_chars is_space s).
Qed.

(** With a width above 4 the loop ends, every line it makes fits the
    box, and no character but blanks is lost. *)
Lemma wrap_line_fits (width : Z) : 4 < width ->
  forall fuel line, (length line < fuel)%nat ->
  exists lines,
    wrap_line fuel width line = Some lines /\
    Forall (fun l => Z.of_nat (length l) <= width - 4) lines /\
    List.filter (fun c => negb (is_space c)) (concat lines)
      = List.filter (fun c => negb (is_space c)) line.
Proof.
  intros Hw. induction fuel as [|fuel IH]; intros line Hlen; [lia|].
  cbn [wrap_line].
  destruct (Z.ltb_spec (width - 4) (Z.of_nat (length line))) as [Hlong|Hshort].
  2: { exists [line]. split_and!; [done|by repeat constructor|].
       cbn [concat]. by rewrite app_nil_r. }
  cbv zeta.
  set (found := rfind blank (slice_to (width - 4) line)).
  set (split_point := if found =? -1 then width - 4 else found).
  assert (Htake : slice_to (width - 4) line = take (Z.to_nat (width - 4)) line).
  { unfold slice_to, slice_index. by rewrite (proj2 (Z.leb_le 0 (width - 4))) by lia. }
  assert (Hsp : 0 <= split_point <= width - 4 /\
                (split_point = 0 -> exists rest, line = blank :: rest)).
  { subst split_point. destruct (rfind_spec blank (slice_to (width - 4) line))
      as [Hnone|[Hrange Hat]]; fold found in Hnone || fold found in Hrange, Hat.
    - rewrite Hnone. cbn. split; [lia|]. intros; lia.
    - rewrite Htake, length_take in Hrange.
      destruct (Z.eqb_spec found (-1)); [lia|]. split; [lia|].
      intros H0. rewrite H0, Htake in Hat. cbn in Hat.
      destruct line as [|c rest]; [by rewrite take_nil in Hat|].
      destruct (Z.to_nat (width - 4)) eqn:Hn; [lia|]. cbn in Hat.
      injection Hat as ->. by exists rest. }
  destruct Hsp as [Hrange Hzero].
  assert (Hidx : slice_index split_point line = Z.to_nat split_point).
  { unfold slice_index. by rewrite (proj2 (Z.leb_le 0 split_point)) by lia. }
  unfold slice_from, slice_to. rewrite Hidx.
  assert (Hshorter : (length (strip (drop (Z.to_nat split_point) line)) < length line)%nat).
  { destruct (Z.eq_dec split_point 0) as [H0|H0].
    - destruct (Hzero H0) as [rest ->]. rewrite H0.
      change (drop (Z.to_nat 0) (blank :: rest)) with (blank :: rest).
      pose proof (length_strip_blank blank rest blank_is_space). cbn [length]. lia.
    - pose proof (length_strip_chars is_space (drop (Z.to_nat split_point) line)) as Hle.
      unfold strip. rewrite length_drop in Hle. lia. }
  destruct (IH (strip (drop (Z.to_nat split_point) line))) as (lines & -> & Hfit & Hkeep);
    [lia|].
  eexists. split_and!; [done| |].
  - constructor; [|done]. rewrite length_take. lia.
  - cbn [concat]. rewrite List.filter_app, Hkeep. unfold strip.
    rewrite filter_strip_chars, <- List.filter_app. by rewrite take_drop.
Qed.

(** X24.  With a width above 4 the loops of [print_box] end, every
    line they make fits the box (at most [width - 4] characters), and
    no character of the content but blanks is lost. *)
Theorem box_lines_fit (width : Z) (content : list text) (fuel : nat) :
  4 < width ->
  Forall (fun line => (length line < fuel)%nat) content ->
  exists lines,
    clean_content fuel width content = Some lines /\
    Forall (fun l => Z.of_nat (length l) <= width - 4) lines /\
    List.filter (fun c => negb (is_space c)) (concat lines)
      = List.filter (fun c => negb (is_space c)) (concat content).
Proof.
  intros Hw. induction 1 as [|line content Hline _ IH]; [by exists []|].
  destruct IH as (rest & Hrest & Hfit & Hkeep).
  destruct (wrap_line_fits width Hw fuel line Hline) as (lines & Hlines & Hfit' & Hkeep').
  exists (lines ++ rest). cbn [clean_content]. rewrite Hlines, Hrest.
  split_and!; [done|by apply Forall_app| ].
  cbn [concat]. by rewrite concat_app, !List.filter_app, Hkeep, Hkeep'.
Qed.

(** X25.  With a width below 4 the [while] loop of [print_box] does
    not end on any line, and with a width of 4 it does not end on a
    line that has a character other than blanks. *)
Theorem box_loop_does_not_end (width : Z) (line : text) (fuel : nat) :
  width < 4 \/ (width = 4 /\ strip line <> []) ->
  wrap_line fuel width line = None.
Proof.
  revert line. induction fuel as [|fuel IH]; intros line Hw; [done|].
  cbn [wrap_line]. destruct Hw as [Hw|[-> Hline]].
  - rewrite (proj2 (Z.ltb_lt _ _)) by lia. cbv zeta. rewrite IH; [done|by left].
  - destruct line as [|c line]; [done|].
    rewrite (proj2 (Z.ltb_lt _ _)) by (cbn [length]; lia).
    cbn. rewrite IH; [done|]. right. split; [done|].
    change (strip (strip (c :: line)) <> []).
    unfold strip. rewrite strip_chars_fixed; [done|]. by intros d _ Hd.
Qed.

End BoxLines.

Lemma box_lines_fit_witness :
  exists lines,
    Leadmatcher.clean_content 20 10 (texts ["hello wide world"; "ok"]%string) = Some lines /\
    Forall (fun l => Z.of_nat (length l) <= 10 - 4) lines /\
    List.filter (fun c => negb (is_space c)) (concat lines)
      = List.filter (fun c => negb (is_space c))
          (concat (texts ["hello wide world"; "ok"]%string)).
Proof.
  apply (box_lines_fit 10 (texts ["hello wide world"; "ok"]%string) 20); [lia|].
  unfold texts. cbn [map]. repeat (constructor; [cbn; lia|]). constructor.
Defined.

Lemma box_loop_does_not_end_witness : Leadmatcher.wrap_line 1000 4 "Settings" = None.
Proof.
  apply (box_loop_does_not_end 4 "Settings" 1000).
  right. split; [reflexivity|]. vm_compute. discriminate.
Defined.
